(** * Image to PDF Converter: a verified model of [main.py]

    The program is a small Tk application.  Its one piece of logic is
    [ImageToPDFConverter.convert_images_to_pdf]: it walks the stored list
    of image paths and, for every image, opens it with Pillow, fixes the
    EXIF rotation, flattens transparency onto white, chooses a Letter page
    in portrait or landscape, scales the image to the printable area,
    centres it and emits one page on a reportlab canvas; the canvas is
    saved after the last image.

    The model comes first, organised as the program is:
    - [F64]: Python's [float] (IEEE 754 binary64), on the executable
      specification [SpecFloat] of the standard library;
    - [Py]: the few Python built-ins the method uses;
    - [PIL]: the Pillow operations the method calls;
    - [RL]: the reportlab canvas;
    - [App]: the converter object, its dialogs and the method itself;
    - [Sample]: a small directory of images to run the method on.

    The proofs follow:
    - [Rounding]: what the binary64 operations compute on normal numbers;
    - [PlacementFacts]: the scale and the origin of lines 321-327;
    - [FlattenFacts]: the transparency handling of lines 300-306;
    - [ImageFacts], [LoopFacts], [RunFacts]: one image, the loop, the
      method;
    - [Conversion]: the properties of the conversion.

    Pillow, reportlab and Tk are libraries outside the program: they are
    modelled by what the method observes of them, and the file system and
    the user's answers are an explicit environment. *)

From Stdlib Require Import ZArith List String Ascii Bool Lia Sorted Permutation.
From Stdlib Require Import Reals Lra Psatz.
From Stdlib Require Import SpecFloat DecimalString.
Import ListNotations.

Local Open Scope string_scope.
Local Open Scope Z_scope.

(* ------------------------------------------------------------------ *)
(** * Python floats *)

(** A Python [float] is a binary64 number; [spec_float] with precision 53
    and maximal exponent 1024 is its executable specification. *)
Module F64.

Definition prec : Z := 53.
Definition emax : Z := 1024.

Definition float : Type := spec_float.

(** [float(n)] for an [int]: the nearest binary64 number, ties to even
    (exact whenever [|n| <= 2^53]). *)
Definition of_int (n : Z) : float := binary_normalize prec emax n 0 false.

Definition add : float -> float -> float := SFadd prec emax.
Definition sub : float -> float -> float := SFsub prec emax.
Definition mul : float -> float -> float := SFmul prec emax.
Definition div : float -> float -> float := SFdiv prec emax.

Definition ltb : float -> float -> bool := SFltb.
Definition leb : float -> float -> bool := SFleb.
Definition eqb : float -> float -> bool := SFeqb.

(** Finite, non-zero and positive. *)
Definition is_pos (x : float) : bool :=
  match x with
  | S754_finite false _ _ => true
  | _ => false
  end.

(** ** The real number a float stands for *)

(** [2^e] for any integer [e]. *)
Definition bpow (e : Z) : R := powerRZ 2 e.

Definition to_R (x : float) : R :=
  match x with
  | S754_finite s m e => ((if s then -1 else 1) * IZR (Zpos m) * bpow e)%R
  | _ => 0%R
  end.

(** The relative tolerance of two roundings in a row: [2^-51]. *)
Definition eps : R := bpow (-51).

(** Positive, with a mantissa of exactly 53 bits. *)
Definition normal (x : float) : Prop :=
  match x with
  | S754_finite false m _ => 2 ^ 52 <= Zpos m < 2 ^ 53
  | _ => False
  end.

(** Normal, with an exponent far from overflow and underflow. *)
Definition nice (x : float) : Prop :=
  match x with
  | S754_finite false m e => 2 ^ 52 <= Zpos m < 2 ^ 53 /\ -450 <= e <= 450
  | _ => False
  end.

(** ** Rounding, as [SpecFloat] computes it *)

(** The place of a real [u] between the integers [m] and [m + 1], as a
    [location] records it: on [m], below, on or above the middle. *)
Definition located (m : Z) (l : location) (u : R) : Prop :=
  match l with
  | loc_Exact => u = IZR m
  | loc_Inexact Lt => (IZR m < u < IZR m + / 2)%R
  | loc_Inexact Eq => u = (IZR m + / 2)%R
  | loc_Inexact Gt => (IZR m + / 2 < u < IZR m + 1)%R
  end.

Definition located_rec (mrs : shr_record) (u : R) : Prop :=
  located (shr_m mrs) (loc_of_shr_record mrs) u.

(** [x] is the rounding to nearest, ties to even, of the positive real [v],
    in the normal range: [v] lies between two neighbouring 53-bit
    mantissas [m1] and [m1 + 1] at exponent [e1], and [x] is the one
    [round_nearest_even] selects. *)
Definition rounds (v : R) (x : float) : Prop :=
  exists (m1 : Z) (l1 : location) (e1 : Z) (m : positive) (e : Z),
    2 ^ 52 <= m1 < 2 ^ 53
    /\ located m1 l1 (v / bpow e1)
    /\ x = S754_finite false m e
    /\ 2 ^ 52 <= Zpos m < 2 ^ 53
    /\ (IZR (Zpos m) * bpow e = IZR (round_nearest_even m1 l1) * bpow e1)%R.

End F64.

(* ------------------------------------------------------------------ *)
(** * Python built-ins *)

Module Py.

(** An exception: its class name and its message ([str(ex)]). *)
Record exn : Type := Exn { exn_class : string; exn_message : string }.

(** The outcome of evaluating an expression. *)
Inductive Res (A : Type) : Type :=
| Ok (a : A)
| Raise (e : exn).
Arguments Ok {A} a.
Arguments Raise {A} e.

Definition ZeroDivisionError : exn :=
  Exn "ZeroDivisionError" "division by zero".

(** [a / b] on two [int]s: true division, a [float].  For operands below
    [2^53] in magnitude (image and page dimensions are) the correctly
    rounded quotient is the binary64 quotient of the converted
    operands. *)
Definition truediv (a b : Z) : Res F64.float :=
  if b =? 0 then Raise ZeroDivisionError
  else Ok (F64.div (F64.of_int a) (F64.of_int b)).

(** [min(a, b)]: the first argument unless the second is smaller. *)
Definition min (a b : F64.float) : F64.float :=
  if F64.ltb b a then b else a.

(** [n * x] with [n] an [int] and [x] a [float]. *)
Definition mul_int_float (n : Z) (x : F64.float) : F64.float :=
  F64.mul (F64.of_int n) x.

(** [n - x] with [n] an [int] and [x] a [float]. *)
Definition sub_int_float (n : Z) (x : F64.float) : F64.float :=
  F64.sub (F64.of_int n) x.

(** [x / n] with [x] a [float] and [n] a non-zero [int] literal. *)
Definition div_float_int (x : F64.float) (n : Z) : F64.float :=
  F64.div x (F64.of_int n).

(** [str(n)] for an [int]. *)
Definition str (n : Z) : string := NilZero.string_of_int (Z.to_int n).

(** The white space of ASCII, the part of what [str.strip] removes that
    lies in ASCII (Python also removes white space outside ASCII, such as
    U+0085, U+00A0 and U+2003). *)
Definition isspace (c : ascii) : bool :=
  let n := Z.of_nat (nat_of_ascii c) in
  ((9 <=? n) && (n <=? 13)) || ((28 <=? n) && (n <=? 32)).

Fixpoint lstrip (s : string) : string :=
  match s with
  | String c s' => if isspace c then lstrip s' else s
  | EmptyString => EmptyString
  end.

Fixpoint rstrip (s : string) : string :=
  match s with
  | String c s' =>
      match rstrip s' with
      | EmptyString => if isspace c then EmptyString else String c EmptyString
      | t => String c t
      end
  | EmptyString => EmptyString
  end.

(** [s.strip()] on a string of ASCII characters; what is proved of it
    supposes such a string. *)
Definition strip (s : string) : string := rstrip (lstrip s).

(** [x in xs] for strings. *)
Definition contains (x : string) (xs : list string) : bool :=
  existsb (String.eqb x) xs.

End Py.
Export Py(exn, Exn, exn_class, exn_message, Res, Ok, Raise).

(* ------------------------------------------------------------------ *)
(** * Pillow *)

(** What [convert_images_to_pdf] uses of Pillow.  An image is its mode
    string, the keys of its [info] dictionary, its size and its decoded
    content.  The content is kept as Pillow's [convert("RGBA")] reads it:
    one 8-bit red/green/blue/alpha value per pixel, alpha 255 where the
    image carries no transparency for the pixel. *)
Module PIL.

Record pixel : Type := Pixel { red : Z; green : Z; blue : Z; alpha : Z }.

Record Image : Type := mkImage {
  mode : string;
  info : list string;
  width : Z;
  height : Z;
  getpixel : Z -> Z -> pixel
}.

Definition size (im : Image) : Z * Z := (width im, height im).

(** The modes with an alpha band (Pillow's mode table; the same list is
    the first test of [Image.has_transparency_data]). *)
Definition alpha_modes : list string := ["LA"; "La"; "PA"; "RGBA"; "RGBa"].

Definition has_alpha_channel (im : Image) : bool :=
  Py.contains (mode im) alpha_modes.

Definition white : pixel := Pixel 255 255 255 255.

(** [Image.new(mode, size, color)]: a constant image. *)
Definition new (m : string) (sz : Z * Z) (color : pixel) : Image :=
  {| mode := m; info := []; width := fst sz; height := snd sz;
     getpixel := fun _ _ => color |}.

(** Dropping the alpha band. *)
Definition opaque (p : pixel) : pixel :=
  Pixel (red p) (green p) (blue p) 255.

(** [im.convert(m)], for the two targets the program asks for: "RGBA"
    keeps the content, "RGB" drops the alpha band. *)
Definition convert (m : string) (im : Image) : Image :=
  {| mode := m; info := info im; width := width im; height := height im;
     getpixel := if m =? "RGB" then fun x y => opaque (getpixel im x y)
                 else getpixel im |}%string.

(** One pixel of [Image.alpha_composite]: Pillow's integer source-over
    ([libImaging/AlphaComposite.c], 7 extra bits of precision, rounded
    division by 255 done with shifts). *)
Definition PRECISION_BITS : Z := 7.

Definition SHIFTFORDIV255 (a : Z) : Z :=
  Z.shiftr (Z.shiftr a 8 + a) 8.

Definition composite_pixel (dst src : pixel) : pixel :=
  if alpha src =? 0 then dst
  else
    let blend := alpha dst * (255 - alpha src) in
    let outa255 := alpha src * 255 + blend in
    let coef1 :=
      alpha src * 255 * 255 * Z.shiftl 1 PRECISION_BITS / outa255 in
    let coef2 := 255 * Z.shiftl 1 PRECISION_BITS - coef1 in
    let channel (s d : Z) :=
      Z.shiftr
        (SHIFTFORDIV255 (s * coef1 + d * coef2 + Z.shiftl 128 PRECISION_BITS))
        PRECISION_BITS in
    Pixel (channel (red src) (red dst))
          (channel (green src) (green dst))
          (channel (blue src) (blue dst))
          (SHIFTFORDIV255 (outa255 + 128)).

(** [Image.alpha_composite(im1, im2)]: [im2] over [im1], both "RGBA"
    and of one size (they are where the program calls it). *)
Definition alpha_composite (im1 im2 : Image) : Image :=
  {| mode := "RGBA"; info := info im1;
     width := width im1; height := height im1;
     getpixel := fun x y => composite_pixel (getpixel im1 x y) (getpixel im2 x y) |}.

(** Source-over on white, in exact arithmetic: a channel [s] seen through
    alpha [a] (both out of 255) over a white, opaque background is
    [(s*a + 255*(255-a)) / 255], rounded to the nearest integer. *)
Definition over_white (s a : Z) : Z :=
  (2 * (s * a + 255 * (255 - a)) + 255) / 510.

(** An 8-bit value, an 8-bit pixel. *)
Definition byte (v : Z) : Prop := 0 <= v <= 255.

Definition byte_pixel (p : pixel) : Prop :=
  byte (red p) /\ byte (green p) /\ byte (blue p) /\ byte (alpha p).

(** One channel of [composite_pixel] over white, for a source alpha that
    is not 0. *)
Definition channel_on_white (s a : Z) : Z :=
  red (composite_pixel white (Pixel s 0 0 a)).


End PIL.

(* ------------------------------------------------------------------ *)
(** * reportlab *)

(** The canvas of [reportlab.pdfgen]: the current page size, the
    operators of the page under construction, the pages shown so far in
    order.  The document reaches the destination file only in [save]. *)
Module RL.

(** The one drawing operator the program emits. *)
Record drawing : Type := InlineImage {
  image : PIL.Image;
  x : F64.float;
  y : F64.float;
  draw_width : F64.float;
  draw_height : F64.float
}.

Record Page : Type := mkPage {
  page_size : option (Z * Z);   (* [None]: the library's default size *)
  content : list drawing
}.

Record Canvas : Type := mkCanvas {
  filename : string;
  pagesize : option (Z * Z);
  code : list drawing;
  pages : list Page
}.

(** [canvas.Canvas(filename)] *)
Definition new (fn : string) : Canvas :=
  {| filename := fn; pagesize := None; code := []; pages := [] |}.

Definition setPageSize (sz : Z * Z) (c : Canvas) : Canvas :=
  {| filename := filename c; pagesize := Some sz;
     code := code c; pages := pages c |}.

Definition drawInlineImage (im : PIL.Image) (x y w h : F64.float)
    (c : Canvas) : Canvas :=
  {| filename := filename c; pagesize := pagesize c;
     code := (code c ++ [InlineImage im x y w h])%list; pages := pages c |}.

(** [showPage()]: close the current page and start an empty one. *)
Definition showPage (c : Canvas) : Canvas :=
  {| filename := filename c; pagesize := pagesize c; code := [];
     pages := (pages c ++ [mkPage (pagesize c) (code c)])%list |}.

(** The pages [save()] writes: a page still under construction is shown
    first. *)
Definition finished (c : Canvas) : Canvas :=
  match code c with
  | [] => c
  | _ :: _ => showPage c
  end.

End RL.

(* ------------------------------------------------------------------ *)
(** * The converter *)

Module App.

(** ** The world around the method *)

(** What the method shows, asks and calls, in the order it happens. *)
Inductive event : Type :=
| showwarning (title message : string)
| showinfo (title message : string)
| showerror (title message : string)
| asksaveasfilename_call (initialfile : string)
| status_set (text : string)
| update_idletasks
| Image_open_call (path : string)
| save_call (path : string).

(** The file system and the user, as far as one run reads them. *)
Record Env : Type := mkEnv {
  (** [Image.open(path)]: the decoded image, or the exception raised *)
  Image_open : string -> Res PIL.Image;
  (** [ImageOps.exif_transpose(img)] *)
  exif_transpose : PIL.Image -> Res PIL.Image;
  (** the path chosen in the Save As dialog for a proposed file name;
      empty when the dialog is cancelled *)
  asksaveasfilename : string -> string;
  (** [os.path.basename] *)
  basename : string -> string;
  (** the exception [save()] raises when it cannot write the path *)
  save_error : string -> option exn
}.

(** The converter object ([image_paths], the two Tk variables), the
    canvas of the run in progress, the documents written so far and the
    trace of events. *)
Record State : Type := mkState {
  image_paths : list string;
  output_pdf_name : string;
  status_text : string;
  pdf : option RL.Canvas;
  disk : list (string * list RL.Page);
  log : list event
}.

Definition with_status (s : string) (st : State) : State :=
  {| image_paths := image_paths st; output_pdf_name := output_pdf_name st;
     status_text := s; pdf := pdf st; disk := disk st; log := log st |}.

Definition with_pdf (c : option RL.Canvas) (st : State) : State :=
  {| image_paths := image_paths st; output_pdf_name := output_pdf_name st;
     status_text := status_text st; pdf := c; disk := disk st; log := log st |}.

Definition with_disk (d : list (string * list RL.Page)) (st : State) : State :=
  {| image_paths := image_paths st; output_pdf_name := output_pdf_name st;
     status_text := status_text st; pdf := pdf st; disk := d; log := log st |}.

Definition with_log (l : list event) (st : State) : State :=
  {| image_paths := image_paths st; output_pdf_name := output_pdf_name st;
     status_text := status_text st; pdf := pdf st; disk := disk st; log := l |}.

(** ** Statements: state passing with exceptions *)

Definition M (A : Type) : Type := State -> Res A * State.

Definition ret {A} (a : A) : M A := fun st => (Ok a, st).

Definition bind {A B} (c : M A) (k : A -> M B) : M B :=
  fun st =>
    match c st with
    | (Ok a, st') => k a st'
    | (Raise e, st') => (Raise e, st')
    end.

Definition raise {A} (e : exn) : M A := fun st => (Raise e, st).

(** An expression that may raise, evaluated without touching the state. *)
Definition lift {A} (r : Res A) : M A := fun st => (r, st).

(** [try: body except Exception as ex: handler(ex)] *)
Definition try_except (body : M unit) (handler : exn -> M unit) : M unit :=
  fun st =>
    match body st with
    | (Ok a, st') => (Ok a, st')
    | (Raise e, st') => handler e st'
    end.

Declare Scope py_scope.
Delimit Scope py_scope with py.
Notation "x <- c ;; k" := (bind c (fun x => k))
  (at level 61, c at next level, right associativity) : py_scope.
Notation "c ;; k" := (bind c (fun _ => k))
  (at level 61, right associativity) : py_scope.
Local Open Scope py_scope.

Definition emit (e : event) : M unit :=
  fun st => (Ok tt, with_log (log st ++ [e])%list st).

(** [self.status_text.set(s)] *)
Definition set_status (s : string) : M unit :=
  fun st => emit (status_set s) (with_status s st).

(** A method call on the run's canvas. *)
Definition on_pdf (f : RL.Canvas -> RL.Canvas) : M unit :=
  fun st => (Ok tt, with_pdf (option_map f (pdf st)) st).

Definition nl : string := String (ascii_of_nat 10) EmptyString.

(** ** Lines 300-306: transparency *)

(** The test of line 301. *)
Definition has_transparency (img : PIL.Image) : bool :=
  Py.contains (PIL.mode img) ["RGBA"; "LA"]
  || ((PIL.mode img =? "P")%string && Py.contains "transparency" (PIL.info img)).

Definition flatten (img : PIL.Image) : PIL.Image :=
  if has_transparency img then
    let rgba := PIL.convert "RGBA" img in
    let bg := PIL.new "RGBA" (PIL.size rgba) PIL.white in
    PIL.convert "RGB" (PIL.alpha_composite bg rgba)
  else
    PIL.convert "RGB" img.

(** ** Lines 308-327: page size, scale, position *)

Definition portrait_size : Z * Z := (612, 792).
Definition landscape_size : Z * Z := (792, 612).
Definition margin : Z := 36.

(** Line 311. *)
Definition page_size_for (img : PIL.Image) : Z * Z :=
  if PIL.height img >=? PIL.width img then portrait_size else landscape_size.

(** The locals of lines 316-327, as functions of the flattened image
    (read when neither side of the image is zero). *)
Definition page_w (img : PIL.Image) : Z := fst (page_size_for img).
Definition page_h (img : PIL.Image) : Z := snd (page_size_for img).
Definition available_w (img : PIL.Image) : Z := page_w img - 2 * margin.
Definition available_h (img : PIL.Image) : Z := page_h img - 2 * margin.

Definition scale (img : PIL.Image) : F64.float :=
  Py.min (F64.div (F64.of_int (available_w img)) (F64.of_int (PIL.width img)))
         (F64.div (F64.of_int (available_h img)) (F64.of_int (PIL.height img))).

Definition new_w (img : PIL.Image) : F64.float :=
  Py.mul_int_float (PIL.width img) (scale img).
Definition new_h (img : PIL.Image) : F64.float :=
  Py.mul_int_float (PIL.height img) (scale img).

Definition x (img : PIL.Image) : F64.float :=
  Py.div_float_int (Py.sub_int_float (page_w img) (new_w img)) 2.
Definition y (img : PIL.Image) : F64.float :=
  Py.div_float_int (Py.sub_int_float (page_h img) (new_h img)) 2.

(** The page lines 313-331 emit for a flattened image. *)
Definition page_for (img : PIL.Image) : RL.Page :=
  RL.mkPage (Some (page_size_for img))
            [RL.InlineImage img (x img) (y img) (new_w img) (new_h img)].

(** Line 275 and the [initialfile] of line 280. *)
Definition default_name (st : State) : string :=
  match Py.strip (output_pdf_name st) with
  | EmptyString => "output"
  | s => s
  end.

Definition initialfile (st : State) : string := default_name st ++ ".pdf".

Section WithEnv.
Variable env : Env.

(** ** Lines 296-331: one image *)
Definition process_image (image_path : string) : M unit :=
  emit (Image_open_call image_path) ;;
  img <- lift (Image_open env image_path) ;;
  img <- lift (exif_transpose env img) ;;
  let img := flatten img in
  let '(page_w, page_h) := page_size_for img in
  on_pdf (RL.setPageSize (page_w, page_h)) ;;
  let available_w := page_w - 2 * margin in
  let available_h := page_h - 2 * margin in
  rw <- lift (Py.truediv available_w (PIL.width img)) ;;
  rh <- lift (Py.truediv available_h (PIL.height img)) ;;
  let scale := Py.min rw rh in
  let new_w := Py.mul_int_float (PIL.width img) scale in
  let new_h := Py.mul_int_float (PIL.height img) scale in
  let x := Py.div_float_int (Py.sub_int_float page_w new_w) 2 in
  let y := Py.div_float_int (Py.sub_int_float page_h new_h) 2 in
  on_pdf (RL.drawInlineImage img x y new_w new_h) ;;
  on_pdf RL.showPage.

(** ** Lines 291-331: the loop, [i] counting from 1 *)
Fixpoint process_images (total i : Z) (paths : list string) : M unit :=
  match paths with
  | [] => ret tt
  | image_path :: rest =>
      set_status ("Processing " ++ Py.str i ++ "/" ++ Py.str total ++ ": "
                  ++ basename env image_path) ;;
      emit update_idletasks ;;
      process_image image_path ;;
      process_images total (i + 1) rest
  end.

(** ** Line 333: [pdf.save()] *)
Definition save : M unit :=
  fun st =>
    match pdf st with
    | None => (Ok tt, st)
    | Some c =>
        let st := with_log (log st ++ [save_call (RL.filename c)])%list st in
        match save_error env (RL.filename c) with
        | Some e => (Raise e, st)
        | None =>
            let c' := RL.finished c in
            (Ok tt, with_disk ((RL.filename c', RL.pages c') :: disk st)
                              (with_pdf (Some c') st))
        end
    end.

(** ** Lines 286-339: the guarded block and its handler *)
Definition convert_body (save_path : string) : M unit :=
  fun st =>
    let st := with_pdf (Some (RL.new save_path)) st in
    let total := Z.of_nat (List.length (image_paths st)) in
    (process_images total 1 (image_paths st) ;;
     save ;;
     set_status ("Done. Saved: " ++ basename env save_path) ;;
     emit (showinfo "Success"
             ("PDF created successfully:" ++ nl ++ save_path))) st.

Definition convert_handler (ex : exn) : M unit :=
  set_status "Error." ;;
  emit (showerror "Conversion failed"
          ("An error occurred:" ++ nl ++ exn_message ex)).

(** ** Lines 266-339: the method *)
Definition convert_images_to_pdf : M unit :=
  fun st =>
    match image_paths st with
    | [] =>
        emit (showwarning "No images" "Please select at least one image.") st
    | _ :: _ =>
        let save_path := asksaveasfilename env (initialfile st) in
        let st := with_log (log st ++ [asksaveasfilename_call (initialfile st)])%list st in
        match save_path with
        | EmptyString => (Ok tt, st)
        | _ => try_except (convert_body save_path) convert_handler st
        end
    end.

(** Lines 296-306 as one expression: the flattened image of a path. *)
Definition load (image_path : string) : Res PIL.Image :=
  match Image_open env image_path with
  | Raise e => Raise e
  | Ok img =>
      match exif_transpose env img with
      | Raise e => Raise e
      | Ok img => Ok (flatten img)
      end
  end.

(** The events of the loop for [paths], the first numbered [i]. *)
Fixpoint progress (total i : Z) (paths : list string) : list event :=
  match paths with
  | [] => []
  | image_path :: rest =>
      [status_set ("Processing " ++ Py.str i ++ "/" ++ Py.str total ++ ": "
                   ++ basename env image_path);
       update_idletasks;
       Image_open_call image_path]
      ++ progress total (i + 1) rest
  end%list.

End WithEnv.

(** The paths [Image.open] was called on, in order. *)
Definition opened (l : list event) : list string :=
  flat_map (fun e => match e with Image_open_call p => [p] | _ => [] end) l.

(** The paths [save()] was called for, in order. *)
Definition saves (l : list event) : list string :=
  flat_map (fun e => match e with save_call p => [p] | _ => [] end) l.

(** What one pass of the loop body does to the canvas when it runs to
    its end. *)
Definition emit_page (img : PIL.Image) (c : RL.Canvas) : RL.Canvas :=
  RL.showPage
    (RL.drawInlineImage img (x img) (y img) (new_w img) (new_h img)
       (RL.setPageSize (page_size_for img) c)).

(** Processing a path stops with exception [e]: the image cannot be
    loaded, or one of its sides is zero and the division raises. *)
Definition fails (env : Env) (image_path : string) (e : exn) : Prop :=
  load env image_path = Raise e
  \/ exists img, load env image_path = Ok img
       /\ (PIL.width img = 0 \/ PIL.height img = 0)
       /\ e = Py.ZeroDivisionError.

(** An image the scale computation accepts. *)
Definition nonempty (img : PIL.Image) : Prop :=
  0 < PIL.width img /\ 0 < PIL.height img.

(** A path that loads to a given image with two positive sides. *)
Definition renders (env : Env) (p : string) (img : PIL.Image) : Prop :=
  load env p = Ok img /\ nonempty img.

(** The canvas after the pages of [imgs] have been emitted in order. *)
Definition emit_pages (imgs : list PIL.Image) (c : RL.Canvas) : RL.Canvas :=
  fold_left (fun c img => emit_page img c) imgs c.

(** The state in which the body of the loop starts on [p]: the status
    line is set and the window refreshed. *)
Definition announced (env : Env) (total i : Z) (p : string) (st : State) : State :=
  snd ((set_status ("Processing " ++ Py.str i ++ "/" ++ Py.str total ++ ": "
                    ++ basename env p) ;;
        emit update_idletasks)%py st).

(** A page with the size the shape of an image asks for: portrait when
    the image is at least as high as wide, landscape otherwise. *)
Definition shaped (img : PIL.Image) (pg : RL.Page) : Prop :=
  (PIL.width img <= PIL.height img -> RL.page_size pg = Some (612, 792))
  /\ (PIL.height img < PIL.width img -> RL.page_size pg = Some (792, 612)).

(** A statement that leaves the stored list of paths and the name entry
    as they are, whether it ends or raises. *)
Definition keeps_selection {A : Type} (c : M A) : Prop :=
  forall st : State,
    image_paths (snd (c st)) = image_paths st
    /\ output_pdf_name (snd (c st)) = output_pdf_name st.

End App.

(* ------------------------------------------------------------------ *)
(** * A small world to run the method in *)

Module Sample.
Import App.

(** An image of one colour. *)
Definition solid (m : string) (keys : list string) (w h : Z) (p : PIL.pixel)
    : PIL.Image :=
  PIL.mkImage m keys w h (fun _ _ => p).

Definition grey : PIL.pixel := PIL.Pixel 10 20 30 255.

(** The files of the sample directory; every other path is missing. *)
Definition files : list (string * PIL.Image) :=
  [ ("wide.png", solid "RGB" [] 800 600 grey);
    ("tall.png", solid "RGB" [] 600 800 grey);
    ("square.png", solid "RGB" [] 800 800 grey);
    ("thin.png", solid "RGB" [] 1 169 grey);
    ("empty.png", solid "RGB" [] 0 10 grey) ].

Fixpoint lookup (p : string) (l : list (string * PIL.Image)) : Res PIL.Image :=
  match l with
  | [] => Raise (Exn "FileNotFoundError" ("No such file or directory: " ++ p))
  | (q, img) :: l' => if (p =? q)%string then Ok img else lookup p l'
  end.

(** No image carries an EXIF rotation, the user saves to [out.pdf], which
    is writable. *)
Definition env : Env :=
  {| Image_open := fun p => lookup p files;
     exif_transpose := fun img => Ok img;
     asksaveasfilename := fun _ => "out.pdf";
     basename := fun p => p;
     save_error := fun _ => None |}.

(** The same world with the Save As dialog cancelled. *)
Definition env_cancel : Env :=
  {| Image_open := Image_open env;
     exif_transpose := exif_transpose env;
     asksaveasfilename := fun _ => "";
     basename := basename env;
     save_error := save_error env |}.

(** The converter just after the user has selected [paths]. *)
Definition selected (paths : list string) : State :=
  {| image_paths := paths; output_pdf_name := ""; status_text := "Ready";
     pdf := None; disk := []; log := [] |}.

(** The same, inside a run that has just created its canvas. *)
Definition running (paths : list string) : State :=
  with_pdf (Some (RL.new "out.pdf")) (selected paths).

(** A palette image with an alpha band, one pixel, fully transparent. *)
Definition clear_palette : PIL.Image :=
  solid "PA" [] 1 1 (PIL.Pixel 10 20 30 0).

(** An RGBA image, one pixel, half transparent. *)
Definition veil : PIL.Image :=
  solid "RGBA" [] 1 1 (PIL.Pixel 10 20 30 128).

End Sample.

(* ------------------------------------------------------------------ *)
(** * Python lists *)

(** Indexing as the list methods of the window use it: a negative index
    counts from the end, an index out of range raises [IndexError]. *)
Module PyList.

Definition IndexError (msg : string) : exn := Exn "IndexError" msg.

(** The position an index denotes, if any. *)
Definition position {A : Type} (l : list A) (i : Z) : option nat :=
  let n := Z.of_nat (List.length l) in
  if (0 <=? i) && (i <? n) then Some (Z.to_nat i)
  else if (- n <=? i) && (i <? 0) then Some (Z.to_nat (n + i))
  else None.

(** [l[i]] *)
Definition getitem {A : Type} (l : list A) (i : Z) : Res A :=
  match position l i with
  | Some k =>
      match nth_error l k with
      | Some a => Ok a
      | None => Raise (IndexError "list index out of range")
      end
  | None => Raise (IndexError "list index out of range")
  end.

(** [l[i] = v] *)
Definition setitem {A : Type} (l : list A) (i : Z) (v : A) : Res (list A) :=
  match position l i with
  | Some k => Ok (firstn k l ++ v :: skipn (S k) l)%list
  | None => Raise (IndexError "list assignment index out of range")
  end.

(** [del l[i]] *)
Definition delitem {A : Type} (l : list A) (i : Z) : Res (list A) :=
  match position l i with
  | Some k => Ok (firstn k l ++ skipn (S k) l)%list
  | None => Raise (IndexError "list assignment index out of range")
  end.

(** [l[i], l[j] = l[j], l[i]]: the right-hand side is read first, then
    the two targets are assigned from left to right. *)
Definition swap {A : Type} (l : list A) (i j : Z) : Res (list A) :=
  match getitem l j with
  | Raise e => Raise e
  | Ok vj =>
      match getitem l i with
      | Raise e => Raise e
      | Ok vi =>
          match setitem l i vj with
          | Raise e => Raise e
          | Ok l1 => setitem l1 j vi
          end
      end
  end.

End PyList.

(* ------------------------------------------------------------------ *)
(** * The Tk listbox *)

(** The lines shown and the indices selected, kept in increasing order as
    [curselection] returns them. *)
Module Tk.

Record Listbox : Type := mkListbox {
  items : list string;
  selection : list Z
}.

(** [delete(0, END)]: no line is left, hence no selection. *)
Definition delete_all (lb : Listbox) : Listbox :=
  {| items := []; selection := [] |}.

(** [insert(END, s)] *)
Definition insert_end (s : string) (lb : Listbox) : Listbox :=
  {| items := (items lb ++ [s])%list; selection := selection lb |}.

Definition curselection (lb : Listbox) : list Z := selection lb.

Fixpoint insert_sorted (i : Z) (l : list Z) : list Z :=
  match l with
  | [] => [i]
  | j :: l' =>
      if i <? j then i :: l
      else if i =? j then l
      else j :: insert_sorted i l'
  end.

(** [selection_set(i)]: selects line [i]; an index that is not a line is
    ignored. *)
Definition selection_set (i : Z) (lb : Listbox) : Listbox :=
  if (0 <=? i) && (i <? Z.of_nat (List.length (items lb)))
  then {| items := items lb; selection := insert_sorted i (selection lb) |}
  else lb.

(** What Tk guarantees of a selection over [n] lines: increasing indices
    of existing lines. *)
Definition selection_ok (n : nat) (sel : list Z) : Prop :=
  StronglySorted Z.lt sel /\ Forall (fun i => 0 <= i < Z.of_nat n) sel.

End Tk.

(* ------------------------------------------------------------------ *)
(** * The window: the list of images and its buttons *)

(** Lines 160-261: the handlers of "Select Images", "Add More", "Clear",
    "Remove Selected", "Move Up" and "Move Down".  The window is the
    converter of [App] together with its listbox. *)
Module Gui.

Record Window : Type := mkWindow {
  app : App.State;
  selected_images_listbox : Tk.Listbox
}.

Definition image_paths (w : Window) : list string := App.image_paths (app w).

Definition with_listbox (lb : Tk.Listbox) (w : Window) : Window :=
  {| app := app w; selected_images_listbox := lb |}.

Definition with_app (a : App.State) (w : Window) : Window :=
  {| app := a; selected_images_listbox := selected_images_listbox w |}.

(** [self.image_paths = l], and the in-place updates of the list. *)
Definition with_paths (l : list string) (w : Window) : Window :=
  with_app
    {| App.image_paths := l;
       App.output_pdf_name := App.output_pdf_name (app w);
       App.status_text := App.status_text (app w);
       App.pdf := App.pdf (app w);
       App.disk := App.disk (app w);
       App.log := App.log (app w) |} w.

(** ** Statements *)

Definition M (A : Type) : Type := Window -> Res A * Window.

Definition ret {A} (a : A) : M A := fun w => (Ok a, w).

Definition bind {A B} (c : M A) (k : A -> M B) : M B :=
  fun w =>
    match c w with
    | (Ok a, w') => k a w'
    | (Raise e, w') => (Raise e, w')
    end.

Declare Scope gui_scope.
Delimit Scope gui_scope with gui.
Notation "c ;; k" := (bind c (fun _ => k))
  (at level 61, right associativity) : gui_scope.
Local Open Scope gui_scope.

(** [for x in xs: body(x)] *)
Fixpoint for_each {A} (xs : list A) (body : A -> M unit) : M unit :=
  match xs with
  | [] => ret tt
  | x :: xs' => body x ;; for_each xs' body
  end.

(** A statement of the converter that cannot raise. *)
Definition on_app (f : App.State -> App.State) : M unit :=
  fun w => (Ok tt, with_app (f (app w)) w).

(** [self.status_text.set(s)] *)
Definition set_status (s : string) : M unit :=
  on_app (fun st => snd (App.set_status s st)).

(** [messagebox.showwarning(title, message)] *)
Definition showwarning (title message : string) : M unit :=
  on_app (fun st => snd (App.emit (App.showwarning title message) st)).

Definition on_listbox (f : Tk.Listbox -> Tk.Listbox) : M unit :=
  fun w => (Ok tt, with_listbox (f (selected_images_listbox w)) w).

(** The status line of lines 172, 190 and 223. *)
Definition count_text (verb : string) (w : Window) : string :=
  verb ++ " " ++ Py.str (Z.of_nat (List.length (image_paths w))) ++ " image(s).".

Section WithEnv.
Variable env : App.Env.

(** ** Lines 195-201 *)
Definition update_selected_images_listbox : M unit :=
  on_listbox Tk.delete_all ;;
  fun w =>
    for_each (image_paths w)
      (fun full_path =>
         let filename := App.basename env full_path in
         on_listbox (Tk.insert_end filename)) w.

(** ** Lines 160-172; [paths] is what the file dialog returns *)
Definition select_images (paths : list string) : M unit :=
  match paths with
  | [] => ret tt
  | _ :: _ =>
      (fun w => (Ok tt, with_paths paths w)) ;;
      update_selected_images_listbox ;;
      fun w => set_status (count_text "Selected" w) w
  end.

(** ** Lines 174-190 *)
Definition add_images (paths : list string) : M unit :=
  match paths with
  | [] => ret tt
  | _ :: _ =>
      for_each paths
        (fun p w =>
           if negb (Py.contains p (image_paths w))
           then (Ok tt, with_paths (image_paths w ++ [p])%list w)
           else (Ok tt, w)) ;;
      update_selected_images_listbox ;;
      fun w => set_status (count_text "Selected" w) w
  end.

(** ** Lines 203-208 *)
Definition clear_list : M unit :=
  (fun w => (Ok tt, with_paths [] w)) ;;
  update_selected_images_listbox ;;
  set_status "Cleared list.".

(** [del self.image_paths[idx]] *)
Definition del_path (idx : Z) : M unit :=
  fun w =>
    match PyList.delitem (image_paths w) idx with
    | Ok l => (Ok tt, with_paths l w)
    | Raise e => (Raise e, w)
    end.

(** ** Lines 210-223 *)
Definition remove_selected : M unit :=
  fun w =>
    let selected := Tk.curselection (selected_images_listbox w) in
    match selected with
    | [] =>
        showwarning "Nothing selected" "Select one or more images to remove." w
    | _ :: _ =>
        (for_each (rev selected) del_path ;;
         update_selected_images_listbox ;;
         fun w => set_status (count_text "Remaining" w) w) w
    end.

(** [self.image_paths[i], self.image_paths[j]
     = self.image_paths[j], self.image_paths[i]] *)
Definition swap_paths (i j : Z) : M unit :=
  fun w =>
    match PyList.swap (image_paths w) i j with
    | Ok l => (Ok tt, with_paths l w)
    | Raise e => (Raise e, w)
    end.

(** ** Lines 225-242 *)
Definition move_up : M unit :=
  fun w =>
    let selected := Tk.curselection (selected_images_listbox w) in
    match selected with
    | [] => (Ok tt, w)
    | first :: _ =>
        if first =? 0 then (Ok tt, w)
        else
          (for_each selected (fun idx => swap_paths (idx - 1) idx) ;;
           update_selected_images_listbox ;;
           for_each (map (fun i => i - 1) selected)
             (fun idx => on_listbox (Tk.selection_set idx))) w
    end.

(** ** Lines 244-261 *)
Definition move_down : M unit :=
  fun w =>
    let selected := Tk.curselection (selected_images_listbox w) in
    match selected with
    | [] => (Ok tt, w)
    | _ :: _ =>
        if last selected 0 =? Z.of_nat (List.length (image_paths w)) - 1
        then (Ok tt, w)
        else
          (for_each (rev selected) (fun idx => swap_paths (idx + 1) idx) ;;
           update_selected_images_listbox ;;
           for_each (map (fun i => i + 1) selected)
             (fun idx => on_listbox (Tk.selection_set idx))) w
    end.

(** ** Line 149: the "Convert to PDF" button *)
Definition convert_images_to_pdf : M unit :=
  fun w =>
    let r := App.convert_images_to_pdf env (app w) in
    (fst r, with_app (snd r) w).

(** The listbox shows the file names of the stored paths, in order. *)
Definition in_step (w : Window) : Prop :=
  Tk.items (selected_images_listbox w) = map (App.basename env) (image_paths w).

End WithEnv.

(** The selection of the listbox is one Tk can return. *)
Definition selection_ok (w : Window) : Prop :=
  Tk.selection_ok (List.length (Tk.items (selected_images_listbox w)))
                  (Tk.selection (selected_images_listbox w)).

(** The paths left when the positions in [sel] are taken out, [i] being
    the position of the head of the list. *)
Fixpoint unselected {A : Type} (sel : list Z) (i : Z) (l : list A) : list A :=
  match l with
  | [] => []
  | a :: l' =>
      if existsb (Z.eqb i) sel then unselected sel (i + 1) l'
      else a :: unselected sel (i + 1) l'
  end.

(** Exchanging positions [k] and [k + 1]. *)
Fixpoint transpose {A : Type} (k : nat) (l : list A) : list A :=
  match k, l with
  | O, a :: b :: l' => b :: a :: l'
  | S k', a :: l' => a :: transpose k' l'
  | _, _ => l
  end.

End Gui.

(* ------------------------------------------------------------------ *)
(** * A window to press the buttons of *)

Module Desk.

(** [os.path.basename] on POSIX paths: what follows the last slash. *)
Fixpoint basename (s : string) : string :=
  match s with
  | EmptyString => EmptyString
  | String c s' =>
      if (c =? "/")%char then basename s'
      else if existsb (Ascii.eqb "/") (list_ascii_of_string s') then basename s'
      else s
  end.

Definition env : App.Env :=
  {| App.Image_open := App.Image_open Sample.env;
     App.exif_transpose := App.exif_transpose Sample.env;
     App.asksaveasfilename := App.asksaveasfilename Sample.env;
     App.basename := basename;
     App.save_error := App.save_error Sample.env |}.

(** The same world with a destination that cannot be written. *)
Definition env_readonly : App.Env :=
  {| App.Image_open := App.Image_open Sample.env;
     App.exif_transpose := App.exif_transpose Sample.env;
     App.asksaveasfilename := App.asksaveasfilename Sample.env;
     App.basename := basename;
     App.save_error :=
       fun p => Some (Exn "PermissionError" ("[Errno 13] Permission denied: " ++ p)) |}.

(** The window holding [paths], with the lines [sel] selected. *)
Definition window (paths : list string) (sel : list Z) : Gui.Window :=
  {| Gui.app := Sample.selected paths;
     Gui.selected_images_listbox :=
       {| Tk.items := map basename paths; Tk.selection := sel |} |}.

Definition four : list string :=
  ["/img/wide.png"; "/img/tall.png"; "/img/square.png"; "/img/thin.png"].

End Desk.

(* ------------------------------------------------------------------ *)
(** * What the user reads: status lines and proposed names *)

Module Shown.

(** The texts the status line was set to, in order. *)
Definition statuses (l : list App.event) : list string :=
  flat_map (fun e => match e with App.status_set s => [s] | _ => [] end) l.

(** The progress line of line 293 for the [i]-th of [total] images. *)
Definition processing (env : App.Env) (total : Z) (ip : Z * string) : string :=
  "Processing " ++ Py.str (fst ip) ++ "/" ++ Py.str total ++ ": "
  ++ App.basename env (snd ip).

(** [enumerate(xs, start=1)] *)
Definition enumerate1 {A : Type} (xs : list A) : list (Z * A) :=
  combine (map Z.of_nat (seq 1 (List.length xs))) xs.

(** A string of white space only. *)
Definition blank (s : string) : Prop :=
  Forall (fun c => Py.isspace c = true) (list_ascii_of_string s).

(** A string of ASCII characters: every code is below 128.  On such a
    string [Py.strip] is [str.strip]; Python also removes the white space
    that lies outside ASCII. *)
Definition ascii_only (s : string) : Prop :=
  Forall (fun c => (nat_of_ascii c < 128)%nat) (list_ascii_of_string s).

End Shown.

(* ------------------------------------------------------------------ *)
(** * A session: the window from its creation on *)

Module Session.
Import Gui.

(** Lines 37-56: the window as the constructor leaves it. *)
Definition init : Window :=
  {| app := {| App.image_paths := [];
               App.output_pdf_name := EmptyString;
               App.status_text := "Ready";
               App.pdf := None;
               App.disk := [];
               App.log := [] |};
     selected_images_listbox := {| Tk.items := []; Tk.selection := [] |} |}.

(** The buttons of lines 77-149, the two that open a file dialog with
    the answer the user gives. *)
Inductive button : Type :=
| SelectImages (answer : list string)
| AddMore (answer : list string)
| Clear
| MoveUp
| MoveDown
| RemoveSelected
| ConvertToPDF.

(** The [command] bound to each button. *)
Definition press (env : App.Env) (b : button) : M unit :=
  match b with
  | SelectImages answer => select_images env answer
  | AddMore answer => add_images env answer
  | Clear => clear_list env
  | MoveUp => move_up env
  | MoveDown => move_down env
  | RemoveSelected => remove_selected env
  | ConvertToPDF => convert_images_to_pdf env
  end.

(** The user types in the name entry. *)
Definition with_name (name : string) (w : Window) : Window :=
  with_app
    {| App.image_paths := App.image_paths (app w);
       App.output_pdf_name := name;
       App.status_text := App.status_text (app w);
       App.pdf := App.pdf (app w);
       App.disk := App.disk (app w);
       App.log := App.log (app w) |} w.

(** The user changes the selection in the listbox. *)
Definition with_selection (sel : list Z) (w : Window) : Window :=
  with_listbox
    {| Tk.items := Tk.items (selected_images_listbox w); Tk.selection := sel |} w.

(** The windows a session can show: the user presses buttons, selects
    lines of the listbox and edits the name. *)
Inductive reachable (env : App.Env) : Window -> Prop :=
| reach_init : reachable env init
| reach_press (b : button) (w : Window) :
    reachable env w -> reachable env (snd (press env b w))
| reach_select (sel : list Z) (w : Window) :
    reachable env w ->
    Tk.selection_ok (List.length (Tk.items (selected_images_listbox w))) sel ->
    reachable env (with_selection sel w)
| reach_type (name : string) (w : Window) :
    reachable env w -> reachable env (with_name name w).

End Session.

(* ------------------------------------------------------------------ *)
(** * Binary64 arithmetic *)

(** What the operations of [SpecFloat] compute on positive normal
    numbers: the exact result, rounded to nearest with ties to even. *)
Module Rounding.

Local Abbreviation prec := F64.prec.
Local Abbreviation emax := F64.emax.
Local Abbreviation bpow := F64.bpow.
Local Abbreviation to_R := F64.to_R.
Local Abbreviation normal := F64.normal.
Local Abbreviation nice := F64.nice.
Local Abbreviation located := F64.located.
Local Abbreviation located_rec := F64.located_rec.
Local Abbreviation rounds := F64.rounds.

(** ** Powers of two *)

Lemma bpow_pos (e : Z) : (0 < bpow e)%R.
Proof. apply powerRZ_lt. lra. Qed.

Lemma bpow_add (a b : Z) : bpow (a + b) = (bpow a * bpow b)%R.
Proof. apply powerRZ_add. lra. Qed.

Lemma bpow_0 : bpow 0 = 1%R.
Proof. reflexivity. Qed.

Lemma bpow_1 : bpow 1 = 2%R.
Proof. unfold bpow. apply powerRZ_1. Qed.

Lemma bpow_m1 : bpow (-1) = (/ 2)%R.
Proof. unfold bpow, powerRZ. simpl. f_equal. lra. Qed.

Lemma bpow_IZR (n : Z) : 0 <= n -> bpow n = IZR (2 ^ n).
Proof.
  intros Hn. unfold bpow. rewrite <- (Z2Nat.id n Hn) at 1.
  rewrite <- pow_powerRZ. rewrite pow_IZR. now rewrite Z2Nat.id.
Qed.

Lemma bpow_sub (a b : Z) : bpow (a - b) = (bpow a / bpow b)%R.
Proof.
  replace a with ((a - b) + b) at 2 by lia. rewrite bpow_add.
  field. apply Rgt_not_eq, bpow_pos.
Qed.

Lemma bpow_opp (e : Z) : bpow (- e) = (/ bpow e)%R.
Proof.
  replace (- e) with (0 - e) by lia. rewrite bpow_sub, bpow_0.
  unfold Rdiv. ring.
Qed.

Lemma bpow_ge_2 (n : Z) : 1 <= n -> (2 <= bpow n)%R.
Proof.
  intros Hn. rewrite bpow_IZR by lia. apply IZR_le.
  replace n with (1 + (n - 1)) by lia. rewrite Z.pow_add_r by lia.
  assert (0 < 2 ^ (n - 1)) by (apply Z.pow_pos_nonneg; lia). lia.
Qed.

Lemma bpow_lt (a b : Z) : a < b -> (bpow a < bpow b)%R.
Proof.
  intros H. replace b with (a + (b - a)) by lia. rewrite bpow_add.
  pose proof (bpow_pos a). pose proof (bpow_ge_2 (b - a) ltac:(lia)). nra.
Qed.

Lemma bpow_le (a b : Z) : a <= b -> (bpow a <= bpow b)%R.
Proof.
  intros H. destruct (Z.eq_dec a b) as [-> | Hne]; [lra |].
  apply Rlt_le, bpow_lt. lia.
Qed.

Lemma bpow_lt_inv (a b : Z) : (bpow a < bpow b)%R -> a < b.
Proof.
  intros H. destruct (Z_lt_le_dec a b) as [|Hle]; [assumption |].
  apply bpow_le in Hle. lra.
Qed.

(** ** The number of binary digits *)

Lemma digits2_pos_size (m : positive) : digits2_pos m = Pos.size m.
Proof. induction m; cbn; congruence. Qed.

Lemma digits2_bounds (m : positive) :
  2 ^ (Zpos (digits2_pos m) - 1) <= Zpos m < 2 ^ Zpos (digits2_pos m).
Proof.
  rewrite digits2_pos_size. split.
  - pose proof (Pos.size_le m) as H.
    assert (Zpos (2 ^ Pos.size m) <= Zpos m~0) by (apply Pos2Z.pos_le_pos; exact H).
    rewrite Pos2Z.inj_pow in H0.
    replace (Zpos (Pos.size m)) with (1 + (Zpos (Pos.size m) - 1)) in H0 by lia.
    rewrite Z.pow_add_r in H0 by lia. lia.
  - pose proof (Pos.size_gt m) as H.
    assert (Zpos m < Zpos (2 ^ Pos.size m)) by (apply Pos2Z.pos_lt_pos; exact H).
    now rewrite Pos2Z.inj_pow in H0.
Qed.

(** ** Shifting a mantissa to the right *)

(** [shr] drops low bits one at a time and keeps, in two flags, where the
    dropped part lies with respect to the half unit. *)
Lemma iter_pos_nat {A} (f : A -> A) (n : positive) (x : A) :
  iter_pos f n x = Nat.iter (Pos.to_nat n) f x.
Proof.
  revert x. induction n as [n IH | n IH |]; intros x; cbn [iter_pos].
  - rewrite !IH. rewrite Pos2Nat.inj_xI.
    replace (S (2 * Pos.to_nat n))%nat with (Pos.to_nat n + (Pos.to_nat n + 1))%nat by lia.
    rewrite !Nat.iter_add. reflexivity.
  - rewrite !IH. rewrite Pos2Nat.inj_xO.
    replace (2 * Pos.to_nat n)%nat with (Pos.to_nat n + Pos.to_nat n)%nat by lia.
    rewrite Nat.iter_add. reflexivity.
  - reflexivity.
Qed.

Lemma located_bounds (m : Z) (l : location) (u : R) :
  located m l u -> (IZR m <= u < IZR m + 1)%R.
Proof. destruct l as [| []]; cbn; intros H; lra. Qed.

Lemma located_rec_of_loc (m : Z) (l : location) (u : R) :
  located m l u -> located_rec (shr_record_of_loc m l) u.
Proof. destruct l as [| []]; exact (fun H => H). Qed.

Lemma IZR_xO (p : positive) : IZR (Zpos p~0) = (2 * IZR (Zpos p))%R.
Proof. rewrite Pos2Z.inj_xO, mult_IZR. reflexivity. Qed.

Lemma IZR_xI (p : positive) : IZR (Zpos p~1) = (2 * IZR (Zpos p) + 1)%R.
Proof. rewrite Pos2Z.inj_xI, plus_IZR, mult_IZR. reflexivity. Qed.

Lemma shr_1_located (mrs : shr_record) (u : R) :
  0 <= shr_m mrs -> located_rec mrs u ->
  0 <= shr_m (shr_1 mrs) /\ located_rec (shr_1 mrs) (u / 2).
Proof.
  destruct mrs as [m r s]. unfold located_rec. cbn [shr_m].
  intros Hm H. destruct m as [| p | p]; [| | lia].
  - destruct r, s; cbn in *; split; try lia; lra.
  - destruct p as [p | p |]; destruct r, s; cbn [shr_1 orb shr_m loc_of_shr_record located] in *;
      try rewrite (IZR_xO p) in H; try rewrite (IZR_xI p) in H; split; try lia; lra.
Qed.

Lemma iter_shr_1_located (n : nat) (mrs : shr_record) (u : R) :
  0 <= shr_m mrs -> located_rec mrs u ->
  0 <= shr_m (Nat.iter n shr_1 mrs)
  /\ located_rec (Nat.iter n shr_1 mrs) (u / bpow (Z.of_nat n)).
Proof.
  intros Hm H. induction n as [| n [IH1 IH2]].
  - cbn [Nat.iter Z.of_nat]. rewrite bpow_0. split; [assumption |]. now replace (u / 1)%R with u by field.
  - cbn [Nat.iter]. destruct (shr_1_located _ _ IH1 IH2) as [H1 H2]. split; [assumption |].
    replace (u / bpow (Z.of_nat (S n)))%R with (u / bpow (Z.of_nat n) / 2)%R; [assumption |].
    rewrite Nat2Z.inj_succ. unfold Z.succ. rewrite bpow_add, bpow_1. field.
    apply Rgt_not_eq, bpow_pos.
Qed.

Lemma shr_located (m : Z) (l : location) (e n : Z) (u : R) :
  0 <= m -> located m l u ->
  let r := shr (shr_record_of_loc m l) e n in
  0 <= shr_m (fst r)
  /\ snd r = e + Z.max n 0
  /\ located_rec (fst r) (u / bpow (Z.max n 0)).
Proof.
  intros Hm H. cbn zeta. unfold shr. destruct n as [| p | p].
  - cbn [fst snd]. change (Z.max 0 0) with 0. rewrite bpow_0. replace (u / 1)%R with u by field.
    replace (shr_m (shr_record_of_loc m l)) with m by (destruct l as [| []]; reflexivity).
    repeat split; [assumption | lia | now apply located_rec_of_loc].
  - cbn [fst snd]. rewrite iter_pos_nat.
    assert (Hm' : 0 <= shr_m (shr_record_of_loc m l)) by (destruct l as [| []]; exact Hm).
    destruct (iter_shr_1_located (Pos.to_nat p) _ u Hm' (located_rec_of_loc _ _ _ H)) as [H1 H2].
    rewrite positive_nat_Z in H2.
    replace (Z.max (Zpos p) 0) with (Zpos p) by lia.
    repeat split; [assumption | assumption].
  - cbn [fst snd]. replace (Z.max (Zneg p) 0) with 0 by lia.
    rewrite bpow_0. replace (u / 1)%R with u by field.
    replace (shr_m (shr_record_of_loc m l)) with m by (destruct l as [| []]; reflexivity).
    repeat split; [assumption | lia | now apply located_rec_of_loc].
Qed.

(** ** Rounding the shifted mantissa *)

Lemma round_nearest_even_spec (m : Z) (l : location) (u : R) :
  located m l u ->
  let m' := round_nearest_even m l in
  (m' = m \/ m' = m + 1)
  /\ (Rabs (IZR m' - u) <= / 2)%R.
Proof.
  intros H. cbn zeta. destruct l as [| []]; cbn [located round_nearest_even] in *.
  - split; [now left |]. subst u. rewrite Rminus_diag, Rabs_R0. lra.
  - destruct (Z.even m); [split; [now left |] | split; [now right |]].
    + subst u. apply Rabs_le. lra.
    + subst u. rewrite plus_IZR. apply Rabs_le. lra.
  - split; [now left |]. apply Rabs_le. lra.
  - split; [now right |]. rewrite plus_IZR. apply Rabs_le. lra.
Qed.

Lemma fexp_normal (e : Z) : -1021 <= e -> fexp prec emax e = e - 53.
Proof. unfold fexp, emin, prec, emax. lia. Qed.

Lemma digits2_unique (p : positive) (k : Z) :
  2 ^ (k - 1) <= Zpos p < 2 ^ k -> Zpos (digits2_pos p) = k.
Proof.
  intros [H1 H2]. destruct (digits2_bounds p) as [B1 B2].
  set (d := Zpos (digits2_pos p)) in *.
  assert (0 < d) by (unfold d; lia).
  assert (0 < k).
  { destruct (Z_lt_le_dec 0 k); [assumption |].
    rewrite (Z.pow_neg_r 2 (k - 1)) in H1 by lia.
    destruct (Z.eq_dec k 0) as [-> |]; [cbn in H2; lia |].
    rewrite Z.pow_neg_r in H2 by lia. lia. }
  assert (~ d < k).
  { intros Hlt. assert (2 ^ d <= 2 ^ (k - 1)) by (apply Z.pow_le_mono_r; lia). lia. }
  assert (~ k < d).
  { intros Hlt. assert (2 ^ k <= 2 ^ (d - 1)) by (apply Z.pow_le_mono_r; lia). lia. }
  lia.
Qed.

Lemma shr_fexp_noshift (m e : Z) (l : location) :
  fexp prec emax (Zdigits2 m + e) - e <= 0 ->
  shr_fexp prec emax m e l = (shr_record_of_loc m l, e).
Proof.
  intros H. unfold shr_fexp, shr.
  destruct (fexp prec emax (Zdigits2 m + e) - e); [reflexivity | lia | reflexivity].
Qed.

Lemma shr_m_of_loc (m : Z) (l : location) : shr_m (shr_record_of_loc m l) = m.
Proof. destruct l as [| []]; reflexivity. Qed.

Lemma loc_of_loc (m : Z) (l : location) :
  loc_of_shr_record (shr_record_of_loc m l) = l.
Proof. destruct l as [| []]; reflexivity. Qed.

(** Shifting a mantissa of at least 53 digits down to 53 digits. *)
Lemma shr_fexp_spec (p : positive) (e : Z) (l : location) (u : R) :
  let d := Zpos (digits2_pos p) in
  53 <= d -> -1021 <= d + e ->
  located (Zpos p) l u ->
  let r := shr_fexp prec emax (Zpos p) e l in
  snd r = e + (d - 53)
  /\ 2 ^ 52 <= shr_m (fst r) < 2 ^ 53
  /\ located_rec (fst r) (u / bpow (d - 53)).
Proof.
  intros d Hd He Hu. cbn zeta. unfold shr_fexp. cbn [Zdigits2]. fold d.
  rewrite (fexp_normal (d + e) He).
  replace (d + e - 53 - e) with (d - 53) by lia.
  destruct (shr_located (Zpos p) l e (d - 53) u ltac:(lia) Hu) as (_ & H2 & H3).
  replace (Z.max (d - 53) 0) with (d - 53) in * by lia.
  split; [exact H2 |]. split; [| exact H3].
  apply located_bounds in H3. apply located_bounds in Hu.
  destruct (digits2_bounds p) as [B1 B2]. fold d in B1, B2.
  apply IZR_le in B1. apply IZR_lt in B2.
  rewrite <- bpow_IZR in B1, B2 by lia.
  assert (Hn := bpow_pos (d - 53)).
  assert (E1 : bpow (d - 1) = (bpow 52 * bpow (d - 53))%R)
    by (rewrite <- bpow_add; f_equal; lia).
  assert (E2 : bpow d = (bpow 53 * bpow (d - 53))%R)
    by (rewrite <- bpow_add; f_equal; lia).
  set (u' := (u / bpow (d - 53))%R) in *.
  assert (Eu : u = (u' * bpow (d - 53))%R) by (unfold u'; field; lra).
  assert (L1 : (bpow 52 <= u')%R) by nra.
  assert (L2 : (u' < bpow 53)%R).
  { assert (IZR (Zpos p) + 1 <= bpow d)%R.
    { rewrite (bpow_IZR d) by lia. rewrite <- plus_IZR. apply IZR_le.
      destruct (digits2_bounds p). fold d in H0. lia. }
    nra. }
  rewrite (bpow_IZR 52) in L1 by lia. rewrite (bpow_IZR 53) in L2 by lia.
  split.
  - apply Z.lt_succ_r. apply lt_IZR. unfold Z.succ. rewrite plus_IZR. lra.
  - apply lt_IZR. lra.
Qed.

(** [binary_round_aux] rounds [u * 2^ex], where [u] is the real that the
    mantissa [p] and the location [lx] stand for. *)
Lemma binary_round_aux_spec (p : positive) (ex : Z) (lx : location) (u : R) :
  let d := Zpos (digits2_pos p) in
  53 <= d -> -1021 <= d + ex -> d + ex <= 1023 ->
  located (Zpos p) lx u ->
  rounds (u * bpow ex) (binary_round_aux prec emax false (Zpos p) ex lx).
Proof.
  intros d Hd Hlo Hhi Hu.
  destruct (shr_fexp_spec p ex lx u Hd Hlo Hu) as (S1 & S2 & S3). fold d in S1, S3.
  unfold binary_round_aux.
  destruct (shr_fexp prec emax (Zpos p) ex lx) as [mrs' e'].
  cbn [fst snd] in S1, S2, S3. unfold located_rec in S3.
  set (m1 := shr_m mrs') in *. set (l1 := loc_of_shr_record mrs') in *.
  destruct (round_nearest_even_spec m1 l1 _ S3) as [Hm2 _].
  set (m2 := round_nearest_even m1 l1) in *.
  assert (Hv : (u * bpow ex / bpow e' = u / bpow (d - 53))%R).
  { rewrite S1, bpow_add. field.
    split; apply Rgt_not_eq, bpow_pos. }
  destruct (Z.eq_dec m2 (2 ^ 53)) as [Hc | Hc].
  - (* the rounded mantissa is 2^53: one more shift *)
    rewrite Hc. 
    assert (Hs : shr_fexp prec emax (2 ^ 53) e' loc_Exact
                 = ({| shr_m := 2 ^ 52; shr_r := false; shr_s := false |}, e' + 1)).
    { unfold shr_fexp. change (Zdigits2 (2 ^ 53)) with 54.
      rewrite fexp_normal by lia.
      replace (54 + e' - 53 - e') with 1 by lia. reflexivity. }
    rewrite Hs. cbn [shr_m]. change (2 ^ 52) with (Zpos (2 ^ 52)).
    cbn match. 
    assert (Hle : (e' + 1 <=? emax - prec) = true)
      by (apply Z.leb_le; unfold emax, prec; lia).
    rewrite Hle.
    exists m1, l1, e', (2 ^ 52)%positive, (e' + 1).
    rewrite Hv. repeat split; try assumption; try lia.
    fold m2. rewrite Hc, bpow_add, bpow_1.
    change (Zpos (2 ^ 52)) with (2 ^ 52). change (2 ^ 53) with (2 * 2 ^ 52).
    rewrite mult_IZR. lra.
  - assert (Hb : 2 ^ 52 <= m2 < 2 ^ 53) by lia.
    destruct m2 as [| q | q] eqn:Em2; [lia | | lia].
    assert (Hdq : Zpos (digits2_pos q) = 53) by (apply digits2_unique; exact Hb).
    rewrite shr_fexp_noshift
      by (cbn [Zdigits2]; rewrite Hdq, fexp_normal by lia; lia).
    cbn [shr_m shr_record_of_loc].
    assert (Hle : (e' <=? emax - prec) = true)
      by (apply Z.leb_le; unfold emax, prec; lia).
    rewrite Hle.
    exists m1, l1, e', q, e'.
    rewrite Hv. repeat split; try assumption; try lia.
    fold m2. now rewrite Em2.
Qed.

Lemma Rabs_bounds (a b : R) : (Rabs a <= b)%R -> (- b <= a <= b)%R.
Proof. unfold Rabs. destruct (Rcase_abs a); lra. Qed.

Lemma IZR_near (a b : Z) : (Rabs (IZR a - IZR b) < 1)%R -> a = b.
Proof.
  intros H. apply Rabs_def2 in H. destruct H as [H1 H2].
  assert (-1 < a - b) by (apply lt_IZR; rewrite minus_IZR; lra).
  assert (a - b < 1) by (apply lt_IZR; rewrite minus_IZR; lra).
  lia.
Qed.

Lemma IZR_between (a b : Z) : (IZR b - 1 < IZR a < IZR b + 1)%R -> a = b.
Proof. intros [H1 H2]. apply IZR_near. apply Rabs_def1; lra. Qed.

Lemma rounds_normal (v : R) (x : spec_float) : rounds v x -> normal x.
Proof. intros (m1 & l1 & e1 & m & e & _ & _ & -> & Hm & _). exact Hm. Qed.

Lemma rounds_pos (v : R) (x : spec_float) : rounds v x -> (0 < v)%R.
Proof.
  intros (m1 & l1 & e1 & m & e & Hm1 & Hloc & _).
  apply located_bounds in Hloc. destruct Hloc as [Hl _].
  assert (0 < IZR m1)%R by (apply IZR_lt; lia).
  pose proof (bpow_pos e1) as He.
  assert (v = v / bpow e1 * bpow e1)%R by (field; lra). nra.
Qed.

(** The standard model: the relative error of a rounding is at most
    [2^-53]. *)
Lemma rounds_error (v : R) (x : spec_float) :
  rounds v x -> (Rabs (to_R x - v) <= v * bpow (-53))%R.
Proof.
  intros (m1 & l1 & e1 & m & e & Hm1 & Hloc & -> & Hm & Hval).
  cbn [to_R]. rewrite Rmult_1_l, Hval.
  destruct (round_nearest_even_spec m1 l1 _ Hloc) as [_ Herr].
  apply located_bounds in Hloc. destruct Hloc as [Hl _].
  set (u := (v / bpow e1)%R) in *. set (m2 := round_nearest_even m1 l1) in *.
  pose proof (bpow_pos e1) as He.
  assert (Ev : v = (u * bpow e1)%R) by (unfold u; field; lra).
  assert (H52 : (IZR (2 ^ 52) <= IZR m1)%R) by (apply IZR_le; lia).
  rewrite <- bpow_IZR in H52 by lia.
  assert (E53 : (bpow 52 * bpow (-53) = / 2)%R).
  { rewrite <- bpow_add. change (52 + -53) with (-1). apply bpow_m1. }
  pose proof (bpow_pos (-53)) as H53.
  apply Rabs_bounds in Herr. destruct Herr as [Herr1 Herr2].
  assert (K : (/ 2 <= u * bpow (-53))%R) by nra.
  rewrite Ev. replace (u * bpow e1 * bpow (-53))%R with (u * bpow (-53) * bpow e1)%R by ring.
  set (w := (u * bpow (-53))%R) in *.
  apply Rabs_le. split; nra.
Qed.

Lemma normal_unique (m m' : positive) (e e' : Z) :
  2 ^ 52 <= Zpos m < 2 ^ 53 -> 2 ^ 52 <= Zpos m' < 2 ^ 53 ->
  (IZR (Zpos m) * bpow e = IZR (Zpos m') * bpow e')%R ->
  m = m' /\ e = e'.
Proof.
  intros [A1 A2] [B1 B2] H.
  apply IZR_le in A1, B1. apply IZR_lt in A2, B2.
  pose proof (bpow_pos e) as He. pose proof (bpow_pos e') as He'.
  assert (Hee : e = e').
  { destruct (Z.lt_trichotomy e e') as [Hlt | [Heq | Hgt]]; [| exact Heq |]; exfalso.
    - assert (Hs : (2 * bpow e <= bpow e')%R).
      { rewrite <- bpow_1, <- bpow_add. apply bpow_le. lia. }
      change (2 ^ 53) with (2 * 2 ^ 52) in A2. rewrite mult_IZR in A2. nra.
    - assert (Hs : (2 * bpow e' <= bpow e)%R).
      { rewrite <- bpow_1, <- bpow_add. apply bpow_le. lia. }
      change (2 ^ 53) with (2 * 2 ^ 52) in B2. rewrite mult_IZR in B2. nra. }
  subst e'. split; [| reflexivity].
  apply Rmult_eq_reg_r in H; [| lra]. apply eq_IZR in H. congruence.
Qed.

(** A rounding of [v] lands on the 53-bit number [M * 2^ec] as soon as [v]
    lies in its binade and within half a unit of it, the tie going to the
    even mantissa. *)
Lemma rounds_to (v : R) (x : spec_float) (M ec : Z) :
  rounds v x ->
  2 ^ 52 <= M < 2 ^ 53 ->
  (bpow 52 * bpow ec <= v < bpow 53 * bpow ec)%R ->
  (Rabs (v / bpow ec - IZR M) < / 2
   \/ (Rabs (v / bpow ec - IZR M) = / 2 /\ Z.even M = true))%R ->
  x = S754_finite false (Z.to_pos M) ec.
Proof.
  intros (m1 & l1 & e1 & m & e & Hm1 & Hloc & -> & Hm & Hval) HM Hbin Hnear.
  pose proof (bpow_pos e1) as He1. pose proof (bpow_pos ec) as Hec.
  assert (Hee : e1 = ec).
  { pose proof (located_bounds _ _ _ Hloc) as [Hl Hu].
    assert (Ev : v = (v / bpow e1 * bpow e1)%R) by (field; lra).
    assert (L1 : (bpow 52 <= IZR m1)%R)
      by (rewrite bpow_IZR by lia; apply IZR_le; lia).
    assert (L2 : (IZR m1 + 1 <= bpow 53)%R)
      by (rewrite bpow_IZR, <- plus_IZR by lia; apply IZR_le; lia).
    assert (B53 : bpow 53 = (2 * bpow 52)%R)
      by (rewrite <- bpow_1, <- bpow_add; reflexivity).
    pose proof (bpow_pos 52) as H52.
    destruct (Z.lt_trichotomy e1 ec) as [Hlt | [Heq | Hgt]]; [| exact Heq |]; exfalso.
    - assert (Hs : (2 * bpow e1 <= bpow ec)%R).
      { rewrite <- bpow_1, <- bpow_add. apply bpow_le. lia. }
      nra.
    - assert (Hs : (2 * bpow ec <= bpow e1)%R).
      { rewrite <- bpow_1, <- bpow_add. apply bpow_le. lia. }
      nra. }
  subst e1. set (u := (v / bpow ec)%R) in *.
  assert (Hr : round_nearest_even m1 l1 = M).
  { destruct l1 as [| []]; cbn [located round_nearest_even] in *.
    - apply IZR_near. rewrite <- Hloc. destruct Hnear as [H | [H _]]; lra.
    - destruct Hnear as [H | [H Hev]].
      + exfalso. apply Rabs_def2 in H.
        assert (m1 = M - 1 \/ m1 = M) as [E | E].
        { assert (m1 + 1 = M \/ m1 = M); [| lia].
          destruct (Z.eq_dec m1 M); [now right | left].
          apply IZR_between. rewrite plus_IZR. lra. }
        * subst m1. rewrite minus_IZR in Hloc. lra.
        * subst m1. lra.
      + destruct (Rcase_abs (u - IZR M)) as [Hneg | Hpos].
        * rewrite (Rabs_left _ Hneg) in H.
          assert (E : m1 + 1 = M)
            by (apply IZR_between; rewrite plus_IZR; lra).
          replace m1 with (M - 1) by lia.
          rewrite Z.even_sub, Hev. cbn. lia.
        * rewrite (Rabs_right _ Hpos) in H.
          assert (E : m1 = M) by (apply IZR_between; lra).
          subst m1. now rewrite Hev.
    - apply IZR_between. destruct Hnear as [H | [H _]];
        [apply Rabs_def2 in H | apply Req_le, Rabs_bounds in H]; lra.
    - assert (E : m1 + 1 = M).
      { apply IZR_between. rewrite plus_IZR. destruct Hnear as [H | [H _]];
          [apply Rabs_def2 in H | apply Req_le, Rabs_bounds in H]; lra. }
      exact E. }
  rewrite Hr in Hval.
  assert (HM' : M = Zpos (Z.to_pos M)) by (rewrite Z2Pos.id; lia).
  rewrite HM' in Hval.
  destruct (normal_unique m (Z.to_pos M) e ec Hm ltac:(rewrite <- HM'; exact HM) Hval)
    as [-> ->].
  reflexivity.
Qed.

(** A 53-bit number is its own rounding. *)
Lemma rounds_exact (v : R) (x : spec_float) (M ec : Z) :
  rounds v x ->
  2 ^ 52 <= M < 2 ^ 53 ->
  v = (IZR M * bpow ec)%R ->
  x = S754_finite false (Z.to_pos M) ec.
Proof.
  intros Hr HM Hv. apply (rounds_to v x M ec Hr HM).
  - pose proof (bpow_pos ec).
    assert (bpow 52 <= IZR M)%R by (rewrite bpow_IZR by lia; apply IZR_le; lia).
    assert (IZR M < bpow 53)%R by (rewrite bpow_IZR by lia; apply IZR_lt; lia).
    subst v. nra.
  - left. subst v. pose proof (bpow_pos ec).
    replace (IZR M * bpow ec / bpow ec - IZR M)%R with 0%R by (field; lra).
    rewrite Rabs_R0. lra.
Qed.

Lemma iter_xO (d m : positive) : Zpos (Pos.iter xO m d) = Zpos m * 2 ^ Zpos d.
Proof.
  induction d as [| d IH] using Pos.peano_ind.
  - cbn [Pos.iter]. rewrite Pos2Z.inj_xO. change (2 ^ 1) with 2. lia.
  - rewrite Pos.iter_succ, Pos2Z.inj_xO, IH, Pos2Z.inj_succ, Z.pow_succ_r by lia. lia.
Qed.

Lemma shl_align_spec (mx : positive) (ex ex' : Z) :
  let r := shl_align mx ex ex' in
  snd r = Z.min ex ex'
  /\ Zpos (fst r) = Zpos mx * 2 ^ (ex - Z.min ex ex').
Proof.
  cbn zeta. unfold shl_align. destruct (ex' - ex) as [| d | d] eqn:E; cbn [fst snd].
  - replace (Z.min ex ex') with ex by lia. rewrite Z.sub_diag. cbn. lia.
  - replace (Z.min ex ex') with ex by lia. rewrite Z.sub_diag. cbn. lia.
  - replace (Z.min ex ex') with ex' by lia. split; [reflexivity |].
    rewrite iter_xO. f_equal. f_equal. lia.
Qed.

Lemma located_exact (m : Z) : located m loc_Exact (IZR m).
Proof. reflexivity. Qed.

(** [binary_round] rounds [p * 2^e]. *)
Lemma binary_round_spec (p : positive) (e : Z) :
  let d := Zpos (digits2_pos p) in
  -1021 <= d + e -> d + e <= 1023 ->
  rounds (IZR (Zpos p) * bpow e) (binary_round prec emax false p e).
Proof.
  intros d Hlo Hhi. unfold binary_round. fold d.
  rewrite (fexp_normal (d + e) Hlo).
  destruct (shl_align_spec p e (d + e - 53)) as [S1 S2].
  destruct (shl_align p e (d + e - 53)) as [mz ez]. cbn [fst snd] in S1, S2.
  destruct (digits2_bounds p) as [B1 B2]. fold d in B1, B2.
  assert (0 < d) by (unfold d; lia).
  destruct (Z_le_gt_dec 53 d) as [Hd | Hd].
  - replace (Z.min e (d + e - 53)) with e in * by lia.
    rewrite Z.sub_diag in S2. change (2 ^ 0) with 1 in S2. rewrite Z.mul_1_r in S2.
    injection S2 as ->. subst ez.
    apply binary_round_aux_spec; fold d; try assumption. apply located_exact.
  - replace (Z.min e (d + e - 53)) with (d + e - 53) in * by lia.
    replace (e - (d + e - 53)) with (53 - d) in S2 by lia. subst ez.
    assert (Hmz : 2 ^ 52 <= Zpos mz < 2 ^ 53).
    { assert (E52 : 2 ^ 52 = 2 ^ (d - 1) * 2 ^ (53 - d))
        by (rewrite <- Z.pow_add_r by lia; f_equal; lia).
      assert (E53 : 2 ^ 53 = 2 ^ d * 2 ^ (53 - d))
        by (rewrite <- Z.pow_add_r by lia; f_equal; lia).
      rewrite S2, E52, E53.
      assert (0 < 2 ^ (53 - d)) by (apply Z.pow_pos_nonneg; lia). nia. }
    assert (Hdz : Zpos (digits2_pos mz) = 53) by (apply digits2_unique; exact Hmz).
    replace (IZR (Zpos p) * bpow e)%R with (IZR (Zpos mz) * bpow (d + e - 53))%R.
    + apply binary_round_aux_spec; rewrite ?Hdz; try lia. apply located_exact.
    + rewrite S2, mult_IZR, <- bpow_IZR by lia.
      rewrite Rmult_assoc, <- bpow_add. do 2 f_equal. lia.
Qed.

Lemma nice_normal (x : spec_float) : nice x -> normal x.
Proof. destruct x as [| | | [] m e]; cbn; tauto. Qed.

Lemma nice_is_pos (x : spec_float) : nice x -> F64.is_pos x = true.
Proof. destruct x as [| | | [] m e]; cbn; tauto. Qed.

Lemma nice_pos (x : spec_float) : nice x -> (0 < to_R x)%R.
Proof.
  destruct x as [| | | [] m e]; cbn; try tauto. intros [[H _] _].
  pose proof (bpow_pos e). assert (0 < IZR (Zpos m))%R by (apply IZR_lt; lia). nra.
Qed.

Lemma digits_range (p : positive) (a b : Z) :
  0 <= a -> 0 <= b -> 2 ^ a <= Zpos p < 2 ^ b ->
  a < Zpos (digits2_pos p) <= b.
Proof.
  intros Ha Hb [H1 H2]. destruct (digits2_bounds p) as [B1 B2].
  set (d := Zpos (digits2_pos p)) in *. assert (0 < d) by (unfold d; lia). split.
  - apply (Z.pow_lt_mono_r_iff 2); lia.
  - assert (d - 1 < b); [| lia]. apply (Z.pow_lt_mono_r_iff 2); lia.
Qed.

Lemma normal_exponent (m : positive) (e a b : Z) :
  2 ^ 52 <= Zpos m < 2 ^ 53 ->
  (bpow a <= IZR (Zpos m) * bpow e < bpow b)%R ->
  a - 53 < e < b - 52.
Proof.
  intros [H1 H2] [Ha Hb].
  apply IZR_le in H1. apply IZR_lt in H2. rewrite <- bpow_IZR in H1, H2 by lia.
  pose proof (bpow_pos e) as He. split.
  - assert (bpow a < bpow (53 + e))%R by (rewrite bpow_add; nra).
    apply bpow_lt_inv in H. lia.
  - assert (bpow (52 + e) < bpow b)%R by (rewrite bpow_add; nra).
    apply bpow_lt_inv in H. lia.
Qed.

Lemma rounds_nice (v : R) (x : spec_float) :
  rounds v x -> (bpow (-390) <= v <= bpow 390)%R -> nice x.
Proof.
  intros Hr [Hlo Hhi]. pose proof (rounds_error v x Hr) as Herr.
  pose proof (rounds_pos v x Hr) as Hpos.
  destruct Hr as (m1 & l1 & e1 & m & e & _ & _ & -> & Hm & _).
  cbn [nice]. split; [exact Hm |].
  cbn [to_R] in Herr. rewrite Rmult_1_l in Herr. apply Rabs_bounds in Herr.
  assert (H53 : (0 < bpow (-53) < / 2)%R).
  { split; [apply bpow_pos |]. rewrite <- bpow_m1. apply bpow_lt. lia. }
  assert (B1 : (bpow (-391) <= IZR (Zpos m) * bpow e)%R).
  { replace (-391) with (-390 + -1) by lia. rewrite bpow_add, bpow_m1. nra. }
  assert (B2 : (IZR (Zpos m) * bpow e < bpow 391)%R).
  { replace 391 with (390 + 1) by lia. rewrite bpow_add, bpow_1. nra. }
  pose proof (normal_exponent m e (-391) 391 Hm (conj B1 B2)). lia.
Qed.

(** ** Division *)

Lemma new_location_spec (nb k q : Z) :
  0 < nb -> 0 <= k < nb ->
  located q (new_location nb k) (IZR q + IZR k / IZR nb).
Proof.
  intros Hnb [Hk0 Hk1].
  assert (Hnb' : (0 < IZR nb)%R) by (apply IZR_lt; lia).
  set (t := (IZR k / IZR nb)%R).
  assert (Ht : (t * IZR nb = IZR k)%R) by (unfold t; field; lra).
  assert (Hzero : k = 0 -> t = 0%R) by (intros ->; unfold t; field; lra).
  unfold new_location.
  destruct (Z.even nb) eqn:Hev; unfold new_location_even, new_location_odd;
    destruct (Z.eqb_spec k 0) as [Hk | Hk];
    try (rewrite (Hzero Hk); cbn [located]; lra).
  - assert (Hkpos : (0 < IZR k)%R) by (apply IZR_lt; lia).
    destruct (Z.compare_spec (2 * k) nb) as [E | E | E]; cbn [located].
    + apply (f_equal IZR) in E. rewrite mult_IZR in E.
      f_equal. apply (Rmult_eq_reg_r (IZR nb)); [| lra]. rewrite Ht. lra.
    + apply IZR_lt in E. rewrite mult_IZR in E. nra.
    + apply IZR_lt in E, Hk1. rewrite mult_IZR in E. nra.
  - assert (Hkpos : (0 < IZR k)%R) by (apply IZR_lt; lia).
    assert (Hodd : 2 * k <> nb).
    { intros <-. rewrite Z.even_mul in Hev. discriminate. }
    destruct (Z.compare_spec (2 * k + 1) nb) as [E | E | E]; cbn [located].
    + assert (E' : 2 * k < nb) by lia.
      apply IZR_lt in E'. rewrite mult_IZR in E'. nra.
    + assert (E' : 2 * k < nb) by lia.
      apply IZR_lt in E'. rewrite mult_IZR in E'. nra.
    + assert (E' : nb < 2 * k) by lia.
      apply IZR_lt in E', Hk1. rewrite mult_IZR in E'. nra.
Qed.

Lemma div_rounds (x y : spec_float) :
  nice x -> nice y ->
  rounds (to_R x / to_R y) (SFdiv prec emax x y).
Proof.
  destruct x as [| | | [] mx ex]; cbn [nice]; try tauto.
  destruct y as [| | | [] my ey]; cbn [nice]; try tauto.
  intros [Hmx Hex] [Hmy Hey].
  unfold SFdiv, SFdiv_core_binary. cbn [xorb Zdigits2].
  rewrite (digits2_unique mx 53 Hmx), (digits2_unique my 53 Hmy).
  replace (53 + ex - (53 + ey)) with (ex - ey) by lia.
  rewrite fexp_normal by lia.
  replace (Z.min (ex - ey - 53) (ex - ey)) with (ex - ey - 53) by lia.
  replace (ex - ey - (ex - ey - 53)) with 53 by lia.
  rewrite Z.shiftl_mul_pow2 by lia.
  pose proof (Z_div_mod (Zpos mx * 2 ^ 53) (Zpos my) ltac:(lia)) as Hdiv.
  destruct (Z.div_eucl (Zpos mx * 2 ^ 53) (Zpos my)) as [q r].
  destruct Hdiv as [Hq Hr].
  assert (Hqb : 2 ^ 52 <= q < 2 ^ 54) by nia.
  destruct q as [| pq | pq]; [lia | | lia].
  pose proof (digits_range pq 52 54 ltac:(lia) ltac:(lia) Hqb) as Hd.
  replace (to_R (S754_finite false mx ex) / to_R (S754_finite false my ey))%R
    with ((IZR (Zpos pq) + IZR r / IZR (Zpos my)) * bpow (ex - ey - 53))%R.
  - apply binary_round_aux_spec; try lia.
    apply new_location_spec; lia.
  - cbn [to_R]. apply (f_equal IZR) in Hq.
    rewrite plus_IZR, !mult_IZR, <- (bpow_IZR 53) in Hq by lia.
    replace (ex - ey - 53) with (ex + (- ey + - (53))) by lia.
    rewrite !bpow_add, !bpow_opp.
    pose proof (bpow_pos ey). pose proof (bpow_pos 53).
    assert (0 < IZR (Zpos my))%R by (apply IZR_lt; lia).
    assert (Emx : IZR (Zpos mx)
                  = ((IZR (Zpos my) * IZR (Zpos pq) + IZR r) / bpow 53)%R)
      by (rewrite <- Hq; field; lra).
    rewrite Emx. field. repeat split; lra.
Qed.

(** ** Multiplication *)

Lemma mul_rounds (x y : spec_float) :
  nice x -> nice y ->
  rounds (to_R x * to_R y) (SFmul prec emax x y).
Proof.
  destruct x as [| | | [] mx ex]; cbn [nice]; try tauto.
  destruct y as [| | | [] my ey]; cbn [nice]; try tauto.
  intros [Hmx Hex] [Hmy Hey].
  unfold SFmul. cbn [xorb].
  assert (Hb : 2 ^ 104 <= Zpos (mx * my) < 2 ^ 106).
  { rewrite Pos2Z.inj_mul. change (2 ^ 104) with (2 ^ 52 * 2 ^ 52).
    change (2 ^ 106) with (2 ^ 53 * 2 ^ 53). nia. }
  pose proof (digits_range (mx * my) 104 106 ltac:(lia) ltac:(lia) Hb) as Hd.
  replace (to_R (S754_finite false mx ex) * to_R (S754_finite false my ey))%R
    with (IZR (Zpos (mx * my)) * bpow (ex + ey))%R.
  - apply binary_round_aux_spec; try lia. apply located_exact.
  - cbn [to_R]. rewrite Pos2Z.inj_mul, mult_IZR, bpow_add. ring.
Qed.

(** ** Subtraction and addition *)

Lemma shl_align_value (m : positive) (e ez : Z) :
  ez <= e ->
  (IZR (Zpos (fst (shl_align m e ez))) * bpow ez = IZR (Zpos m) * bpow e)%R
  /\ Zpos (fst (shl_align m e ez)) = Zpos m * 2 ^ (e - ez).
Proof.
  intros Hle. destruct (shl_align_spec m e ez) as [_ S2].
  replace (Z.min e ez) with ez in S2 by lia. split; [| exact S2].
  rewrite S2, mult_IZR, <- bpow_IZR, Rmult_assoc, <- bpow_add by lia.
  do 2 f_equal. lia.
Qed.

Lemma sub_rounds (x y : spec_float) :
  nice x -> nice y -> (to_R y < to_R x)%R ->
  rounds (to_R x - to_R y) (SFsub prec emax x y).
Proof.
  destruct x as [| | | [] mx ex]; cbn [nice]; try tauto.
  destruct y as [| | | [] my ey]; cbn [nice]; try tauto.
  intros [Hmx Hex] [Hmy Hey] Hlt.
  unfold SFsub. cbn [cond_Zopp].
  set (ez := Z.min ex ey).
  destruct (shl_align_value mx ex ez ltac:(lia)) as [Vx Zx].
  destruct (shl_align_value my ey ez ltac:(lia)) as [Vy Zy].
  set (ax := Zpos (fst (shl_align mx ex ez))) in *.
  set (ay := Zpos (fst (shl_align my ey ez))) in *.
  cbn [to_R] in Hlt. rewrite !Rmult_1_l in Hlt.
  pose proof (bpow_pos ez) as Hez.
  assert (Hpos : 0 < ax - ay).
  { apply lt_IZR. rewrite minus_IZR. nra. }
  assert (Hval : (to_R (S754_finite false mx ex) - to_R (S754_finite false my ey)
                  = IZR (ax - ay) * bpow ez)%R).
  { cbn [to_R]. rewrite minus_IZR. lra. }
  rewrite Hval.
  destruct (ax - ay) as [| pd | pd] eqn:Ed; [lia | | lia].
  cbn [binary_normalize].
  assert (Hub : Zpos pd < 2 ^ (53 + (ex - ez))).
  { rewrite Z.pow_add_r by lia.
    assert (0 < 2 ^ (ex - ez)) by (apply Z.pow_pos_nonneg; lia).
    assert (0 < ay) by (unfold ay; lia). nia. }
  assert (Hlb : 2 ^ 0 <= Zpos pd) by (cbn; lia).
  pose proof (digits_range pd 0 (53 + (ex - ez)) ltac:(lia) ltac:(lia) (conj Hlb Hub)).
  apply binary_round_spec; lia.
Qed.

Lemma add_rounds (x y : spec_float) :
  nice x -> nice y ->
  rounds (to_R x + to_R y) (SFadd prec emax x y).
Proof.
  destruct x as [| | | [] mx ex]; cbn [nice]; try tauto.
  destruct y as [| | | [] my ey]; cbn [nice]; try tauto.
  intros [Hmx Hex] [Hmy Hey].
  unfold SFadd. cbn [cond_Zopp].
  set (ez := Z.min ex ey).
  destruct (shl_align_value mx ex ez ltac:(lia)) as [Vx Zx].
  destruct (shl_align_value my ey ez ltac:(lia)) as [Vy Zy].
  set (ax := Zpos (fst (shl_align mx ex ez))) in *.
  set (ay := Zpos (fst (shl_align my ey ez))) in *.
  assert (Hval : (to_R (S754_finite false mx ex) + to_R (S754_finite false my ey)
                  = IZR (ax + ay) * bpow ez)%R).
  { cbn [to_R]. rewrite plus_IZR. lra. }
  rewrite Hval.
  assert (Hpos : 0 < ax + ay) by (unfold ax, ay; lia).
  destruct (ax + ay) as [| pd | pd] eqn:Ed; [lia | | lia].
  cbn [binary_normalize].
  assert (Hub : Zpos pd < 2 ^ (54 + (Z.max ex ey - ez))).
  { replace (54 + (Z.max ex ey - ez)) with (1 + (53 + (Z.max ex ey - ez))) by lia.
    rewrite Z.pow_add_r, Z.pow_add_r by lia. change (2 ^ 1) with 2.
    assert (2 ^ (ex - ez) <= 2 ^ (Z.max ex ey - ez)) by (apply Z.pow_le_mono_r; lia).
    assert (2 ^ (ey - ez) <= 2 ^ (Z.max ex ey - ez)) by (apply Z.pow_le_mono_r; lia).
    assert (0 < 2 ^ (ex - ez)) by (apply Z.pow_pos_nonneg; lia).
    assert (0 < 2 ^ (ey - ez)) by (apply Z.pow_pos_nonneg; lia).
    nia. }
  assert (Hlb : 2 ^ 0 <= Zpos pd) by (cbn; lia).
  pose proof (digits_range pd 0 (54 + (Z.max ex ey - ez)) ltac:(lia) ltac:(lia) (conj Hlb Hub)).
  apply binary_round_spec; lia.
Qed.

(** ** Conversion from integers *)

Lemma of_int_rounds (n : Z) :
  0 < n < 2 ^ 1000 ->
  rounds (IZR n) (binary_normalize prec emax n 0 false).
Proof.
  intros [H0 H1]. destruct n as [| p | p]; [lia | | lia].
  cbn [binary_normalize].
  assert (Hlb : 2 ^ 0 <= Zpos p) by (cbn; lia).
  pose proof (digits_range p 0 1000 ltac:(lia) ltac:(lia) (conj Hlb H1)).
  replace (IZR (Zpos p)) with (IZR (Zpos p) * bpow 0)%R by (rewrite bpow_0; ring).
  apply binary_round_spec; lia.
Qed.

Lemma of_int_exact (n : Z) :
  0 < n < 2 ^ 53 ->
  nice (binary_normalize prec emax n 0 false)
  /\ to_R (binary_normalize prec emax n 0 false) = IZR n.
Proof.
  intros [H0 H1].
  assert (Hr : rounds (IZR n) (binary_normalize prec emax n 0 false)).
  { apply of_int_rounds. split; [lia |].
    apply Z.lt_trans with (2 ^ 53); [assumption |]. apply Z.pow_lt_mono_r; lia. }
  destruct n as [| p | p]; [lia | | lia].
  destruct (digits2_bounds p) as [B1 B2].
  assert (Hlb : 2 ^ 0 <= Zpos p) by (cbn; lia).
  pose proof (digits_range p 0 53 ltac:(lia) ltac:(lia) (conj Hlb H1)) as Hd.
  set (d := Zpos (digits2_pos p)) in *.
  assert (E52 : 2 ^ 52 = 2 ^ (d - 1) * 2 ^ (53 - d))
    by (rewrite <- Z.pow_add_r by lia; f_equal; lia).
  assert (E53 : 2 ^ 53 = 2 ^ d * 2 ^ (53 - d))
    by (rewrite <- Z.pow_add_r by lia; f_equal; lia).
  assert (Hp : 0 < 2 ^ (53 - d)) by (apply Z.pow_pos_nonneg; lia).
  assert (HM : 2 ^ 52 <= Zpos p * 2 ^ (53 - d) < 2 ^ 53) by (rewrite E52, E53; nia).
  assert (Hv : IZR (Zpos p) = (IZR (Zpos p * 2 ^ (53 - d)) * bpow (d - 53))%R).
  { rewrite mult_IZR, <- bpow_IZR, Rmult_assoc, <- bpow_add by lia.
    replace (53 - d + (d - 53)) with 0 by lia. rewrite bpow_0. ring. }
  rewrite (rounds_exact _ _ _ _ Hr HM Hv).
  cbn [nice to_R]. rewrite Z2Pos.id by lia. split; [split; [exact HM | lia] |].
  rewrite Hv. ring.
Qed.

(** ** Comparison *)

Lemma ltb_normal (x y : spec_float) :
  normal x -> normal y ->
  (SFltb x y = true <-> (to_R x < to_R y)%R).
Proof.
  destruct x as [| | | [] mx ex]; cbn [normal]; try tauto.
  destruct y as [| | | [] my ey]; cbn [normal]; try tauto.
  intros Hmx Hmy. unfold SFltb, SFcompare. cbn [to_R]. rewrite !Rmult_1_l.
  pose proof (bpow_pos ex) as Hex. pose proof (bpow_pos ey) as Hey.
  assert (A1 : (IZR (2 ^ 52) <= IZR (Zpos mx))%R) by (apply IZR_le; lia).
  assert (A2 : (IZR (Zpos mx) < IZR (2 ^ 53))%R) by (apply IZR_lt; lia).
  assert (B1 : (IZR (2 ^ 52) <= IZR (Zpos my))%R) by (apply IZR_le; lia).
  assert (B2 : (IZR (Zpos my) < IZR (2 ^ 53))%R) by (apply IZR_lt; lia).
  change (2 ^ 53) with (2 * 2 ^ 52) in A2, B2. rewrite mult_IZR in A2, B2.
  assert (P52 : (0 < IZR (2 ^ 52))%R) by (apply IZR_lt; lia).
  destruct (Z.compare_spec ex ey) as [E | E | E].
  - subst ey. rewrite Pos.compare_cont_spec. cbn [Pos.switch_Eq].
    destruct (Pos.compare_spec mx my) as [F | F | F].
    + subst my. split; [discriminate | lra].
    + split; [intros _ | reflexivity]. apply Pos2Z.pos_lt_pos, IZR_lt in F. nra.
    + split; [discriminate |]. apply Pos2Z.pos_lt_pos, IZR_lt in F. nra.
  - split; [intros _ | reflexivity].
    assert (Hs : (2 * bpow ex <= bpow ey)%R).
    { rewrite <- bpow_1, <- bpow_add. apply bpow_le. lia. }
    nra.
  - split; [discriminate |].
    assert (Hs : (2 * bpow ey <= bpow ex)%R).
    { rewrite <- bpow_1, <- bpow_add. apply bpow_le. lia. }
    nra.
Qed.

(** ** The error of one rounding *)

Lemma rounds_bounds (v : R) (x : spec_float) :
  rounds v x ->
  (v * (1 - bpow (-53)) <= to_R x <= v * (1 + bpow (-53)))%R.
Proof.
  intros Hr. pose proof (rounds_error v x Hr) as H.
  apply Rabs_bounds in H. lra.
Qed.

(** Below [2^b] the error is at most half a unit of the last place of
    that binade. *)
Lemma rounds_abs_error (v : R) (x : spec_float) (b : Z) :
  rounds v x -> (v < bpow b)%R ->
  (Rabs (to_R x - v) <= bpow (b - 54))%R.
Proof.
  intros (m1 & l1 & e1 & m & e & Hm1 & Hloc & -> & Hm & Hval) Hb.
  cbn [F64.to_R]. rewrite Rmult_1_l, Hval.
  destruct (round_nearest_even_spec m1 l1 _ Hloc) as [_ Herr].
  apply located_bounds in Hloc. destruct Hloc as [Hl _].
  set (u := (v / bpow e1)%R) in *. set (m2 := round_nearest_even m1 l1) in *.
  pose proof (bpow_pos e1) as He.
  assert (Ev : v = (u * bpow e1)%R) by (unfold u; field; lra).
  assert (H52 : (IZR (2 ^ 52) <= IZR m1)%R) by (apply IZR_le; lia).
  rewrite <- bpow_IZR in H52 by lia.
  assert (Hlt : (bpow (52 + e1) < bpow b)%R) by (rewrite bpow_add; nra).
  apply bpow_lt_inv in Hlt.
  assert (Hle : (bpow e1 <= bpow (b - 53))%R) by (apply bpow_le; lia).
  assert (Hh : (bpow (b - 54) = bpow (b - 53) * / 2)%R).
  { rewrite <- bpow_m1, <- bpow_add. f_equal. lia. }
  apply Rabs_bounds in Herr. destruct Herr as [Herr1 Herr2].
  rewrite Ev, Hh. apply Rabs_le. split; nra.
Qed.

End Rounding.

(* ------------------------------------------------------------------ *)
(** * Scale and position, in binary64 *)

(** Lines 321-327 evaluated on an image of sides [w] and [h] and a
    printable area of sides [A] and [B]: two quotients, their minimum, two
    products, then a difference and a halving.  Each operation rounds
    once. *)
Module PlacementFacts.
Import Rounding.

(** The unit roundoff [2^-53] is small, and the tolerance is four times
    the unit roundoff. *)
Lemma u_facts :
  (0 < F64.bpow (-53))%R /\ (F64.bpow (-53) < / 2048)%R
  /\ F64.eps = (4 * F64.bpow (-53))%R.
Proof.
  split; [apply bpow_pos |]. split.
  - replace (/ 2048)%R with (F64.bpow (-11)).
    + apply bpow_lt. lia.
    + change (-11) with (- (11)). rewrite bpow_opp, bpow_IZR by lia. reflexivity.
  - unfold F64.eps. replace (-51) with (2 + -53) by lia.
    rewrite bpow_add, (bpow_IZR 2) by lia. reflexivity.
Qed.

Lemma eps_value : F64.eps = (/ 2 ^ 51)%R.
Proof.
  unfold F64.eps. change (-51) with (- (51)).
  rewrite bpow_opp, bpow_IZR by lia. f_equal.
  rewrite pow_IZR. reflexivity.
Qed.

(** The sides of images and pages convert to [float] exactly. *)
Lemma of_int_nice (n : Z) :
  0 < n < 2 ^ 53 -> F64.nice (F64.of_int n) /\ F64.to_R (F64.of_int n) = IZR n.
Proof. apply of_int_exact. Qed.

(** The quotient of two integers. *)
Lemma ratio_rounds (a b : Z) :
  0 < a < 2 ^ 53 -> 0 < b < 2 ^ 53 ->
  F64.rounds (IZR a / IZR b) (F64.div (F64.of_int a) (F64.of_int b))
  /\ F64.nice (F64.div (F64.of_int a) (F64.of_int b)).
Proof.
  intros Ha Hb.
  destruct (of_int_nice a Ha) as [Na Va]. destruct (of_int_nice b Hb) as [Nb Vb].
  assert (Hr : F64.rounds (IZR a / IZR b) (F64.div (F64.of_int a) (F64.of_int b))).
  { rewrite <- Va, <- Vb. apply div_rounds; assumption. }
  split; [exact Hr |]. apply (rounds_nice _ _ Hr).
  assert (1 <= IZR a)%R by (apply IZR_le; lia).
  assert (IZR a <= F64.bpow 53)%R by (rewrite bpow_IZR by lia; apply IZR_le; lia).
  assert (1 <= IZR b)%R by (apply IZR_le; lia).
  assert (IZR b <= F64.bpow 53)%R by (rewrite bpow_IZR by lia; apply IZR_le; lia).
  assert (F64.bpow (-390) <= F64.bpow (-53))%R by (apply bpow_le; lia).
  assert (F64.bpow 53 <= F64.bpow 390)%R by (apply bpow_le; lia).
  assert (I : (F64.bpow 53 * F64.bpow (-53) = 1)%R)
    by (rewrite <- bpow_add; reflexivity).
  pose proof (bpow_pos 53). pose proof (bpow_pos (-53)).
  set (q := (IZR a / IZR b)%R).
  assert (Hq : (q * IZR b = IZR a)%R) by (unfold q; field; lra).
  split.
  - apply Rle_trans with (F64.bpow (-53)); [assumption |].
    apply Rnot_lt_le. intros Hlt. nra.
  - apply Rle_trans with (F64.bpow 53); [| assumption].
    apply Rnot_lt_le. intros Hlt. nra.
Qed.

(** [min] of two normal numbers. *)
Lemma min_nice (a b : F64.float) :
  F64.nice a -> F64.nice b ->
  F64.nice (Py.min a b)
  /\ (Py.min a b = a \/ Py.min a b = b)
  /\ (F64.to_R (Py.min a b) <= F64.to_R a)%R
  /\ (F64.to_R (Py.min a b) <= F64.to_R b)%R.
Proof.
  intros Na Nb. unfold Py.min, F64.ltb.
  pose proof (ltb_normal b a (nice_normal _ Nb) (nice_normal _ Na)) as H.
  destruct (SFltb b a).
  - assert (F64.to_R b < F64.to_R a)%R by (now apply H).
    repeat split; [assumption | now right | lra | lra].
  - assert (~ (F64.to_R b < F64.to_R a)%R) by (intros C; apply H in C; discriminate).
    repeat split; [assumption | now left | lra | lra].
Qed.

(** An integer times a float between [2^-60] and [2^20]. *)
Lemma scaled_rounds (n : Z) (s : F64.float) :
  0 < n < 2 ^ 53 -> F64.nice s ->
  (F64.bpow (-60) <= F64.to_R s <= F64.bpow 20)%R ->
  F64.rounds (IZR n * F64.to_R s) (Py.mul_int_float n s)
  /\ F64.nice (Py.mul_int_float n s).
Proof.
  intros Hn Ns [Hlo Hhi]. destruct (of_int_nice n Hn) as [Nn Vn].
  assert (Hr : F64.rounds (IZR n * F64.to_R s) (Py.mul_int_float n s)).
  { rewrite <- Vn. apply mul_rounds; assumption. }
  split; [exact Hr |]. apply (rounds_nice _ _ Hr).
  assert (1 <= IZR n)%R by (apply IZR_le; lia).
  assert (IZR n <= F64.bpow 53)%R by (rewrite bpow_IZR by lia; apply IZR_le; lia).
  assert (F64.bpow (-390) <= F64.bpow (-60))%R by (apply bpow_le; lia).
  assert (F64.bpow 73 <= F64.bpow 390)%R by (apply bpow_le; lia).
  assert (I : (F64.bpow 73 = F64.bpow 53 * F64.bpow 20)%R)
    by (rewrite <- bpow_add; reflexivity).
  pose proof (bpow_pos 53). pose proof (bpow_pos 20). pose proof (bpow_pos (-60)).
  split; nra.
Qed.

(** ** An image of [w] x [h] in a printable area of [A] x [B] *)

Section Placement.
Variables w h A B : Z.
Hypothesis Hw : 0 < w < 2 ^ 53.
Hypothesis Hh : 0 < h < 2 ^ 53.
Hypothesis HA : 0 < A <= 720.
Hypothesis HB : 0 < B <= 720.

Local Abbreviation rw := (F64.div (F64.of_int A) (F64.of_int w)).
Local Abbreviation rh := (F64.div (F64.of_int B) (F64.of_int h)).
Local Abbreviation s := (Py.min rw rh).
Local Abbreviation nw := (Py.mul_int_float w s).
Local Abbreviation nh := (Py.mul_int_float h s).

Lemma ratio_w : F64.rounds (IZR A / IZR w) rw /\ F64.nice rw.
Proof. apply ratio_rounds; [lia | assumption]. Qed.

Lemma ratio_h : F64.rounds (IZR B / IZR h) rh /\ F64.nice rh.
Proof. apply ratio_rounds; [lia | assumption]. Qed.

Lemma ratio_range (a b : Z) (r : F64.float) :
  0 < a <= 720 -> 0 < b < 2 ^ 53 ->
  F64.rounds (IZR a / IZR b) r ->
  (F64.bpow (-60) <= F64.to_R r <= F64.bpow 20)%R.
Proof.
  intros Ha Hb Hr. pose proof (rounds_bounds _ _ Hr) as [L U].
  destruct u_facts as (U0 & U1 & _).
  assert (1 <= IZR a <= 720)%R by (split; apply IZR_le; lia).
  assert (1 <= IZR b)%R by (apply IZR_le; lia).
  assert (IZR b <= F64.bpow 53)%R by (rewrite bpow_IZR by lia; apply IZR_le; lia).
  set (q := (IZR a / IZR b)%R) in *.
  assert (Hq : (q * IZR b = IZR a)%R) by (unfold q; field; lra).
  assert (Q1 : (q <= 720)%R) by (apply Rnot_lt_le; intros C; nra).
  assert (I : (F64.bpow 53 * F64.bpow (-53) = 1)%R)
    by (rewrite <- bpow_add; reflexivity).
  pose proof (bpow_pos 53).
  assert (Q0 : (F64.bpow (-53) <= q)%R).
  { apply Rnot_lt_le. intros C.
    assert (q * IZR b < F64.bpow (-53) * IZR b)%R by nra.
    assert (F64.bpow (-53) * IZR b <= 1)%R.
    { rewrite <- I, (Rmult_comm (F64.bpow 53)).
      apply Rmult_le_compat_l; lra. }
    lra. }
  assert (F64.bpow (-60) * 2 <= F64.bpow (-53))%R.
  { rewrite <- bpow_1, <- bpow_add. apply bpow_le. lia. }
  assert (2048 <= F64.bpow 20)%R.
  { rewrite bpow_IZR by lia. apply IZR_le. cbn. lia. }
  pose proof (bpow_pos (-60)).
  split; nra.
Qed.

Lemma scale_nice :
  F64.nice s /\ (s = rw \/ s = rh)
  /\ (F64.to_R s <= F64.to_R rw)%R /\ (F64.to_R s <= F64.to_R rh)%R
  /\ (F64.bpow (-60) <= F64.to_R s <= F64.bpow 20)%R.
Proof.
  destruct ratio_w as [Rw Nw]. destruct ratio_h as [Rh Nh].
  destruct (min_nice rw rh Nw Nh) as (N & C & L1 & L2).
  pose proof (ratio_range A w rw HA Hw Rw) as [Wl Wu].
  pose proof (ratio_range B h rh HB Hh Rh) as [Hl Hu].
  repeat split; try assumption.
  - destruct C as [C | C]; rewrite C; assumption.
  - lra.
Qed.

Lemma new_w_rounds : F64.rounds (IZR w * F64.to_R s) nw /\ F64.nice nw.
Proof. destruct scale_nice as (N & _ & _ & _ & R). now apply scaled_rounds. Qed.

Lemma new_h_rounds : F64.rounds (IZR h * F64.to_R s) nh /\ F64.nice nh.
Proof. destruct scale_nice as (N & _ & _ & _ & R). now apply scaled_rounds. Qed.

(** The scaled sides stay within the available sides, up to two
    roundings. *)
Lemma new_w_fits : (F64.to_R nw <= IZR A * (1 + F64.eps))%R.
Proof.
  destruct new_w_rounds as [Rn _]. destruct ratio_w as [Rw Nw].
  destruct scale_nice as (Ns & _ & L1 & _ & _).
  pose proof (rounds_bounds _ _ Rn) as [_ U1].
  pose proof (rounds_bounds _ _ Rw) as [_ U2].
  destruct u_facts as (U0 & Us & Ue). rewrite Ue. set (u := F64.bpow (-53)) in *.
  assert (0 < IZR w)%R by (apply IZR_lt; lia).
  assert (0 < IZR A)%R by (apply IZR_lt; lia).
  pose proof (nice_pos _ Ns) as Sp.
  set (q := (IZR A / IZR w)%R) in *.
  assert (Hq : (IZR w * q = IZR A)%R) by (unfold q; field; lra).
  assert (S1 : (IZR w * F64.to_R s <= IZR A * (1 + u))%R) by nra.
  assert (S2 : (F64.to_R nw <= IZR A * (1 + u) * (1 + u))%R) by nra.
  assert (S3 : ((1 + u) * (1 + u) <= 1 + 4 * u)%R) by nra.
  apply Rle_trans with (1 := S2). rewrite Rmult_assoc.
  apply Rmult_le_compat_l; lra.
Qed.

Lemma new_h_fits : (F64.to_R nh <= IZR B * (1 + F64.eps))%R.
Proof.
  destruct new_h_rounds as [Rn _]. destruct ratio_h as [Rh Nh].
  destruct scale_nice as (Ns & _ & _ & L2 & _).
  pose proof (rounds_bounds _ _ Rn) as [_ U1].
  pose proof (rounds_bounds _ _ Rh) as [_ U2].
  destruct u_facts as (U0 & Us & Ue). rewrite Ue. set (u := F64.bpow (-53)) in *.
  assert (0 < IZR h)%R by (apply IZR_lt; lia).
  assert (0 < IZR B)%R by (apply IZR_lt; lia).
  pose proof (nice_pos _ Ns) as Sp.
  set (q := (IZR B / IZR h)%R) in *.
  assert (Hq : (IZR h * q = IZR B)%R) by (unfold q; field; lra).
  assert (S1 : (IZR h * F64.to_R s <= IZR B * (1 + u))%R) by nra.
  assert (S2 : (F64.to_R nh <= IZR B * (1 + u) * (1 + u))%R) by nra.
  assert (S3 : ((1 + u) * (1 + u) <= 1 + 4 * u)%R) by nra.
  apply Rle_trans with (1 := S2). rewrite Rmult_assoc.
  apply Rmult_le_compat_l; lra.
Qed.

(** One of the scaled sides reaches its available side, up to two
    roundings. *)
Lemma one_side_touches :
  (IZR A * (1 - F64.eps) <= F64.to_R nw)%R
  \/ (IZR B * (1 - F64.eps) <= F64.to_R nh)%R.
Proof.
  destruct new_w_rounds as [Rnw _]. destruct new_h_rounds as [Rnh _].
  destruct ratio_w as [Rw Nw]. destruct ratio_h as [Rh Nh].
  destruct scale_nice as (Ns & C & _ & _ & _).
  pose proof (rounds_bounds _ _ Rnw) as [Lw _].
  pose proof (rounds_bounds _ _ Rnh) as [Lh _].
  pose proof (rounds_bounds _ _ Rw) as [Lrw _].
  pose proof (rounds_bounds _ _ Rh) as [Lrh _].
  destruct u_facts as (U0 & Us & Ue). rewrite Ue. set (u := F64.bpow (-53)) in *.
  assert (0 < IZR w)%R by (apply IZR_lt; lia).
  assert (0 < IZR h)%R by (apply IZR_lt; lia).
  assert (0 < IZR A)%R by (apply IZR_lt; lia).
  assert (0 < IZR B)%R by (apply IZR_lt; lia).
  destruct C as [C | C]; apply (f_equal F64.to_R) in C; [left | right].
  - set (q := (IZR A / IZR w)%R) in *.
    assert (Hq : (IZR w * q = IZR A)%R) by (unfold q; field; lra).
    assert (S1 : (IZR A * (1 - u) <= IZR w * F64.to_R rw)%R) by nra.
    assert (S2 : (IZR A * (1 - u) * (1 - u) <= F64.to_R nw)%R) by nra.
    assert (S3 : (1 - 4 * u <= (1 - u) * (1 - u))%R) by nra.
    apply Rle_trans with (2 := S2). rewrite Rmult_assoc.
    apply Rmult_le_compat_l; lra.
  - set (q := (IZR B / IZR h)%R) in *.
    assert (Hq : (IZR h * q = IZR B)%R) by (unfold q; field; lra).
    assert (S1 : (IZR B * (1 - u) <= IZR h * F64.to_R rh)%R) by nra.
    assert (S2 : (IZR B * (1 - u) * (1 - u) <= F64.to_R nh)%R) by nra.
    assert (S3 : (1 - 4 * u <= (1 - u) * (1 - u))%R) by nra.
    apply Rle_trans with (2 := S2). rewrite Rmult_assoc.
    apply Rmult_le_compat_l; lra.
Qed.

(** An image smaller than the available area is enlarged. *)
Lemma small_image_scaled_up : w < A -> h < B -> (1 < F64.to_R s)%R.
Proof.
  intros Hsw Hsh.
  destruct ratio_w as [Rw Nw]. destruct ratio_h as [Rh Nh].
  destruct scale_nice as (Ns & C & _ & _ & _).
  pose proof (rounds_bounds _ _ Rw) as [Lrw _].
  pose proof (rounds_bounds _ _ Rh) as [Lrh _].
  destruct u_facts as (U0 & Us & _). set (u := F64.bpow (-53)) in *.
  assert (Hgen : forall a b : Z, 0 < b < a -> a <= 720 ->
            (1 < IZR a / IZR b * (1 - u))%R).
  { intros a b Hb Ha.
    assert (1 <= IZR b)%R by (apply IZR_le; lia).
    assert (IZR b <= 719)%R by (apply IZR_le; lia).
    assert (IZR b + 1 <= IZR a)%R by (rewrite <- plus_IZR; apply IZR_le; lia).
    set (q := (IZR a / IZR b)%R).
    assert (Hq : (q * IZR b = IZR a)%R) by (unfold q; field; lra).
    assert (Q : (1 + / 2048 <= q)%R) by (apply Rnot_lt_le; intros C'; nra).
    nra. }
  destruct C as [C | C]; rewrite C.
  - pose proof (Hgen A w ltac:(lia) ltac:(lia)). lra.
  - pose proof (Hgen B h ltac:(lia) ltac:(lia)). lra.
Qed.

(** The scaled side is a positive number that leaves room on the page. *)
Lemma new_w_range : (F64.bpow (-380) <= F64.to_R nw <= IZR A + 8)%R.
Proof.
  destruct new_w_rounds as [Rn _]. pose proof new_w_fits as Hfit.
  destruct scale_nice as (_ & _ & _ & _ & [Sl _]).
  pose proof (rounds_bounds _ _ Rn) as [L _].
  destruct u_facts as (U0 & Us & Ue). rewrite Ue in Hfit.
  set (u := F64.bpow (-53)) in *.
  assert (1 <= IZR w)%R by (apply IZR_le; lia).
  assert (0 < IZR A <= 720)%R by (split; [apply IZR_lt | apply IZR_le]; lia).
  assert (F64.bpow (-380) * 2 <= F64.bpow (-60))%R.
  { rewrite <- bpow_1, <- bpow_add. apply bpow_le. lia. }
  pose proof (bpow_pos (-380)). pose proof (bpow_pos (-60)).
  assert (V1 : (F64.bpow (-60) <= IZR w * F64.to_R s)%R) by nra.
  assert (V2 : (F64.bpow (-60) * (1 - u) <= F64.to_R nw)%R) by nra.
  assert (V3 : (IZR A * u <= 720 * u)%R) by nra.
  split; nra.
Qed.

Lemma new_h_range : (F64.bpow (-380) <= F64.to_R nh <= IZR B + 8)%R.
Proof.
  destruct new_h_rounds as [Rn _]. pose proof new_h_fits as Hfit.
  destruct scale_nice as (_ & _ & _ & _ & [Sl _]).
  pose proof (rounds_bounds _ _ Rn) as [L _].
  destruct u_facts as (U0 & Us & Ue). rewrite Ue in Hfit.
  set (u := F64.bpow (-53)) in *.
  assert (1 <= IZR h)%R by (apply IZR_le; lia).
  assert (0 < IZR B <= 720)%R by (split; [apply IZR_lt | apply IZR_le]; lia).
  assert (F64.bpow (-380) * 2 <= F64.bpow (-60))%R.
  { rewrite <- bpow_1, <- bpow_add. apply bpow_le. lia. }
  pose proof (bpow_pos (-380)). pose proof (bpow_pos (-60)).
  assert (V1 : (F64.bpow (-60) <= IZR h * F64.to_R s)%R) by nra.
  assert (V2 : (F64.bpow (-60) * (1 - u) <= F64.to_R nh)%R) by nra.
  assert (V3 : (IZR B * u <= 720 * u)%R) by nra.
  split; nra.
Qed.

(** The scale is the smaller of the two exact ratios, up to one
    rounding. *)
Lemma scale_close :
  (Rmin (IZR A / IZR w) (IZR B / IZR h) * (1 - F64.eps) <= F64.to_R s
   <= Rmin (IZR A / IZR w) (IZR B / IZR h) * (1 + F64.eps))%R.
Proof.
  destruct ratio_w as [Rw Nw]. destruct ratio_h as [Rh Nh].
  destruct scale_nice as (_ & C & L1 & L2 & _).
  pose proof (rounds_bounds _ _ Rw) as [Lw Uw].
  pose proof (rounds_bounds _ _ Rh) as [Lh Uh].
  pose proof (rounds_pos _ _ Rw) as Pw. pose proof (rounds_pos _ _ Rh) as Ph.
  destruct u_facts as (U0 & Us & Ue). rewrite Ue.
  set (u := F64.bpow (-53)) in *.
  set (qa := (IZR A / IZR w)%R) in *. set (qb := (IZR B / IZR h)%R) in *.
  unfold Rmin. destruct (Rle_dec qa qb) as [Hle | Hgt]; split.
  - destruct C as [C | C]; rewrite C; nra.
  - nra.
  - destruct C as [C | C]; rewrite C; nra.
  - nra.
Qed.

End Placement.

(** Halving is exact. *)
Lemma half_exact (x : F64.float) :
  F64.nice x ->
  (F64.bpow (-380) <= F64.to_R x <= F64.bpow 380)%R ->
  F64.nice (Py.div_float_int x 2)
  /\ F64.to_R (Py.div_float_int x 2) = (F64.to_R x / 2)%R.
Proof.
  intros Nx [Hlo Hhi]. unfold Py.div_float_int.
  destruct (of_int_nice 2 ltac:(lia)) as [N2 V2].
  assert (Hr : F64.rounds (F64.to_R x / 2) (F64.div x (F64.of_int 2))).
  { rewrite <- V2. apply div_rounds; assumption. }
  assert (Hn : F64.nice (F64.div x (F64.of_int 2))).
  { apply (rounds_nice _ _ Hr).
    assert (F64.bpow (-390) * 2 <= F64.bpow (-380))%R.
    { rewrite <- bpow_1, <- bpow_add. apply bpow_le. lia. }
    assert (F64.bpow 380 <= F64.bpow 390)%R by (apply bpow_le; lia).
    pose proof (bpow_pos 380). lra. }
  split; [exact Hn |].
  destruct x as [| | | [] m e]; cbn [F64.nice] in Nx; try tauto.
  destruct Nx as [Hm He].
  assert (Hv : (F64.to_R (S754_finite false m e) / 2
                = IZR (Zpos m) * F64.bpow (e - 1))%R).
  { cbn [F64.to_R]. rewrite bpow_sub, bpow_1. field. }
  rewrite (rounds_exact _ _ (Zpos m) (e - 1) Hr Hm Hv).
  cbn [F64.to_R Z.to_pos]. rewrite bpow_sub, bpow_1. field.
Qed.

(** The origin plus half the scaled side is half the page side, exactly. *)
Lemma centered (P : Z) (n : F64.float) :
  P = 612 \/ P = 792 ->
  F64.nice n ->
  (F64.bpow (-380) <= F64.to_R n <= IZR P - 64)%R ->
  F64.add (Py.div_float_int (Py.sub_int_float P n) 2) (Py.div_float_int n 2)
  = F64.div (F64.of_int P) (F64.of_int 2).
Proof.
  intros HP Nn [Hlo Hhi].
  assert (HPr : 612 <= P <= 792) by lia.
  assert (HPR : (612 <= IZR P <= 792)%R) by (split; apply IZR_le; lia).
  destruct (of_int_nice P ltac:(lia)) as [NP VP].
  pose proof (bpow_pos (-380)) as Hpos.
  (* the subtraction *)
  set (t := Py.sub_int_float P n).
  assert (Rt : F64.rounds (IZR P - F64.to_R n) t).
  { unfold t, Py.sub_int_float. rewrite <- VP. apply sub_rounds; try assumption. lra. }
  set (v := (IZR P - F64.to_R n)%R) in *.
  assert (B10 : F64.bpow 10 = 1024%R) by (rewrite bpow_IZR by lia; reflexivity).
  assert (Nt : F64.nice t).
  { apply (rounds_nice _ _ Rt).
    assert (F64.bpow (-390) <= F64.bpow 0)%R by (apply bpow_le; lia).
    assert (F64.bpow 10 <= F64.bpow 390)%R by (apply bpow_le; lia).
    rewrite bpow_0 in *. unfold v. lra. }
  assert (Et : (Rabs (F64.to_R t - v) <= F64.bpow (-44))%R).
  { apply (rounds_abs_error v t 10 Rt). unfold v. lra. }
  apply Rabs_bounds in Et.
  assert (B44 : (F64.bpow (-44) < 1)%R).
  { rewrite <- bpow_0. apply bpow_lt. lia. }
  pose proof (bpow_pos (-44)) as P44.
  (* the two halves *)
  assert (B380 : (1024 <= F64.bpow 380)%R).
  { rewrite <- B10. apply bpow_le. lia. }
  assert (B380' : (F64.bpow (-380) <= 1)%R).
  { rewrite <- bpow_0. apply bpow_le. lia. }
  destruct (half_exact t Nt ltac:(unfold v in *; lra)) as [Nx Vx].
  destruct (half_exact n Nn ltac:(lra)) as [Nh Vh].
  (* the sum *)
  pose proof (add_rounds _ _ Nx Nh) as Rs. rewrite Vx, Vh in Rs.
  set (sum := SFadd F64.prec F64.emax (Py.div_float_int t 2) (Py.div_float_int n 2)) in *.
  change (F64.add (Py.div_float_int t 2) (Py.div_float_int n 2)) with sum.
  set (v' := (F64.to_R t / 2 + F64.to_R n / 2)%R) in *.
  assert (I : (F64.bpow 44 * F64.bpow (-44) = 1)%R)
    by (rewrite <- bpow_add; reflexivity).
  pose proof (bpow_pos 44) as P44'.
  assert (B8 : (F64.bpow 52 * F64.bpow (-44) = 256)%R).
  { rewrite <- bpow_add. change (52 + -44) with 8. rewrite bpow_IZR by lia. reflexivity. }
  assert (B9 : (F64.bpow 53 * F64.bpow (-44) = 512)%R).
  { rewrite <- bpow_add. change (53 + -44) with 9. rewrite bpow_IZR by lia. reflexivity. }
  assert (Hnear : forall M : Z, IZR M = (IZR P / 2 * F64.bpow 44)%R ->
            (Rabs (v' / F64.bpow (-44) - IZR M) <= / 2)%R).
  { intros M HM. rewrite HM.
    replace (v' / F64.bpow (-44))%R with (v' * F64.bpow 44)%R
      by (change (-44) with (- (44)); rewrite bpow_opp; field; lra).
    replace (v' * F64.bpow 44 - IZR P / 2 * F64.bpow 44)%R
      with ((F64.to_R t - v) / 2 * F64.bpow 44)%R by (unfold v', v; field).
    apply Rabs_le. split; nra. }
  assert (Hfin : forall M : Z, 2 ^ 52 <= M < 2 ^ 53 -> Z.even M = true ->
            IZR M = (IZR P / 2 * F64.bpow 44)%R ->
            sum = S754_finite false (Z.to_pos M) (-44)).
  { intros M HM Hev HMv. apply (rounds_to v' sum M (-44) Rs HM).
    - rewrite B8, B9. unfold v', v in *. lra.
    - destruct (Rle_lt_or_eq_dec _ _ (Hnear M HMv)) as [Hlt | Heq];
        [left; exact Hlt | right; split; [exact Heq | exact Hev]]. }
  assert (B44i : F64.bpow 44 = IZR (2 ^ 44)) by (apply bpow_IZR; lia).
  destruct HP as [-> | ->].
  - rewrite (Hfin (306 * 2 ^ 44)).
    + vm_compute. reflexivity.
    + vm_compute. split; [discriminate | reflexivity].
    + reflexivity.
    + rewrite mult_IZR, B44i. lra.
  - rewrite (Hfin (396 * 2 ^ 44)).
    + vm_compute. reflexivity.
    + vm_compute. split; [discriminate | reflexivity].
    + reflexivity.
    + rewrite mult_IZR, B44i. lra.
Qed.

End PlacementFacts.

(* ------------------------------------------------------------------ *)
(** * Transparency *)

Module FlattenFacts.
Import App.

(** [channel_on_white] and [over_white] agree on every 8-bit channel and
    every alpha from 1: the 255 x 256 cases are run. *)
Lemma channel_table :
  forallb (fun a =>
    forallb (fun s =>
      PIL.channel_on_white (Z.of_nat s) (Z.of_nat (S a))
      =? PIL.over_white (Z.of_nat s) (Z.of_nat (S a)))
    (seq 0 256))
  (seq 0 255) = true.
Proof. vm_compute. reflexivity. Qed.

(** Pillow's integer arithmetic computes the rounded source-over. *)
Lemma channel_on_white_exact (s a : Z) :
  PIL.byte s -> 1 <= a <= 255 ->
  PIL.channel_on_white s a = PIL.over_white s a.
Proof.
  intros [Hs0 Hs1] [Ha0 Ha1].
  pose proof (proj1 (forallb_forall _ _) channel_table) as H.
  assert (Hin : In (Z.to_nat (a - 1)) (seq 0 255)) by (apply in_seq; lia).
  apply H in Hin.
  pose proof (proj1 (forallb_forall _ _) Hin) as H'.
  assert (Hin' : In (Z.to_nat s) (seq 0 256)) by (apply in_seq; lia).
  apply H' in Hin'.
  replace (Z.of_nat (S (Z.to_nat (a - 1)))) with a in Hin' by lia.
  replace (Z.of_nat (Z.to_nat s)) with s in Hin' by lia.
  now apply Z.eqb_eq.
Qed.

(** The three channels of a pixel composited on white. *)
Lemma composite_on_white (p : PIL.pixel) :
  PIL.byte_pixel p ->
  PIL.composite_pixel PIL.white p
  = PIL.Pixel (PIL.over_white (PIL.red p) (PIL.alpha p))
              (PIL.over_white (PIL.green p) (PIL.alpha p))
              (PIL.over_white (PIL.blue p) (PIL.alpha p))
              255.
Proof.
  intros (Hr & Hg & Hb & Ha). destruct p as [r g b a]. cbn [PIL.red PIL.green
    PIL.blue PIL.alpha] in *.
  destruct (Z.eq_dec a 0) as [-> | Hnz].
  - unfold PIL.over_white. rewrite !Z.mul_0_r. reflexivity.
  - assert (Ha' : 1 <= a <= 255) by (unfold PIL.byte in Ha; lia).
    rewrite <- (channel_on_white_exact r a Hr Ha').
    rewrite <- (channel_on_white_exact g a Hg Ha').
    rewrite <- (channel_on_white_exact b a Hb Ha').
    unfold PIL.channel_on_white, PIL.composite_pixel.
    cbn [PIL.red PIL.green PIL.blue PIL.alpha PIL.white].
    destruct (Z.eqb_spec a 0) as [E | _]; [contradiction |].
    cbn [PIL.red]. f_equal.
    replace (a * 255 + 255 * (255 - a)) with 65025 by lia. reflexivity.
Qed.

Lemma over_white_clear (s : Z) : PIL.over_white s 0 = 255.
Proof. unfold PIL.over_white. rewrite Z.mul_0_r. reflexivity. Qed.

Lemma over_white_solid (s : Z) : PIL.byte s -> PIL.over_white s 255 = s.
Proof.
  intros [H0 H1]. unfold PIL.over_white.
  replace (2 * (s * 255 + 255 * (255 - 255)) + 255) with (s * 510 + 255) by lia.
  rewrite Z.div_add_l by lia. change (255 / 510) with 0. lia.
Qed.

(** The test of line 301, read on the mode and the [info] keys. *)
Lemma has_transparency_iff (img : PIL.Image) :
  has_transparency img = true
  <-> PIL.mode img = "RGBA" \/ PIL.mode img = "LA"
      \/ (PIL.mode img = "P" /\ In "transparency" (PIL.info img)).
Proof.
  unfold has_transparency, Py.contains. cbn [existsb].
  rewrite !orb_true_iff, andb_true_iff, existsb_exists.
  rewrite !String.eqb_eq. split.
  - intros [[H | [H | H]] | [H (k & Hin & Hk)]]; auto; try discriminate.
    apply String.eqb_eq in Hk. subst k. auto.
  - intros [H | [H | [H Hin]]]; auto.
    right. split; [exact H |]. exists "transparency". split; [exact Hin |].
    apply String.eqb_refl.
Qed.

Lemma flatten_mode (img : PIL.Image) : PIL.mode (flatten img) = "RGB".
Proof. unfold flatten. destruct (has_transparency img); reflexivity. Qed.

Lemma flatten_size (img : PIL.Image) : PIL.size (flatten img) = PIL.size img.
Proof. unfold flatten. destruct (has_transparency img); reflexivity. Qed.

Lemma flatten_opaque (img : PIL.Image) (x y : Z) :
  PIL.alpha (PIL.getpixel (flatten img) x y) = 255.
Proof. unfold flatten. destruct (has_transparency img); reflexivity. Qed.

Lemma flatten_composited (img : PIL.Image) (x y : Z) :
  has_transparency img = true ->
  PIL.getpixel (flatten img) x y
  = PIL.opaque (PIL.composite_pixel PIL.white (PIL.getpixel img x y)).
Proof. intros H. unfold flatten. rewrite H. reflexivity. Qed.

Lemma flatten_direct (img : PIL.Image) (x y : Z) :
  has_transparency img = false ->
  PIL.getpixel (flatten img) x y = PIL.opaque (PIL.getpixel img x y).
Proof. intros H. unfold flatten. rewrite H. reflexivity. Qed.

End FlattenFacts.

(* ------------------------------------------------------------------ *)
(** * One image *)

Module ImageFacts.
Import App.

Section WithEnv.
Variable env : Env.

Lemma page_size_for_cases (img : PIL.Image) :
  page_size_for img = portrait_size \/ page_size_for img = landscape_size.
Proof.
  unfold page_size_for.
  destruct (PIL.height img >=? PIL.width img); [left | right]; reflexivity.
Qed.

Lemma page_size_for_eta (img : PIL.Image) :
  page_size_for img = (page_w img, page_h img).
Proof. unfold page_w, page_h. destruct (page_size_for img); reflexivity. Qed.

Lemma truediv_nonzero (a b : Z) :
  b <> 0 -> Py.truediv a b = Ok (F64.div (F64.of_int a) (F64.of_int b)).
Proof.
  intros Hb. unfold Py.truediv.
  destruct (Z.eqb_spec b 0); [contradiction | reflexivity].
Qed.

Lemma truediv_zero (a : Z) : Py.truediv a 0 = Raise Py.ZeroDivisionError.
Proof. reflexivity. Qed.

(** The image cannot be loaded: nothing but the call is left behind. *)
Lemma process_image_load_raise (p : string) (e : exn) (st : State) :
  load env p = Raise e ->
  process_image env p st
  = (Raise e, with_log (log st ++ [Image_open_call p]) st).
Proof.
  unfold load, process_image, bind, emit, lift. intros H. cbn.
  destruct (Image_open env p) as [raw | e1]; cbn.
  - destruct (exif_transpose env raw) as [img | e2]; cbn.
    + discriminate.
    + now inversion H.
  - now inversion H.
Qed.

(** A side of the image is zero: the page size has been set, then the
    division raises. *)
Lemma process_image_zero (p : string) (img : PIL.Image) (st : State) :
  load env p = Ok img ->
  PIL.width img = 0 \/ PIL.height img = 0 ->
  process_image env p st
  = (Raise Py.ZeroDivisionError,
     with_pdf (option_map (RL.setPageSize (page_size_for img)) (pdf st))
              (with_log (log st ++ [Image_open_call p]) st)).
Proof.
  unfold load, process_image, bind, emit, lift, on_pdf. intros H Hz. cbn.
  destruct (Image_open env p) as [raw | e1]; cbn; [| discriminate].
  destruct (exif_transpose env raw) as [img' | e2]; cbn; [| discriminate].
  inversion H; subst img; clear H.
  destruct (page_size_for (flatten img')) as [pw ph] eqn:Hps. cbn.
  destruct (Z.eq_dec (PIL.width (flatten img')) 0) as [Hw | Hw].
  - rewrite Hw, truediv_zero. reflexivity.
  - rewrite (truediv_nonzero _ _ Hw). cbn.
    destruct Hz as [Hz | Hz]; [contradiction |].
    rewrite Hz, truediv_zero. reflexivity.
Qed.

(** Both sides are non-zero: exactly one page is emitted. *)
Lemma process_image_ok (p : string) (img : PIL.Image) (st : State) :
  load env p = Ok img ->
  PIL.width img <> 0 -> PIL.height img <> 0 ->
  process_image env p st
  = (Ok tt,
     with_pdf (option_map (emit_page img) (pdf st))
              (with_log (log st ++ [Image_open_call p]) st)).
Proof.
  unfold load, process_image, bind, emit, lift, on_pdf. intros H Hw Hh. cbn.
  destruct (Image_open env p) as [raw | e1]; cbn; [| discriminate].
  destruct (exif_transpose env raw) as [img' | e2]; cbn; [| discriminate].
  inversion H; subst img; clear H.
  unfold emit_page, x, y, new_w, new_h, scale, available_w, available_h,
    page_w, page_h.
  destruct (page_size_for (flatten img')) as [pw ph] eqn:Hps. cbn.
  rewrite (truediv_nonzero _ _ Hw). cbn.
  rewrite (truediv_nonzero _ _ Hh). cbn.
  destruct (pdf st); reflexivity.
Qed.

Lemma emit_page_pages (img : PIL.Image) (c : RL.Canvas) :
  RL.code c = [] ->
  RL.pages (emit_page img c) = (RL.pages c ++ [page_for img])%list.
Proof. intros Hc. unfold emit_page, page_for. cbn. now rewrite Hc. Qed.

Lemma emit_page_code (img : PIL.Image) (c : RL.Canvas) :
  RL.code (emit_page img c) = [].
Proof. reflexivity. Qed.

Lemma emit_page_filename (img : PIL.Image) (c : RL.Canvas) :
  RL.filename (emit_page img c) = RL.filename c.
Proof. reflexivity. Qed.

(** What the method draws for a path that loads to an image with two
    non-zero sides: one page, holding the image once. *)
Lemma process_image_draws (p : string) (img : PIL.Image) (st : State)
    (c : RL.Canvas) :
  load env p = Ok img ->
  PIL.width img <> 0 -> PIL.height img <> 0 ->
  pdf st = Some c -> RL.code c = [] ->
  fst (process_image env p st) = Ok tt
  /\ pdf (snd (process_image env p st)) = Some (emit_page img c)
  /\ RL.pages (emit_page img c)
     = (RL.pages c
        ++ [RL.mkPage (Some (page_w img, page_h img))
              [RL.InlineImage img (x img) (y img) (new_w img) (new_h img)]])%list.
Proof.
  intros Hl Hw Hh Hp Hc. rewrite (process_image_ok p img st Hl Hw Hh).
  cbn [fst snd with_pdf pdf]. rewrite Hp. cbn [option_map].
  split; [reflexivity |]. split; [reflexivity |].
  rewrite (emit_page_pages img c Hc). unfold page_for.
  now rewrite page_size_for_eta.
Qed.

End WithEnv.
End ImageFacts.

(* ------------------------------------------------------------------ *)
(** * The loop *)

Module LoopFacts.
Import App ImageFacts.

Lemma opened_app (l1 l2 : list event) :
  opened (l1 ++ l2) = (opened l1 ++ opened l2)%list.
Proof. apply flat_map_app. Qed.

Lemma saves_app (l1 l2 : list event) :
  saves (l1 ++ l2) = (saves l1 ++ saves l2)%list.
Proof. apply flat_map_app. Qed.

Lemma opened_cons (e : event) (l : list event) :
  opened (e :: l) = (opened [e] ++ opened l)%list.
Proof. cbn. now rewrite app_nil_r. Qed.

Lemma saves_cons (e : event) (l : list event) :
  saves (e :: l) = (saves [e] ++ saves l)%list.
Proof. cbn. now rewrite app_nil_r. Qed.

Lemma last_two {A} (l : list A) (a b d : A) : last (l ++ [a; b]) d = b.
Proof.
  change [a; b] with ([a] ++ [b])%list. rewrite app_assoc. apply last_last.
Qed.

Section WithEnv.
Variable env : Env.

Lemma opened_progress (total i : Z) (paths : list string) :
  opened (progress env total i paths) = paths.
Proof.
  revert i. induction paths as [| p rest IH]; intros i; cbn; [reflexivity |].
  now rewrite IH.
Qed.

Lemma saves_progress (total i : Z) (paths : list string) :
  saves (progress env total i paths) = [].
Proof.
  revert i. induction paths as [| p rest IH]; intros i; cbn; [reflexivity |].
  apply IH.
Qed.

Lemma progress_app (total i : Z) (l1 l2 : list string) :
  progress env total i (l1 ++ l2)
  = (progress env total i l1
     ++ progress env total (i + Z.of_nat (List.length l1)) l2)%list.
Proof.
  revert i. induction l1 as [| p rest IH]; intros i; cbn [progress app List.length].
  - now rewrite Z.add_0_r.
  - rewrite IH. cbn [app]. do 5 f_equal. lia.
Qed.

Lemma emit_pages_code (imgs : list PIL.Image) (c : RL.Canvas) :
  RL.code c = [] -> RL.code (emit_pages imgs c) = [].
Proof.
  revert c. induction imgs as [| img rest IH]; intros c Hc; cbn; [exact Hc |].
  apply IH. reflexivity.
Qed.

Lemma emit_pages_filename (imgs : list PIL.Image) (c : RL.Canvas) :
  RL.filename (emit_pages imgs c) = RL.filename c.
Proof.
  revert c. induction imgs as [| img rest IH]; intros c; cbn; [reflexivity |].
  now rewrite IH.
Qed.

Lemma emit_pages_pages (imgs : list PIL.Image) (c : RL.Canvas) :
  RL.code c = [] ->
  RL.pages (emit_pages imgs c) = (RL.pages c ++ map page_for imgs)%list.
Proof.
  revert c. induction imgs as [| img rest IH]; intros c Hc; cbn.
  - now rewrite app_nil_r.
  - unfold emit_pages in IH. rewrite IH by reflexivity.
    rewrite (emit_page_pages img c Hc), <- app_assoc. reflexivity.
Qed.

Lemma process_images_cons (total i : Z) (p : string) (rest : list string)
    (st : State) :
  process_images env total i (p :: rest) st
  = match process_image env p (announced env total i p st) with
    | (Ok _, st') => process_images env total (i + 1) rest st'
    | (Raise e, st') => (Raise e, st')
    end.
Proof. reflexivity. Qed.

Lemma announced_frame (total i : Z) (p : string) (st : State) :
  let st' := announced env total i p st in
  image_paths st' = image_paths st
  /\ output_pdf_name st' = output_pdf_name st
  /\ disk st' = disk st
  /\ pdf st' = pdf st
  /\ log st' = (log st ++ firstn 2 (progress env total i [p]))%list.
Proof. cbn. rewrite <- app_assoc. repeat split; reflexivity. Qed.

(** The state the loop reaches when every image renders. *)
Lemma process_images_ok (paths : list string) (imgs : list PIL.Image) :
  Forall2 (renders env) paths imgs ->
  forall (total i : Z) (st : State),
    let r := process_images env total i paths st in
    fst r = Ok tt
    /\ image_paths (snd r) = image_paths st
    /\ output_pdf_name (snd r) = output_pdf_name st
    /\ disk (snd r) = disk st
    /\ pdf (snd r) = option_map (emit_pages imgs) (pdf st)
    /\ log (snd r) = (log st ++ progress env total i paths)%list.
Proof.
  induction 1 as [| p img paths imgs [Hload [Hw Hh]] _ IH]; intros total i st.
  - cbn. rewrite app_nil_r. destruct (pdf st); repeat split; reflexivity.
  - cbn zeta. rewrite process_images_cons.
    destruct (announced_frame total i p st) as (A1 & A2 & A3 & A4 & A5).
    rewrite (process_image_ok env p img _ Hload) by lia.
    match goal with |- context [process_images env total (i + 1) paths ?s] =>
      specialize (IH total (i + 1) s) end.
    cbn zeta in IH. destruct IH as (H1 & H2 & H3 & H4 & H5 & H6).
    rewrite H1, H2, H3, H4, H5, H6. cbn [with_pdf with_log image_paths
      output_pdf_name disk pdf log].
    rewrite A1, A2, A3, A4, A5.
    repeat split; try reflexivity.
    + destruct (pdf st); reflexivity.
    + cbn [progress firstn app]. rewrite <- !app_assoc. reflexivity.
Qed.

(** The state the loop reaches when the images of [pre] render and the
    next path fails: the exception leaves the loop at once. *)
Lemma process_images_raise (pre : list string) (imgs : list PIL.Image)
    (p : string) (post : list string) (e : exn) :
  Forall2 (renders env) pre imgs ->
  fails env p e ->
  forall (total i : Z) (st : State),
    let r := process_images env total i (pre ++ p :: post) st in
    fst r = Raise e
    /\ image_paths (snd r) = image_paths st
    /\ output_pdf_name (snd r) = output_pdf_name st
    /\ disk (snd r) = disk st
    /\ option_map RL.pages (pdf (snd r))
       = option_map RL.pages (option_map (emit_pages imgs) (pdf st))
    /\ log (snd r) = (log st ++ progress env total i (pre ++ [p]))%list.
Proof.
  intros Hpre Hfail.
  induction Hpre as [| q img pre imgs [Hload [Hw Hh]] _ IH]; intros total i st.
  - cbn [app]. cbn zeta. rewrite process_images_cons.
    destruct (announced_frame total i p st) as (A1 & A2 & A3 & A4 & A5).
    destruct Hfail as [Hl | (img & Hl & Hz & ->)].
    + rewrite (process_image_load_raise env p e _ Hl).
      cbn [fst snd with_pdf with_log image_paths output_pdf_name disk pdf log].
      rewrite A1, A2, A3, A4, A5. cbn [progress firstn app].
      rewrite <- !app_assoc. destruct (pdf st); repeat split; reflexivity.
    + rewrite (process_image_zero env p img _ Hl Hz).
      cbn [fst snd with_pdf with_log image_paths output_pdf_name disk pdf log].
      rewrite A1, A2, A3, A4, A5. cbn [progress firstn app].
      rewrite <- !app_assoc. destruct (pdf st); repeat split; reflexivity.
  - cbn [app]. cbn zeta. rewrite process_images_cons.
    destruct (announced_frame total i q st) as (A1 & A2 & A3 & A4 & A5).
    rewrite (process_image_ok env q img _ Hload) by lia.
    match goal with |- context [process_images env total (i + 1) _ ?s] =>
      specialize (IH total (i + 1) s) end.
    cbn zeta in IH. destruct IH as (H1 & H2 & H3 & H4 & H5 & H6).
    rewrite H1, H2, H3, H4, H5, H6. cbn [with_pdf with_log image_paths
      output_pdf_name disk pdf log].
    rewrite A1, A2, A3, A4, A5.
    repeat split; try reflexivity.
    + destruct (pdf st); reflexivity.
    + cbn [progress firstn app]. rewrite <- !app_assoc. reflexivity.
Qed.

End WithEnv.
End LoopFacts.

(* ------------------------------------------------------------------ *)
(** * The method *)

Module RunFacts.
Import App ImageFacts LoopFacts.

Section WithEnv.
Variable env : Env.

(** Statements that leave the list of paths and the entry alone compose. *)
Lemma keeps_ret {A} (a : A) : keeps_selection (ret a).
Proof. intros st; split; reflexivity. Qed.

Lemma keeps_lift {A} (r : Res A) : keeps_selection (lift r).
Proof. intros st; split; reflexivity. Qed.

Lemma keeps_emit (e : event) : keeps_selection (emit e).
Proof. intros st; split; reflexivity. Qed.

Lemma keeps_set_status (s : string) : keeps_selection (set_status s).
Proof. intros st; split; reflexivity. Qed.

Lemma keeps_on_pdf (f : RL.Canvas -> RL.Canvas) : keeps_selection (on_pdf f).
Proof. intros st; split; reflexivity. Qed.

Lemma keeps_bind {A B} (c : M A) (k : A -> M B) :
  keeps_selection c -> (forall a, keeps_selection (k a)) ->
  keeps_selection (bind c k).
Proof.
  intros Hc Hk st. unfold bind. specialize (Hc st).
  destruct (c st) as [[a | e] st1]; cbn [snd] in *.
  - destruct (Hk a st1) as [K1 K2]. rewrite K1, K2. exact Hc.
  - exact Hc.
Qed.

Lemma keeps_try_except (body : M unit) (handler : exn -> M unit) :
  keeps_selection body -> (forall e, keeps_selection (handler e)) ->
  keeps_selection (try_except body handler).
Proof.
  intros Hb Hh st. unfold try_except. specialize (Hb st).
  destruct (body st) as [[a | e] st1]; cbn [snd] in *.
  - exact Hb.
  - destruct (Hh e st1) as [K1 K2]. rewrite K1, K2. exact Hb.
Qed.

Create HintDb keeps.
#[local] Hint Resolve keeps_ret keeps_lift keeps_emit keeps_set_status
  keeps_on_pdf : keeps.

Ltac keeps :=
  repeat first
    [ solve [auto with keeps]
    | apply keeps_bind; [| intros ?] ].

Lemma keeps_process_image (p : string) : keeps_selection (process_image env p).
Proof.
  unfold process_image. keeps.
  destruct (page_size_for _) as [pw ph]. keeps.
Qed.
#[local] Hint Resolve keeps_process_image : keeps.

Lemma keeps_process_images (total i : Z) (paths : list string) :
  keeps_selection (process_images env total i paths).
Proof.
  revert i. induction paths as [| p rest IH]; intros i; cbn [process_images].
  - apply keeps_ret.
  - keeps.
Qed.
#[local] Hint Resolve keeps_process_images : keeps.

Lemma keeps_save : keeps_selection (save env).
Proof.
  intros st. unfold save. destruct (pdf st) as [c |]; [| split; reflexivity].
  destruct (save_error env (RL.filename c)); split; reflexivity.
Qed.
#[local] Hint Resolve keeps_save : keeps.

Lemma keeps_convert_body (save_path : string) :
  keeps_selection (convert_body env save_path).
Proof.
  intros st. unfold convert_body.
  match goal with |- context [bind ?c ?k ?s] =>
    assert (H : keeps_selection (bind c k)) end.
  { keeps. }
  apply (H (with_pdf _ st)).
Qed.

Lemma keeps_convert_handler (e : exn) : keeps_selection (convert_handler e).
Proof. unfold convert_handler. keeps. Qed.

Lemma keeps_convert_images_to_pdf : keeps_selection (convert_images_to_pdf env).
Proof.
  intros st. unfold convert_images_to_pdf.
  destruct (image_paths st) as [| p0 rest] eqn:Hp.
  - cbn. now rewrite Hp.
  - destruct (asksaveasfilename env (initialfile st)) as [| ch sp] eqn:Hs.
    + cbn. now rewrite Hp.
    + match goal with |- context [try_except ?b ?h ?s] =>
        destruct (keeps_try_except b h (keeps_convert_body _)
                    keeps_convert_handler s) as [K1 K2] end.
      rewrite K1, K2. cbn. now rewrite Hp.
Qed.

(** The three ways through the method. *)
Lemma convert_empty (st : State) :
  image_paths st = [] ->
  convert_images_to_pdf env st
  = (Ok tt,
     with_log (log st ++ [showwarning "No images"
                            "Please select at least one image."]) st).
Proof. intros H. unfold convert_images_to_pdf. now rewrite H. Qed.

Lemma convert_cancel (st : State) :
  image_paths st <> [] ->
  asksaveasfilename env (initialfile st) = "" ->
  convert_images_to_pdf env st
  = (Ok tt, with_log (log st ++ [asksaveasfilename_call (initialfile st)]) st).
Proof.
  intros Hne Hc. unfold convert_images_to_pdf.
  destruct (image_paths st); [contradiction |]. now rewrite Hc.
Qed.

Lemma convert_run (st : State) :
  image_paths st <> [] ->
  asksaveasfilename env (initialfile st) <> "" ->
  convert_images_to_pdf env st
  = try_except (convert_body env (asksaveasfilename env (initialfile st)))
               convert_handler
               (with_log (log st ++ [asksaveasfilename_call (initialfile st)]) st).
Proof.
  intros Hne Hc. unfold convert_images_to_pdf.
  destruct (image_paths st); [contradiction |].
  destruct (asksaveasfilename env (initialfile st)); [contradiction | reflexivity].
Qed.

(** [save] on a canvas between two pages. *)
Lemma save_ok (st : State) (c : RL.Canvas) :
  pdf st = Some c -> RL.code c = [] ->
  save_error env (RL.filename c) = None ->
  save env st
  = (Ok tt,
     with_disk ((RL.filename c, RL.pages c) :: disk st)
       (with_pdf (Some c)
          (with_log (log st ++ [save_call (RL.filename c)]) st))).
Proof.
  intros Hp Hc He. unfold save. rewrite Hp, He.
  unfold RL.finished. rewrite Hc. reflexivity.
Qed.

Lemma bind_ok {A B} (c : M A) (k : A -> M B) (st st1 : State) (a : A) :
  c st = (Ok a, st1) -> bind c k st = k a st1.
Proof. intros H. unfold bind. now rewrite H. Qed.

Lemma bind_raise {A B} (c : M A) (k : A -> M B) (st st1 : State) (e : exn) :
  c st = (Raise e, st1) -> bind c k st = (Raise e, st1).
Proof. intros H. unfold bind. now rewrite H. Qed.

(** A run in which every image renders and the destination is writable. *)
Lemma convert_body_ok (save_path : string) (imgs : list PIL.Image) (st : State) :
  Forall2 (renders env) (image_paths st) imgs ->
  save_error env save_path = None ->
  let r := convert_body env save_path st in
  fst r = Ok tt
  /\ disk (snd r) = (save_path, map page_for imgs) :: disk st
  /\ status_text (snd r) = "Done. Saved: " ++ basename env save_path
  /\ log (snd r)
     = (log st
        ++ progress env (Z.of_nat (List.length (image_paths st))) 1 (image_paths st)
        ++ [save_call save_path;
            status_set ("Done. Saved: " ++ basename env save_path);
            showinfo "Success" ("PDF created successfully:" ++ nl ++ save_path)])%list.
Proof.
  intros Hall Hsave. cbn zeta. unfold convert_body.
  set (s0 := with_pdf (Some (RL.new save_path)) st).
  change (image_paths s0) with (image_paths st).
  set (total := Z.of_nat (List.length (image_paths st))).
  destruct (process_images_ok env _ imgs Hall total 1 s0)
    as (P1 & _ & _ & P4 & P5 & P6).
  destruct (process_images env total 1 (image_paths st) s0) as [r1 st1] eqn:E.
  cbn [fst snd] in *. subst r1. cbn [s0 with_pdf pdf option_map log disk] in *.
  assert (Hc : RL.code (emit_pages imgs (RL.new save_path)) = [])
    by (apply emit_pages_code; reflexivity).
  assert (Hf : RL.filename (emit_pages imgs (RL.new save_path)) = save_path)
    by (rewrite emit_pages_filename; reflexivity).
  rewrite (bind_ok _ _ _ _ _ E).
  assert (Hs : save_error env (RL.filename (emit_pages imgs (RL.new save_path)))
               = None) by (rewrite Hf; exact Hsave).
  rewrite (bind_ok _ _ _ _ _ (save_ok st1 _ P5 Hc Hs)).
  cbn [bind set_status emit fst snd with_disk with_pdf with_log with_status
       image_paths output_pdf_name status_text pdf disk log].
  rewrite Hf, P4, P6, emit_pages_pages by reflexivity. cbn [RL.new RL.pages app].
  rewrite <- !app_assoc. repeat split; reflexivity.
Qed.

(** A run in which the images of [pre] render and the next one fails. *)
Lemma convert_body_raise (save_path : string) (pre : list string)
    (imgs : list PIL.Image) (p : string) (post : list string) (e : exn)
    (st : State) :
  image_paths st = (pre ++ p :: post)%list ->
  Forall2 (renders env) pre imgs ->
  fails env p e ->
  let r := convert_body env save_path st in
  fst r = Raise e
  /\ disk (snd r) = disk st
  /\ option_map RL.pages (pdf (snd r)) = Some (map page_for imgs)
  /\ log (snd r)
     = (log st
        ++ progress env (Z.of_nat (List.length (image_paths st))) 1 (pre ++ [p]))%list.
Proof.
  intros Hpaths Hpre Hfail. cbn zeta. unfold convert_body.
  set (s0 := with_pdf (Some (RL.new save_path)) st).
  change (image_paths s0) with (image_paths st).
  set (total := Z.of_nat (List.length (image_paths st))).
  rewrite Hpaths.
  destruct (process_images_raise env pre imgs p post e Hpre Hfail total 1 s0)
    as (P1 & _ & _ & P4 & P5 & P6).
  destruct (process_images env total 1 (pre ++ p :: post) s0) as [r1 st1] eqn:E.
  cbn [fst snd] in *. subst r1. cbn [s0 with_pdf pdf option_map log disk] in *.
  rewrite (bind_raise _ _ _ _ _ E). cbn [fst snd].
  rewrite P4, P5, P6, emit_pages_pages by reflexivity.
  repeat split; reflexivity.
Qed.

(** The whole method, when every image renders and the destination is
    writable. *)
Lemma convert_images_ok (imgs : list PIL.Image) (st : State) :
  image_paths st <> [] ->
  Forall2 (renders env) (image_paths st) imgs ->
  asksaveasfilename env (initialfile st) <> "" ->
  save_error env (asksaveasfilename env (initialfile st)) = None ->
  let save_path := asksaveasfilename env (initialfile st) in
  let r := convert_images_to_pdf env st in
  fst r = Ok tt
  /\ disk (snd r) = (save_path, map page_for imgs) :: disk st
  /\ status_text (snd r) = "Done. Saved: " ++ basename env save_path
  /\ log (snd r)
     = (log st
        ++ asksaveasfilename_call (initialfile st)
        :: progress env (Z.of_nat (List.length (image_paths st))) 1 (image_paths st)
        ++ [save_call save_path;
            status_set ("Done. Saved: " ++ basename env save_path);
            showinfo "Success" ("PDF created successfully:" ++ nl ++ save_path)])%list.
Proof.
  intros Hne Hall Hask Hsave. cbn zeta. rewrite (convert_run st Hne Hask).
  set (s0 := with_log _ st).
  destruct (convert_body_ok (asksaveasfilename env (initialfile st)) imgs s0 Hall Hsave)
    as (B1 & B2 & B3 & B4).
  unfold try_except.
  destruct (convert_body env _ s0) as [r1 st1]. cbn [fst snd] in *. subst r1.
  cbn [fst snd]. rewrite B2, B3, B4. cbn [s0 with_log log disk image_paths].
  rewrite <- !app_assoc. repeat split; reflexivity.
Qed.

(** The whole method, when the images of [pre] render and the next one
    fails. *)
Lemma convert_images_raise (pre : list string) (imgs : list PIL.Image)
    (p : string) (post : list string) (e : exn) (st : State) :
  image_paths st = (pre ++ p :: post)%list ->
  Forall2 (renders env) pre imgs ->
  fails env p e ->
  asksaveasfilename env (initialfile st) <> "" ->
  let r := convert_images_to_pdf env st in
  fst r = Ok tt
  /\ disk (snd r) = disk st
  /\ option_map RL.pages (pdf (snd r)) = Some (map page_for imgs)
  /\ status_text (snd r) = "Error."
  /\ log (snd r)
     = (log st
        ++ asksaveasfilename_call (initialfile st)
        :: progress env (Z.of_nat (List.length (image_paths st))) 1 (pre ++ [p])
        ++ [status_set "Error.";
            showerror "Conversion failed"
              ("An error occurred:" ++ nl ++ exn_message e)])%list.
Proof.
  intros Hpaths Hpre Hfail Hask. cbn zeta.
  assert (Hne : image_paths st <> [])
    by (rewrite Hpaths; destruct pre; discriminate).
  rewrite (convert_run st Hne Hask).
  set (s0 := with_log _ st).
  destruct (convert_body_raise (asksaveasfilename env (initialfile st))
              pre imgs p post e s0 Hpaths Hpre Hfail) as (B1 & B2 & B3 & B4).
  unfold try_except.
  destruct (convert_body env _ s0) as [r1 st1]. cbn [fst snd] in *. subst r1.
  cbn [convert_handler bind set_status emit fst snd with_log with_status
       image_paths output_pdf_name status_text pdf disk log].
  rewrite B2, B3, B4. cbn [s0 with_log log disk image_paths].
  rewrite <- !app_assoc. repeat split; reflexivity.
Qed.

End WithEnv.
End RunFacts.

(* ------------------------------------------------------------------ *)
(** * Properties of the conversion *)

Module Conversion.
Import App PlacementFacts FlattenFacts ImageFacts LoopFacts RunFacts.

Lemma page_for_shaped (img : PIL.Image) : shaped img (page_for img).
Proof.
  unfold shaped, page_for, page_size_for. cbn.
  destruct (Z.geb_spec (PIL.height img) (PIL.width img)); split; intros;
    first [reflexivity | lia].
Qed.

Lemma pages_shaped (imgs : list PIL.Image) :
  Forall2 shaped imgs (map page_for imgs).
Proof.
  induction imgs as [| img rest IH]; cbn; constructor;
    [apply page_for_shaped | exact IH].
Qed.

(** C1.  In a run that succeeds, the page of every flattened image is
    portrait (612 x 792) when the image is at least as high as wide and
    landscape (792 x 612) otherwise, a square image getting portrait; the
    rule is applied image by image, so images of 800x600, 600x800 and
    800x800 give a landscape, a portrait and a portrait page in that
    order. *)
Theorem pages_follow_image_shape (env : Env) (st : State) (imgs : list PIL.Image) :
  image_paths st <> [] ->
  Forall2 (renders env) (image_paths st) imgs ->
  asksaveasfilename env (initialfile st) <> "" ->
  save_error env (asksaveasfilename env (initialfile st)) = None ->
  exists pages : list RL.Page,
    disk (snd (convert_images_to_pdf env st))
    = (asksaveasfilename env (initialfile st), pages) :: disk st
    /\ Forall2 shaped imgs pages
    /\ Forall2 (fun img pg => PIL.width img = PIL.height img ->
                              RL.page_size pg = Some portrait_size) imgs pages
    /\ (map PIL.size imgs = [(800, 600); (600, 800); (800, 800)] ->
        map RL.page_size pages
        = [Some landscape_size; Some portrait_size; Some portrait_size]).
Proof.
  intros Hne Hall Hask Hsave.
  destruct (convert_images_ok env imgs st Hne Hall Hask Hsave) as (_ & Hd & _).
  exists (map page_for imgs). split; [exact Hd |]. split; [apply pages_shaped |].
  split.
  - clear. induction imgs as [| img rest IH]; cbn [map]; constructor; [| exact IH].
    intros Heq. unfold page_for, page_size_for. cbn [RL.page_size].
    destruct (Z.geb_spec (PIL.height img) (PIL.width img)); [reflexivity | lia].
  - intros Hsizes.
    destruct imgs as [| i1 [| i2 [| i3 [| i4 rest]]]]; try discriminate.
    cbn in Hsizes. unfold PIL.size in Hsizes.
    injection Hsizes as W1 H1 W2 H2 W3 H3.
    cbn. unfold page_size_for. rewrite W1, H1, W2, H2, W3, H3. reflexivity.
Qed.

Lemma pages_follow_image_shape_witness :
  exists pages : list RL.Page,
    disk (snd (convert_images_to_pdf Sample.env
                 (Sample.selected ["wide.png"; "tall.png"; "square.png"])))
    = [("out.pdf", pages)]
    /\ Forall2 shaped
         [Sample.solid "RGB" [] 800 600 Sample.grey;
          Sample.solid "RGB" [] 600 800 Sample.grey;
          Sample.solid "RGB" [] 800 800 Sample.grey] pages
    /\ Forall2 (fun img pg => PIL.width img = PIL.height img ->
                              RL.page_size pg = Some portrait_size)
         [Sample.solid "RGB" [] 800 600 Sample.grey;
          Sample.solid "RGB" [] 600 800 Sample.grey;
          Sample.solid "RGB" [] 800 800 Sample.grey] pages
    /\ (map PIL.size
          [Sample.solid "RGB" [] 800 600 Sample.grey;
           Sample.solid "RGB" [] 600 800 Sample.grey;
           Sample.solid "RGB" [] 800 800 Sample.grey]
        = [(800, 600); (600, 800); (800, 800)] ->
        map RL.page_size pages
        = [Some landscape_size; Some portrait_size; Some portrait_size]).
Proof.
  apply (pages_follow_image_shape Sample.env
           (Sample.selected ["wide.png"; "tall.png"; "square.png"])).
  - discriminate.
  - repeat constructor; cbn; lia.
  - discriminate.
  - reflexivity.
Defined.

(** C2, as stated, fails: an image of 800 x 600 is at least as wide as
    high, and its page is landscape, not portrait. *)
Lemma wide_image_gets_landscape :
  let img := Sample.solid "RGB" [] 800 600 Sample.grey in
  PIL.width img >= PIL.height img
  /\ RL.page_size (page_for img) = Some landscape_size
  /\ RL.page_size (page_for img) <> Some portrait_size.
Proof. cbn. repeat split; [lia | discriminate]. Qed.

(** C2, amended.  The page emitted for a flattened image is portrait
    when the image is at least as high as wide, hence for a square image,
    and landscape when it is wider than high. *)
Theorem emitted_page_orientation (env : Env) (p : string) (img : PIL.Image)
    (st : State) (c : RL.Canvas) :
  load env p = Ok img -> nonempty img ->
  pdf st = Some c -> RL.code c = [] ->
  exists (c' : RL.Canvas) (pg : RL.Page),
    pdf (snd (process_image env p st)) = Some c'
    /\ RL.pages c' = (RL.pages c ++ [pg])%list
    /\ (PIL.height img >= PIL.width img -> RL.page_size pg = Some portrait_size)
    /\ (PIL.width img > PIL.height img -> RL.page_size pg = Some landscape_size)
    /\ (PIL.width img = PIL.height img -> RL.page_size pg = Some portrait_size).
Proof.
  intros Hl [Hw Hh] Hp Hc.
  rewrite (process_image_ok env p img st Hl) by lia.
  exists (emit_page img c), (page_for img). cbn [snd with_pdf pdf]. rewrite Hp.
  split; [reflexivity |]. split; [apply emit_page_pages; exact Hc |].
  unfold page_for, page_size_for. cbn [RL.page_size].
  destruct (Z.geb_spec (PIL.height img) (PIL.width img));
    repeat split; intros; first [reflexivity | lia].
Qed.

Lemma emitted_page_orientation_witness :
  exists (c' : RL.Canvas) (pg : RL.Page),
    pdf (snd (process_image Sample.env "wide.png" (Sample.running ["wide.png"])))
    = Some c'
    /\ RL.pages c' = (RL.pages (RL.new "out.pdf") ++ [pg])%list
    /\ (600 >= 800 -> RL.page_size pg = Some portrait_size)
    /\ (800 > 600 -> RL.page_size pg = Some landscape_size)
    /\ (800 = 600 -> RL.page_size pg = Some portrait_size).
Proof.
  apply (emitted_page_orientation Sample.env "wide.png"
           (Sample.solid "RGB" [] 800 600 Sample.grey)
           (Sample.running ["wide.png"]) (RL.new "out.pdf")).
  - reflexivity.
  - split; cbn; lia.
  - reflexivity.
  - reflexivity.
Defined.

(** C4, as stated, fails: for an image of width 0 no check runs before
    the scale computation.  The page size has been set when the division
    raises, and what is raised is [ZeroDivisionError], not an
    [InvalidImageError]. *)
Lemma zero_width_is_not_guarded :
  let r := process_image Sample.env "empty.png" (Sample.running ["empty.png"]) in
  Image_open Sample.env "empty.png" = Ok (Sample.solid "RGB" [] 0 10 Sample.grey)
  /\ fst r = Raise (Exn "ZeroDivisionError" "division by zero")
  /\ (forall msg, fst r <> Raise (Exn "InvalidImageError" msg))
  /\ option_map RL.pagesize (pdf (snd r)) = Some (Some portrait_size).
Proof. cbn. repeat split. intros msg. discriminate. Qed.

(** C4, amended.  An image with a zero side is not rejected by a check of
    its own: once the page size is set, the division of the scale
    computation raises [ZeroDivisionError]; the handler of the method
    catches it like any other exception, so the status reads "Error.",
    the error dialog shows "division by zero" and nothing is saved. *)
Theorem zero_side_raises_in_division (env : Env) (st : State)
    (pre : list string) (imgs : list PIL.Image) (p : string)
    (post : list string) (img : PIL.Image) :
  image_paths st = (pre ++ p :: post)%list ->
  Forall2 (renders env) pre imgs ->
  load env p = Ok img ->
  PIL.width img = 0 \/ PIL.height img = 0 ->
  asksaveasfilename env (initialfile st) <> "" ->
  (forall s : State,
     process_image env p s
     = (Raise Py.ZeroDivisionError,
        with_pdf (option_map (RL.setPageSize (page_size_for img)) (pdf s))
                 (with_log (log s ++ [Image_open_call p]) s)))
  /\ exn_class Py.ZeroDivisionError = "ZeroDivisionError"
  /\ let st' := snd (convert_images_to_pdf env st) in
     status_text st' = "Error."
     /\ last (log st') update_idletasks
        = showerror "Conversion failed"
            ("An error occurred:" ++ nl ++ "division by zero")
     /\ saves (log st') = saves (log st)
     /\ disk st' = disk st.
Proof.
  intros Hpaths Hpre Hl Hz Hask. split; [| split; [reflexivity |]].
  - intros s. exact (process_image_zero env p img s Hl Hz).
  - assert (Hfail : fails env p Py.ZeroDivisionError).
    { right. exists img. repeat split; assumption. }
    destruct (convert_images_raise env pre imgs p post _ st Hpaths Hpre Hfail Hask)
      as (_ & Hd & _ & Hs & Hlog).
    cbn zeta. rewrite Hs, Hd, Hlog. repeat split.
    + rewrite app_comm_cons, app_assoc. apply last_two.
    + rewrite saves_app, saves_cons, saves_app, saves_progress. cbn.
      now rewrite app_nil_r.
Qed.

Lemma zero_side_raises_in_division_witness :
  (forall s : State,
     process_image Sample.env "empty.png" s
     = (Raise Py.ZeroDivisionError,
        with_pdf (option_map
                    (RL.setPageSize
                       (page_size_for (Sample.solid "RGB" [] 0 10 Sample.grey)))
                    (pdf s))
                 (with_log (log s ++ [Image_open_call "empty.png"]) s)))
  /\ exn_class Py.ZeroDivisionError = "ZeroDivisionError"
  /\ let st' := snd (convert_images_to_pdf Sample.env
                       (Sample.selected ["wide.png"; "empty.png"; "tall.png"])) in
     status_text st' = "Error."
     /\ last (log st') update_idletasks
        = showerror "Conversion failed"
            ("An error occurred:" ++ nl ++ "division by zero")
     /\ saves (log st') = saves (log (Sample.selected
                                       ["wide.png"; "empty.png"; "tall.png"]))
     /\ disk st' = disk (Sample.selected ["wide.png"; "empty.png"; "tall.png"]).
Proof.
  apply (zero_side_raises_in_division Sample.env
           (Sample.selected ["wide.png"; "empty.png"; "tall.png"])
           ["wide.png"] [Sample.solid "RGB" [] 800 600 Sample.grey]
           "empty.png" ["tall.png"] (Sample.solid "RGB" [] 0 10 Sample.grey)).
  - reflexivity.
  - repeat constructor; cbn; lia.
  - reflexivity.
  - left. reflexivity.
  - discriminate.
Defined.

(** C6.  When the list is not empty, every image loads with two positive
    sides, a destination is chosen and can be written, the run writes one
    document at the destination; its pages are the pages of the images,
    one each, in the order of the list, and [save] is called once. *)
Theorem one_page_per_image (env : Env) (st : State) (imgs : list PIL.Image) :
  image_paths st <> [] ->
  Forall2 (renders env) (image_paths st) imgs ->
  asksaveasfilename env (initialfile st) <> "" ->
  save_error env (asksaveasfilename env (initialfile st)) = None ->
  let save_path := asksaveasfilename env (initialfile st) in
  let st' := snd (convert_images_to_pdf env st) in
  fst (convert_images_to_pdf env st) = Ok tt
  /\ disk st' = (save_path, map page_for imgs) :: disk st
  /\ List.length (map page_for imgs) = List.length (image_paths st)
  /\ opened (log st') = (opened (log st) ++ image_paths st)%list
  /\ saves (log st') = (saves (log st) ++ [save_path])%list
  /\ status_text st' = "Done. Saved: " ++ basename env save_path.
Proof.
  intros Hne Hall Hask Hsave.
  destruct (convert_images_ok env imgs st Hne Hall Hask Hsave)
    as (H1 & Hd & Hs & Hlog).
  cbn zeta in *. rewrite H1, Hd, Hs, Hlog. repeat split.
  - rewrite length_map. symmetry. exact (Forall2_length Hall).
  - rewrite opened_app, opened_cons, opened_app, opened_progress. cbn.
    now rewrite app_nil_r.
  - rewrite saves_app, saves_cons, saves_app, saves_progress. reflexivity.
Qed.

Lemma one_page_per_image_witness :
  let st := Sample.selected ["wide.png"; "tall.png"; "square.png"] in
  let imgs := [Sample.solid "RGB" [] 800 600 Sample.grey;
               Sample.solid "RGB" [] 600 800 Sample.grey;
               Sample.solid "RGB" [] 800 800 Sample.grey] in
  let st' := snd (convert_images_to_pdf Sample.env st) in
  fst (convert_images_to_pdf Sample.env st) = Ok tt
  /\ disk st' = ("out.pdf", map page_for imgs) :: disk st
  /\ List.length (map page_for imgs) = List.length (image_paths st)
  /\ opened (log st') = (opened (log st) ++ image_paths st)%list
  /\ saves (log st') = (saves (log st) ++ ["out.pdf"])%list
  /\ status_text st' = "Done. Saved: " ++ "out.pdf".
Proof.
  apply (one_page_per_image Sample.env
           (Sample.selected ["wide.png"; "tall.png"; "square.png"])
           [Sample.solid "RGB" [] 800 600 Sample.grey;
            Sample.solid "RGB" [] 600 800 Sample.grey;
            Sample.solid "RGB" [] 800 800 Sample.grey]).
  - discriminate.
  - repeat constructor; cbn; lia.
  - discriminate.
  - reflexivity.
Defined.

(** C7.  When the images before [p] render and [p] cannot be loaded or
    processed, the run stops there: [Image.open] has been called on the
    paths up to [p], once each, and on none after it; the canvas holds the
    pages of the images before [p] and no other; [save] is not called and
    nothing is written; the status reads "Error." and the exception is
    shown. *)
Theorem error_aborts_run (env : Env) (st : State) (pre : list string)
    (imgs : list PIL.Image) (p : string) (post : list string) (e : exn) :
  image_paths st = (pre ++ p :: post)%list ->
  Forall2 (renders env) pre imgs ->
  fails env p e ->
  asksaveasfilename env (initialfile st) <> "" ->
  let st' := snd (convert_images_to_pdf env st) in
  opened (log st') = (opened (log st) ++ pre ++ [p])%list
  /\ option_map RL.pages (pdf st') = Some (map page_for imgs)
  /\ List.length (map page_for imgs) = List.length pre
  /\ saves (log st') = saves (log st)
  /\ disk st' = disk st
  /\ status_text st' = "Error."
  /\ last (log st') update_idletasks
     = showerror "Conversion failed" ("An error occurred:" ++ nl ++ exn_message e).
Proof.
  intros Hpaths Hpre Hfail Hask.
  destruct (convert_images_raise env pre imgs p post e st Hpaths Hpre Hfail Hask)
    as (_ & Hd & Hp & Hs & Hlog).
  cbn zeta. rewrite Hd, Hp, Hs, Hlog. repeat split.
  - rewrite opened_app, opened_cons, opened_app, opened_progress. cbn.
    now rewrite app_nil_r.
  - rewrite length_map. symmetry. exact (Forall2_length Hpre).
  - rewrite saves_app, saves_cons, saves_app, saves_progress. cbn.
    now rewrite app_nil_r.
  - rewrite app_comm_cons, app_assoc. apply last_two.
Qed.

Lemma error_aborts_run_witness :
  let st := Sample.selected ["wide.png"; "missing.png"; "tall.png"] in
  let st' := snd (convert_images_to_pdf Sample.env st) in
  opened (log st') = (opened (log st) ++ ["wide.png"] ++ ["missing.png"])%list
  /\ option_map RL.pages (pdf st')
     = Some (map page_for [Sample.solid "RGB" [] 800 600 Sample.grey])
  /\ List.length (map page_for [Sample.solid "RGB" [] 800 600 Sample.grey])
     = List.length ["wide.png"]
  /\ saves (log st') = saves (log st)
  /\ disk st' = disk st
  /\ status_text st' = "Error."
  /\ last (log st') update_idletasks
     = showerror "Conversion failed"
         ("An error occurred:" ++ nl
          ++ exn_message (Exn "FileNotFoundError"
                            "No such file or directory: missing.png")).
Proof.
  apply (error_aborts_run Sample.env
           (Sample.selected ["wide.png"; "missing.png"; "tall.png"])
           ["wide.png"] [Sample.solid "RGB" [] 800 600 Sample.grey]
           "missing.png" ["tall.png"]
           (Exn "FileNotFoundError" "No such file or directory: missing.png")).
  - reflexivity.
  - repeat constructor; cbn; lia.
  - left. reflexivity.
  - discriminate.
Defined.

(** C8.  With an empty list the method shows its warning and returns:
    the Save As dialog is not opened, no canvas is created, no image is
    opened, no page is added and nothing is written. *)
Theorem empty_selection_is_rejected (env : Env) (st : State) :
  image_paths st = [] ->
  let r := convert_images_to_pdf env st in
  fst r = Ok tt
  /\ log (snd r)
     = (log st ++ [showwarning "No images" "Please select at least one image."])%list
  /\ pdf (snd r) = pdf st
  /\ disk (snd r) = disk st
  /\ opened (log (snd r)) = opened (log st)
  /\ saves (log (snd r)) = saves (log st)
  /\ status_text (snd r) = status_text st.
Proof.
  intros Hp. cbn zeta. rewrite (convert_empty env st Hp).
  cbn [fst snd with_log log pdf disk status_text].
  rewrite opened_app, saves_app. cbn. rewrite !app_nil_r.
  repeat split; reflexivity.
Qed.

Lemma empty_selection_is_rejected_witness :
  let r := convert_images_to_pdf Sample.env (Sample.selected []) in
  fst r = Ok tt
  /\ log (snd r)
     = (log (Sample.selected [])
        ++ [showwarning "No images" "Please select at least one image."])%list
  /\ pdf (snd r) = pdf (Sample.selected [])
  /\ disk (snd r) = disk (Sample.selected [])
  /\ opened (log (snd r)) = opened (log (Sample.selected []))
  /\ saves (log (snd r)) = saves (log (Sample.selected []))
  /\ status_text (snd r) = status_text (Sample.selected []).
Proof.
  apply (empty_selection_is_rejected Sample.env (Sample.selected [])).
  reflexivity.
Defined.

(** C10.  Whatever the list, the files and the answers of the user, a
    run ends with the list of paths it started with, in the same order,
    and with the name entry untouched: when it succeeds, when an image or
    the saving raises, when the dialog is cancelled and when the list is
    empty. *)
Theorem selection_is_unchanged (env : Env) (st : State) :
  image_paths (snd (convert_images_to_pdf env st)) = image_paths st
  /\ output_pdf_name (snd (convert_images_to_pdf env st)) = output_pdf_name st.
Proof. exact (keeps_convert_images_to_pdf env st). Qed.

(** C5, as stated, fails: a palette image with an alpha band ("PA") has
    an alpha channel, yet line 301 sends it to the plain conversion; its
    fully transparent pixel keeps the colour of the palette and does not
    become white. *)
Lemma palette_alpha_is_not_composited :
  PIL.has_alpha_channel Sample.clear_palette = true
  /\ PIL.alpha (PIL.getpixel Sample.clear_palette 0 0) = 0
  /\ has_transparency Sample.clear_palette = false
  /\ PIL.getpixel (flatten Sample.clear_palette) 0 0 = PIL.Pixel 10 20 30 255
  /\ PIL.getpixel (flatten Sample.clear_palette) 0 0 <> PIL.white.
Proof. repeat split. discriminate. Qed.

(** C5, amended.  Flattening always gives an "RGB" image of the same
    size whose pixels are all opaque.  When the mode is "RGBA" or "LA",
    or the mode is "P" and [info] has a "transparency" entry, every pixel
    is the rounded source-over of the image on opaque white with the
    alpha dropped, so that a fully transparent pixel becomes pure white
    and a fully opaque one keeps its colour; in every other case the
    image is converted to "RGB" directly. *)
Theorem flatten_gives_opaque_rgb (img : PIL.Image) :
  (forall x y, PIL.byte_pixel (PIL.getpixel img x y)) ->
  PIL.mode (flatten img) = "RGB"
  /\ PIL.size (flatten img) = PIL.size img
  /\ (forall x y, PIL.alpha (PIL.getpixel (flatten img) x y) = 255)
  /\ ((PIL.mode img = "RGBA" \/ PIL.mode img = "LA"
       \/ (PIL.mode img = "P" /\ In "transparency" (PIL.info img))) ->
      forall x y,
        let src := PIL.getpixel img x y in
        let out := PIL.getpixel (flatten img) x y in
        out = PIL.Pixel (PIL.over_white (PIL.red src) (PIL.alpha src))
                        (PIL.over_white (PIL.green src) (PIL.alpha src))
                        (PIL.over_white (PIL.blue src) (PIL.alpha src))
                        255
        /\ (PIL.alpha src = 0 -> out = PIL.white)
        /\ (PIL.alpha src = 255 -> out = PIL.opaque src))
  /\ (~ (PIL.mode img = "RGBA" \/ PIL.mode img = "LA"
         \/ (PIL.mode img = "P" /\ In "transparency" (PIL.info img))) ->
      flatten img = PIL.convert "RGB" img
      /\ forall x y,
           PIL.getpixel (flatten img) x y = PIL.opaque (PIL.getpixel img x y)).
Proof.
  intros Hbytes.
  split; [apply flatten_mode |]. split; [apply flatten_size |].
  split; [apply flatten_opaque |]. split.
  - intros Hgate x y. apply has_transparency_iff in Hgate. cbn zeta.
    rewrite (flatten_composited img x y Hgate).
    rewrite (composite_on_white _ (Hbytes x y)). cbn [PIL.opaque PIL.red
      PIL.green PIL.blue PIL.alpha].
    destruct (Hbytes x y) as (Hr & Hg & Hb & _).
    split; [reflexivity |]. split; intros Ha; rewrite Ha.
    + now rewrite !over_white_clear.
    + now rewrite !over_white_solid.
  - intros Hgate. rewrite <- has_transparency_iff in Hgate.
    apply not_true_is_false in Hgate. split.
    + unfold flatten. now rewrite Hgate.
    + intros x y. apply flatten_direct. exact Hgate.
Qed.

Lemma flatten_gives_opaque_rgb_witness :
  PIL.mode (flatten Sample.veil) = "RGB"
  /\ PIL.size (flatten Sample.veil) = PIL.size Sample.veil
  /\ (forall x y, PIL.alpha (PIL.getpixel (flatten Sample.veil) x y) = 255)
  /\ ((PIL.mode Sample.veil = "RGBA" \/ PIL.mode Sample.veil = "LA"
       \/ (PIL.mode Sample.veil = "P"
           /\ In "transparency" (PIL.info Sample.veil))) ->
      forall x y,
        let src := PIL.getpixel Sample.veil x y in
        let out := PIL.getpixel (flatten Sample.veil) x y in
        out = PIL.Pixel (PIL.over_white (PIL.red src) (PIL.alpha src))
                        (PIL.over_white (PIL.green src) (PIL.alpha src))
                        (PIL.over_white (PIL.blue src) (PIL.alpha src))
                        255
        /\ (PIL.alpha src = 0 -> out = PIL.white)
        /\ (PIL.alpha src = 255 -> out = PIL.opaque src))
  /\ (~ (PIL.mode Sample.veil = "RGBA" \/ PIL.mode Sample.veil = "LA"
         \/ (PIL.mode Sample.veil = "P"
             /\ In "transparency" (PIL.info Sample.veil))) ->
      flatten Sample.veil = PIL.convert "RGB" Sample.veil
      /\ forall x y,
           PIL.getpixel (flatten Sample.veil) x y
           = PIL.opaque (PIL.getpixel Sample.veil x y)).
Proof.
  apply (flatten_gives_opaque_rgb Sample.veil).
  intros x y. cbn. unfold PIL.byte_pixel, PIL.byte. cbn. lia.
Defined.

(** The two page geometries and their printable areas. *)
Lemma page_sides (img : PIL.Image) :
  (page_w img = 612 /\ page_h img = 792
   /\ available_w img = 540 /\ available_h img = 720)
  \/ (page_w img = 792 /\ page_h img = 612
      /\ available_w img = 720 /\ available_h img = 540).
Proof.
  unfold available_w, available_h, page_w, page_h, page_size_for.
  destruct (PIL.height img >=? PIL.width img); [left | right];
    repeat split; reflexivity.
Qed.

(** C3, as stated, fails in the arithmetic of the program: for an image
    of 1 x 169 the method draws a height of 720.0000000000001, above the
    printable height 720, and neither drawn side equals its printable
    side. *)
Lemma thin_image_exceeds_printable_height :
  let img := Sample.solid "RGB" [] 1 169 Sample.grey in
  available_w img = 540 /\ available_h img = 720
  /\ F64.ltb (F64.of_int (available_h img)) (new_h img) = true
  /\ F64.leb (new_h img) (F64.of_int (available_h img)) = false
  /\ F64.eqb (new_w img) (F64.of_int (available_w img)) = false
  /\ F64.eqb (new_h img) (F64.of_int (available_h img)) = false
  /\ load Sample.env "thin.png" = Ok img
  /\ option_map RL.pages
       (pdf (snd (process_image Sample.env "thin.png" (Sample.running ["thin.png"]))))
     = Some [RL.mkPage (Some (612, 792))
               [RL.InlineImage img (x img) (y img) (new_w img) (new_h img)]].
Proof. vm_compute. repeat split. Qed.

(** C3, amended.  For a path that loads to an image with positive
    sides, the method adds one page of size [pw] x [ph] holding the image
    once.  The scale is the [min] of the two quotients printable side /
    image side, the printable sides being [pw - 72] and [ph - 72], all
    computed in binary64, and the drawn sides are the image sides times
    that scale: the scale is the smaller exact ratio up to a relative
    [2^-51].  The scale and the drawn sides are finite positive numbers;
    each drawn side is at most its printable side times [1 + 2^-51], one
    of them is at least its printable side times [1 - 2^-51], and an
    image smaller than the printable area gets a scale above 1. *)
Theorem scale_fits_printable_area (env : Env) (p : string) (img : PIL.Image)
    (st : State) (c : RL.Canvas) :
  load env p = Ok img ->
  0 < PIL.width img < 2 ^ 53 ->
  0 < PIL.height img < 2 ^ 53 ->
  pdf st = Some c -> RL.code c = [] ->
  exists (c' : RL.Canvas) (pw ph : Z) (d : RL.drawing) (rw rh s : F64.float),
    (fst (process_image env p st) = Ok tt
     /\ pdf (snd (process_image env p st)) = Some c'
     /\ RL.pages c' = (RL.pages c ++ [RL.mkPage (Some (pw, ph)) [d]])%list
     /\ RL.image d = img)
    /\ (Py.truediv (pw - 72) (PIL.width img) = Ok rw
        /\ Py.truediv (ph - 72) (PIL.height img) = Ok rh
        /\ s = Py.min rw rh
        /\ RL.draw_width d = Py.mul_int_float (PIL.width img) s
        /\ RL.draw_height d = Py.mul_int_float (PIL.height img) s)
    /\ (F64.is_pos s = true
        /\ F64.is_pos (RL.draw_width d) = true
        /\ F64.is_pos (RL.draw_height d) = true)
    /\ (Rmin (IZR (pw - 72) / IZR (PIL.width img))
             (IZR (ph - 72) / IZR (PIL.height img)) * (1 - F64.eps)
        <= F64.to_R s
        <= Rmin (IZR (pw - 72) / IZR (PIL.width img))
                (IZR (ph - 72) / IZR (PIL.height img)) * (1 + F64.eps))%R
    /\ (F64.to_R (RL.draw_width d) <= IZR (pw - 72) * (1 + F64.eps))%R
    /\ (F64.to_R (RL.draw_height d) <= IZR (ph - 72) * (1 + F64.eps))%R
    /\ ((IZR (pw - 72) * (1 - F64.eps) <= F64.to_R (RL.draw_width d))%R
        \/ (IZR (ph - 72) * (1 - F64.eps) <= F64.to_R (RL.draw_height d))%R)
    /\ (PIL.width img < pw - 72 -> PIL.height img < ph - 72 ->
        (1 < F64.to_R s)%R).
Proof.
  intros Hl Hw Hh Hp Hc.
  assert (HA : 0 < available_w img <= 720)
    by (destruct (page_sides img) as [(_ & _ & -> & _) | (_ & _ & -> & _)]; lia).
  assert (HB : 0 < available_h img <= 720)
    by (destruct (page_sides img) as [(_ & _ & _ & ->) | (_ & _ & _ & ->)]; lia).
  destruct (process_image_draws env p img st c Hl ltac:(lia) ltac:(lia) Hp Hc)
    as (D1 & D2 & D3).
  exists (emit_page img c), (page_w img), (page_h img),
    (RL.InlineImage img (x img) (y img) (new_w img) (new_h img)),
    (F64.div (F64.of_int (available_w img)) (F64.of_int (PIL.width img))),
    (F64.div (F64.of_int (available_h img)) (F64.of_int (PIL.height img))),
    (scale img).
  replace (page_w img - 72) with (available_w img)
    by (unfold available_w, margin; lia).
  replace (page_h img - 72) with (available_h img)
    by (unfold available_h, margin; lia).
  cbn [RL.image RL.draw_width RL.draw_height].
  split; [repeat split; first [assumption | reflexivity] |].
  split.
  { repeat split.
    - apply truediv_nonzero. lia.
    - apply truediv_nonzero. lia. }
  split.
  { destruct (scale_nice _ _ _ _ Hw Hh HA HB) as (Ns & _).
    destruct (new_w_rounds _ _ _ _ Hw Hh HA HB) as [_ Nw].
    destruct (new_h_rounds _ _ _ _ Hw Hh HA HB) as [_ Nh].
    repeat split; apply Rounding.nice_is_pos; assumption. }
  split; [exact (scale_close _ _ _ _ Hw Hh HA HB) |].
  split; [exact (new_w_fits _ _ _ _ Hw Hh HA HB) |].
  split; [exact (new_h_fits _ _ _ _ Hw Hh HA HB) |].
  split; [exact (one_side_touches _ _ _ _ Hw Hh HA HB) |].
  exact (small_image_scaled_up _ _ _ _ Hw Hh HA HB).
Qed.

Lemma scale_fits_printable_area_witness :
  let env := Sample.env in
  let p := "thin.png" in
  let img := Sample.solid "RGB" [] 1 169 Sample.grey in
  let st := Sample.running ["thin.png"] in
  let c := RL.new "out.pdf" in
  exists (c' : RL.Canvas) (pw ph : Z) (d : RL.drawing) (rw rh s : F64.float),
    (fst (process_image env p st) = Ok tt
     /\ pdf (snd (process_image env p st)) = Some c'
     /\ RL.pages c' = (RL.pages c ++ [RL.mkPage (Some (pw, ph)) [d]])%list
     /\ RL.image d = img)
    /\ (Py.truediv (pw - 72) (PIL.width img) = Ok rw
        /\ Py.truediv (ph - 72) (PIL.height img) = Ok rh
        /\ s = Py.min rw rh
        /\ RL.draw_width d = Py.mul_int_float (PIL.width img) s
        /\ RL.draw_height d = Py.mul_int_float (PIL.height img) s)
    /\ (F64.is_pos s = true
        /\ F64.is_pos (RL.draw_width d) = true
        /\ F64.is_pos (RL.draw_height d) = true)
    /\ (Rmin (IZR (pw - 72) / IZR (PIL.width img))
             (IZR (ph - 72) / IZR (PIL.height img)) * (1 - F64.eps)
        <= F64.to_R s
        <= Rmin (IZR (pw - 72) / IZR (PIL.width img))
                (IZR (ph - 72) / IZR (PIL.height img)) * (1 + F64.eps))%R
    /\ (F64.to_R (RL.draw_width d) <= IZR (pw - 72) * (1 + F64.eps))%R
    /\ (F64.to_R (RL.draw_height d) <= IZR (ph - 72) * (1 + F64.eps))%R
    /\ ((IZR (pw - 72) * (1 - F64.eps) <= F64.to_R (RL.draw_width d))%R
        \/ (IZR (ph - 72) * (1 - F64.eps) <= F64.to_R (RL.draw_height d))%R)
    /\ (PIL.width img < pw - 72 -> PIL.height img < ph - 72 ->
        (1 < F64.to_R s)%R).
Proof.
  apply (scale_fits_printable_area Sample.env "thin.png"
           (Sample.solid "RGB" [] 1 169 Sample.grey)
           (Sample.running ["thin.png"]) (RL.new "out.pdf")).
  - reflexivity.
  - cbn. lia.
  - cbn. lia.
  - reflexivity.
  - reflexivity.
Defined.

(** C9.  For a path that loads to an image with positive sides, the
    method adds one page of size [pw] x [ph] holding the image once, drawn
    at the origin ((pw - drawn width) / 2, (ph - drawn height) / 2); in
    the arithmetic of the program the origin plus half the drawn side is
    exactly half the page side, on both axes. *)
Theorem image_is_centered (env : Env) (p : string) (img : PIL.Image)
    (st : State) (c : RL.Canvas) :
  load env p = Ok img ->
  0 < PIL.width img < 2 ^ 53 ->
  0 < PIL.height img < 2 ^ 53 ->
  pdf st = Some c -> RL.code c = [] ->
  exists (c' : RL.Canvas) (pw ph : Z) (d : RL.drawing),
    (fst (process_image env p st) = Ok tt
     /\ pdf (snd (process_image env p st)) = Some c'
     /\ RL.pages c' = (RL.pages c ++ [RL.mkPage (Some (pw, ph)) [d]])%list
     /\ RL.image d = img)
    /\ (RL.x d = Py.div_float_int (Py.sub_int_float pw (RL.draw_width d)) 2
        /\ RL.y d = Py.div_float_int (Py.sub_int_float ph (RL.draw_height d)) 2)
    /\ Py.truediv pw 2
       = Ok (F64.add (RL.x d) (Py.div_float_int (RL.draw_width d) 2))
    /\ Py.truediv ph 2
       = Ok (F64.add (RL.y d) (Py.div_float_int (RL.draw_height d) 2)).
Proof.
  intros Hl Hw Hh Hp Hc.
  assert (HA : 0 < available_w img <= 720)
    by (destruct (page_sides img) as [(_ & _ & -> & _) | (_ & _ & -> & _)]; lia).
  assert (HB : 0 < available_h img <= 720)
    by (destruct (page_sides img) as [(_ & _ & _ & ->) | (_ & _ & _ & ->)]; lia).
  destruct (process_image_draws env p img st c Hl ltac:(lia) ltac:(lia) Hp Hc)
    as (D1 & D2 & D3).
  exists (emit_page img c), (page_w img), (page_h img),
    (RL.InlineImage img (x img) (y img) (new_w img) (new_h img)).
  cbn [RL.image RL.x RL.y RL.draw_width RL.draw_height].
  split; [repeat split; first [assumption | reflexivity] |].
  destruct (new_w_rounds _ _ _ _ Hw Hh HA HB) as [_ Nw].
  destruct (new_h_rounds _ _ _ _ Hw Hh HA HB) as [_ Nh].
  pose proof (new_w_range _ _ _ _ Hw Hh HA HB) as [Wl Wu].
  pose proof (new_h_range _ _ _ _ Hw Hh HA HB) as [Hl' Hu].
  fold (scale img) in Nw, Nh, Wl, Wu, Hl', Hu.
  fold (new_w img) in Nw, Wl, Wu. fold (new_h img) in Nh, Hl', Hu.
  assert (Pw : page_w img = 612 \/ page_w img = 792)
    by (destruct (page_sides img) as [(-> & _) | (-> & _)]; auto).
  assert (Ph : page_h img = 612 \/ page_h img = 792)
    by (destruct (page_sides img) as [(_ & -> & _) | (_ & -> & _)]; auto).
  assert (Aw : (IZR (available_w img) + 8 = IZR (page_w img) - 64)%R).
  { unfold available_w, margin. rewrite minus_IZR, mult_IZR. lra. }
  assert (Ah : (IZR (available_h img) + 8 = IZR (page_h img) - 64)%R).
  { unfold available_h, margin. rewrite minus_IZR, mult_IZR. lra. }
  split; [split; reflexivity |].
  split.
  - unfold Py.truediv. cbn [Z.eqb]. unfold x. f_equal. symmetry.
    apply centered; [exact Pw | exact Nw | lra].
  - unfold Py.truediv. cbn [Z.eqb]. unfold y. f_equal. symmetry.
    apply centered; [exact Ph | exact Nh | lra].
Qed.

Lemma image_is_centered_witness :
  let env := Sample.env in
  let p := "thin.png" in
  let img := Sample.solid "RGB" [] 1 169 Sample.grey in
  let st := Sample.running ["thin.png"] in
  let c := RL.new "out.pdf" in
  exists (c' : RL.Canvas) (pw ph : Z) (d : RL.drawing),
    (fst (process_image env p st) = Ok tt
     /\ pdf (snd (process_image env p st)) = Some c'
     /\ RL.pages c' = (RL.pages c ++ [RL.mkPage (Some (pw, ph)) [d]])%list
     /\ RL.image d = img)
    /\ (RL.x d = Py.div_float_int (Py.sub_int_float pw (RL.draw_width d)) 2
        /\ RL.y d = Py.div_float_int (Py.sub_int_float ph (RL.draw_height d)) 2)
    /\ Py.truediv pw 2
       = Ok (F64.add (RL.x d) (Py.div_float_int (RL.draw_width d) 2))
    /\ Py.truediv ph 2
       = Ok (F64.add (RL.y d) (Py.div_float_int (RL.draw_height d) 2)).
Proof.
  apply (image_is_centered Sample.env "thin.png"
           (Sample.solid "RGB" [] 1 169 Sample.grey)
           (Sample.running ["thin.png"]) (RL.new "out.pdf")).
  - reflexivity.
  - cbn. lia.
  - cbn. lia.
  - reflexivity.
  - reflexivity.
Defined.

End Conversion.

(* ------------------------------------------------------------------ *)
(** * Python lists: indexing, exchanging, deleting *)

Module ListFacts.
Import PyList.

Lemma position_in {A} (l : list A) (i : Z) :
  0 <= i < Z.of_nat (List.length l) -> position l i = Some (Z.to_nat i).
Proof.
  intros H. unfold position. cbn zeta.
  destruct (Z.leb_spec 0 i); [| lia].
  destruct (Z.ltb_spec i (Z.of_nat (List.length l))); [| lia]. reflexivity.
Qed.

Lemma getitem_in {A} (l : list A) (i : Z) (a : A) :
  0 <= i -> nth_error l (Z.to_nat i) = Some a -> getitem l i = Ok a.
Proof.
  intros Hi H. unfold getitem.
  assert (Z.to_nat i < List.length l)%nat by (apply nth_error_Some; congruence).
  rewrite position_in by lia. now rewrite H.
Qed.

Lemma setitem_in {A} (l : list A) (i : Z) (v : A) :
  0 <= i < Z.of_nat (List.length l) ->
  setitem l i v
  = Ok (firstn (Z.to_nat i) l ++ v :: skipn (S (Z.to_nat i)) l)%list.
Proof. intros H. unfold setitem. now rewrite position_in. Qed.

Lemma delitem_in {A} (l : list A) (i : Z) :
  0 <= i < Z.of_nat (List.length l) ->
  delitem l i = Ok (firstn (Z.to_nat i) l ++ skipn (S (Z.to_nat i)) l)%list.
Proof. intros H. unfold delitem. now rewrite position_in. Qed.

Lemma length_set {A} (k : nat) (v : A) (l : list A) :
  (k < List.length l)%nat ->
  List.length (firstn k l ++ v :: skipn (S k) l) = List.length l.
Proof.
  intros H. rewrite length_app, length_firstn. cbn [List.length].
  rewrite length_skipn. lia.
Qed.

Lemma length_del {A} (k : nat) (l : list A) :
  (k < List.length l)%nat ->
  S (List.length (firstn k l ++ skipn (S k) l)) = List.length l.
Proof.
  intros H. rewrite length_app, length_firstn, length_skipn. lia.
Qed.

(** ** Exchanging two neighbours *)

Lemma set_set_up {A} (k : nat) (l : list A) :
  (S k < List.length l)%nat ->
  forall a b, nth_error l k = Some a -> nth_error l (S k) = Some b ->
  let l1 := (firstn k l ++ b :: skipn (S k) l)%list in
  (firstn (S k) l1 ++ a :: skipn (S (S k)) l1)%list = Gui.transpose k l.
Proof.
  revert l. induction k as [| k IH]; intros l Hl a b Ha Hb.
  - destruct l as [| x [| y l']]; cbn in *; try lia.
    injection Ha as ->. injection Hb as ->. reflexivity.
  - destruct l as [| x l']; cbn [List.length] in *; [lia |].
    cbn [nth_error] in Ha, Hb.
    specialize (IH l' ltac:(lia) a b Ha Hb). cbn zeta in *.
    cbn [firstn skipn app Gui.transpose]. cbn [firstn skipn app] in IH.
    now rewrite IH.
Qed.

Lemma set_set_down {A} (k : nat) (l : list A) :
  (S k < List.length l)%nat ->
  forall a b, nth_error l k = Some a -> nth_error l (S k) = Some b ->
  let l1 := (firstn (S k) l ++ a :: skipn (S (S k)) l)%list in
  (firstn k l1 ++ b :: skipn (S k) l1)%list = Gui.transpose k l.
Proof.
  revert l. induction k as [| k IH]; intros l Hl a b Ha Hb.
  - destruct l as [| x [| y l']]; cbn in *; try lia.
    injection Ha as ->. injection Hb as ->. reflexivity.
  - destruct l as [| x l']; cbn [List.length] in *; [lia |].
    cbn [nth_error] in Ha, Hb.
    specialize (IH l' ltac:(lia) a b Ha Hb). cbn zeta in *.
    cbn [firstn skipn app Gui.transpose]. cbn [firstn skipn app] in IH.
    now rewrite IH.
Qed.

Lemma nth_error_in {A} (l : list A) (k : nat) :
  (k < List.length l)%nat -> exists a, nth_error l k = Some a.
Proof.
  intros H. destruct (nth_error l k) eqn:E; [eauto |].
  apply nth_error_None in E. lia.
Qed.

(** The exchange of line 236. *)
Lemma swap_up {A} (l : list A) (idx : Z) :
  1 <= idx < Z.of_nat (List.length l) ->
  swap l (idx - 1) idx = Ok (Gui.transpose (Z.to_nat (idx - 1)) l).
Proof.
  intros H. set (k := Z.to_nat (idx - 1)).
  assert (Hk : (S k < List.length l)%nat) by lia.
  destruct (nth_error_in l k ltac:(lia)) as [a Ha].
  destruct (nth_error_in l (S k) Hk) as [b Hb].
  assert (E1 : Z.to_nat idx = S k) by lia.
  unfold swap.
  rewrite (getitem_in l idx b) by (try rewrite E1; trivial; lia).
  rewrite (getitem_in l (idx - 1) a) by (trivial; lia).
  rewrite setitem_in by lia. fold k.
  rewrite setitem_in by (rewrite length_set; lia). rewrite E1.
  f_equal. exact (set_set_up k l Hk a b Ha Hb).
Qed.

(** The exchange of line 255. *)
Lemma swap_down {A} (l : list A) (idx : Z) :
  0 <= idx < Z.of_nat (List.length l) - 1 ->
  swap l (idx + 1) idx = Ok (Gui.transpose (Z.to_nat idx) l).
Proof.
  intros H. set (k := Z.to_nat idx).
  assert (Hk : (S k < List.length l)%nat) by lia.
  destruct (nth_error_in l k ltac:(lia)) as [a Ha].
  destruct (nth_error_in l (S k) Hk) as [b Hb].
  assert (E1 : Z.to_nat (idx + 1) = S k) by lia.
  unfold swap.
  rewrite (getitem_in l idx a) by (trivial; lia).
  rewrite (getitem_in l (idx + 1) b) by (try rewrite E1; trivial; lia).
  rewrite setitem_in by lia. rewrite E1.
  rewrite setitem_in by (rewrite length_set; lia). fold k.
  f_equal. exact (set_set_down k l Hk a b Ha Hb).
Qed.

Lemma transpose_length {A} (k : nat) (l : list A) :
  List.length (Gui.transpose k l) = List.length l.
Proof.
  revert l. induction k as [| k IH]; intros [| a [| b l']]; cbn; try reflexivity.
  - now rewrite IH.
  - now rewrite IH.
Qed.

Lemma transpose_involutive {A} (k : nat) (l : list A) :
  Gui.transpose k (Gui.transpose k l) = l.
Proof.
  revert l. induction k as [| k IH]; intros [| a [| b l']]; cbn; try reflexivity.
  - now rewrite IH.
  - now rewrite IH.
Qed.

Lemma transpose_perm {A} (k : nat) (l : list A) :
  Permutation l (Gui.transpose k l).
Proof.
  revert l. induction k as [| k IH]; intros [| a [| b l']]; cbn;
    try apply Permutation_refl.
  - apply perm_swap.
  - apply perm_skip, IH.
  - apply perm_skip, IH.
Qed.

Lemma nth_error_transpose {A} (k : nat) (l : list A) (j : nat) :
  (S k < List.length l)%nat ->
  nth_error (Gui.transpose k l) j
  = nth_error l (if (j =? k)%nat then S k
                 else if (j =? S k)%nat then k else j).
Proof.
  revert l j. induction k as [| k IH]; intros l j Hl.
  - destruct l as [| a [| b l']]; cbn in Hl; try lia.
    destruct j as [| [| j]]; reflexivity.
  - destruct l as [| a l']; cbn [List.length] in Hl; [lia |].
    destruct j as [| j]; [reflexivity |].
    cbn [Gui.transpose nth_error]. rewrite IH by lia.
    change (S j =? S k)%nat with (j =? k)%nat.
    change (S j =? S (S k))%nat with (j =? S k)%nat.
    destruct (j =? k)%nat; [reflexivity |].
    destruct (j =? S k)%nat; reflexivity.
Qed.

(** ** Taking positions out *)

Lemma unselected_nil {A} (o : Z) (l : list A) : Gui.unselected [] o l = l.
Proof.
  revert o. induction l as [| a l IH]; intros o; cbn; [reflexivity |].
  now rewrite IH.
Qed.

Lemma unselected_skip {A} (i : Z) (rest : list Z) (o : Z) (l : list A) :
  i < o -> Gui.unselected (i :: rest) o l = Gui.unselected rest o l.
Proof.
  revert o. induction l as [| a l IH]; intros o Ho; cbn [Gui.unselected existsb].
  - reflexivity.
  - destruct (Z.eqb_spec o i); [lia |]. cbn [orb].
    rewrite IH by lia. reflexivity.
Qed.

Lemma existsb_above (o : Z) (rest : list Z) :
  Forall (fun r => o < r) rest -> existsb (Z.eqb o) rest = false.
Proof.
  induction 1 as [| r rest Hr _ IH]; cbn; [reflexivity |].
  destruct (Z.eqb_spec o r); [lia | exact IH].
Qed.

(** Deleting position [i], below every position of [rest], after those of
    [rest] have been taken out. *)
Lemma delete_below {A} (i : Z) (rest : list Z) (o : Z) (l : list A) :
  Forall (fun r => i < r) rest ->
  o <= i < o + Z.of_nat (List.length l) ->
  let k := Z.to_nat (i - o) in
  let u := Gui.unselected rest o l in
  (k < List.length u)%nat
  /\ (firstn k u ++ skipn (S k) u)%list = Gui.unselected (i :: rest) o l.
Proof.
  intros Hrest. revert o. induction l as [| a l IH]; intros o Ho; cbn zeta.
  - cbn [List.length] in Ho. lia.
  - cbn [List.length] in Ho. cbn [Gui.unselected existsb].
    assert (Hab : existsb (Z.eqb o) rest = false).
    { apply existsb_above. revert Hrest. apply Forall_impl. intros; lia. }
    rewrite Hab. destruct (Z.eqb_spec o i) as [-> | Hne]; cbn [orb].
    + replace (Z.to_nat (i - i)) with 0%nat by lia. cbn [List.length].
      split; [lia |]. cbn [firstn skipn app].
      rewrite unselected_skip by lia. reflexivity.
    + destruct (IH (o + 1) ltac:(lia)) as [K1 K2].
      replace (Z.to_nat (i - o)) with (S (Z.to_nat (i - (o + 1)))) by lia.
      cbn [List.length firstn skipn app]. split; [lia |].
      cbn [skipn] in K2. now rewrite K2.
Qed.

End ListFacts.

(* ------------------------------------------------------------------ *)
(** * What the loops of the handlers compute *)

Module OrderFacts.
Import ListFacts.

Lemma fold_transpose_perm {A} (f : Z -> nat) (xs : list Z) (l : list A) :
  Permutation l (fold_left (fun l idx => Gui.transpose (f idx) l) xs l).
Proof.
  revert l. induction xs as [| x xs IH]; intros l; cbn; [apply Permutation_refl |].
  eapply Permutation_trans; [apply (transpose_perm (f x)) | apply IH].
Qed.

Lemma fold_transpose_len {A} (f : Z -> nat) (xs : list Z) (l : list A) :
  List.length (fold_left (fun l idx => Gui.transpose (f idx) l) xs l)
  = List.length l.
Proof.
  revert l. induction xs as [| x xs IH]; intros l; cbn; [reflexivity |].
  rewrite IH. apply transpose_length.
Qed.

Lemma not_in_above (j i : Z) (rest : list Z) :
  Forall (Z.lt i) rest -> j <= i -> ~ In j rest.
Proof.
  intros H Hj Hin. rewrite Forall_forall in H. specialize (H j Hin). lia.
Qed.

(** The loop of lines 235-236 on an increasing selection below the top. *)
Lemma lifted {A} (sel : list Z) (l : list A) :
  StronglySorted Z.lt sel ->
  Forall (fun i => 1 <= i < Z.of_nat (List.length l)) sel ->
  let l' := fold_left (fun l idx => Gui.transpose (Z.to_nat (idx - 1)) l) sel l in
  (forall idx, In idx sel ->
     nth_error l' (Z.to_nat (idx - 1)) = nth_error l (Z.to_nat idx))
  /\ (forall j, 0 <= j -> ~ In j sel -> ~ In (j + 1) sel ->
        nth_error l' (Z.to_nat j) = nth_error l (Z.to_nat j)).
Proof.
  revert l. induction sel as [| i rest IH]; intros l Hs Hr; cbn [fold_left].
  - split; [intros idx [] | reflexivity].
  - inversion Hs as [| i' rest' Hs' Hi]; subst.
    inversion Hr as [| i' rest' Hi0 Hr']; subst.
    set (l1 := Gui.transpose (Z.to_nat (i - 1)) l).
    assert (Hl1 : List.length l1 = List.length l) by apply transpose_length.
    destruct (IH l1 Hs' ltac:(rewrite Hl1; exact Hr')) as [IA IB].
    assert (Hk : (S (Z.to_nat (i - 1)) < List.length l)%nat) by lia.
    split.
    + intros idx [<- | Hin].
      * rewrite IB.
        -- unfold l1. rewrite nth_error_transpose by exact Hk.
           rewrite Nat.eqb_refl. f_equal. lia.
        -- lia.
        -- apply (not_in_above _ i); [exact Hi | lia].
        -- apply (not_in_above _ i); [exact Hi | lia].
      * rewrite (IA idx Hin). unfold l1.
        rewrite nth_error_transpose by exact Hk.
        rewrite Forall_forall in Hi. specialize (Hi idx Hin).
        destruct (Nat.eqb_spec (Z.to_nat idx) (Z.to_nat (i - 1))); [lia |].
        destruct (Nat.eqb_spec (Z.to_nat idx) (S (Z.to_nat (i - 1)))); [lia |].
        reflexivity.
    + intros j Hj Hn1 Hn2.
      rewrite IB; [| exact Hj | intros C; apply Hn1; now right
                   | intros C; apply Hn2; now right].
      unfold l1. rewrite nth_error_transpose by exact Hk.
      assert (j <> i) by (intros ->; apply Hn1; now left).
      assert (j + 1 <> i) by (intros <-; apply Hn2; now left).
      destruct (Nat.eqb_spec (Z.to_nat j) (Z.to_nat (i - 1))); [lia |].
      destruct (Nat.eqb_spec (Z.to_nat j) (S (Z.to_nat (i - 1)))); [lia |].
      reflexivity.
Qed.

(** The loop of lines 254-255 on an increasing selection above the
    bottom. *)
Lemma pushed {A} (sel : list Z) (l : list A) :
  StronglySorted Z.lt sel ->
  Forall (fun i => 0 <= i < Z.of_nat (List.length l) - 1) sel ->
  let l' := fold_left (fun l idx => Gui.transpose (Z.to_nat idx) l) (rev sel) l in
  (forall idx, In idx sel ->
     nth_error l' (Z.to_nat (idx + 1)) = nth_error l (Z.to_nat idx))
  /\ (forall j, 0 <= j -> ~ In j sel -> ~ In (j - 1) sel ->
        nth_error l' (Z.to_nat j) = nth_error l (Z.to_nat j)).
Proof.
  induction sel as [| i rest IH]; intros Hs Hr; cbn [rev].
  - split; [intros idx [] | reflexivity].
  - inversion Hs as [| i' rest' Hs' Hi]; subst.
    inversion Hr as [| i' rest' Hi0 Hr']; subst.
    rewrite fold_left_app. cbn [fold_left].
    destruct (IH Hs' Hr') as [IA IB]. cbn zeta in IA, IB.
    set (l1 := fold_left (fun l idx => Gui.transpose (Z.to_nat idx) l) (rev rest) l)
      in *.
    assert (Hl1 : List.length l1 = List.length l) by apply fold_transpose_len.
    assert (Hk : (S (Z.to_nat i) < List.length l1)%nat) by lia.
    split.
    + intros idx [<- | Hin].
      * rewrite nth_error_transpose by exact Hk.
        destruct (Nat.eqb_spec (Z.to_nat (i + 1)) (Z.to_nat i)); [lia |].
        destruct (Nat.eqb_spec (Z.to_nat (i + 1)) (S (Z.to_nat i))); [| lia].
        apply IB; [lia | |]; apply (not_in_above _ i); trivial; lia.
      * rewrite nth_error_transpose by exact Hk.
        rewrite Forall_forall in Hi. specialize (Hi idx Hin).
        destruct (Nat.eqb_spec (Z.to_nat (idx + 1)) (Z.to_nat i)); [lia |].
        destruct (Nat.eqb_spec (Z.to_nat (idx + 1)) (S (Z.to_nat i))); [lia |].
        apply IA, Hin.
    + intros j Hj Hn1 Hn2.
      rewrite nth_error_transpose by exact Hk.
      assert (j <> i) by (intros ->; apply Hn1; now left).
      assert (j - 1 <> i) by (intros <-; apply Hn2; now left).
      destruct (Nat.eqb_spec (Z.to_nat j) (Z.to_nat i)); [lia |].
      destruct (Nat.eqb_spec (Z.to_nat j) (S (Z.to_nat i))); [lia |].
      apply IB; [exact Hj | intros C; apply Hn1; now right
                | intros C; apply Hn2; now right].
Qed.

(** Exchanges undone in the opposite order give the list back. *)
Lemma fold_back {A} (f : Z -> nat) (xs : list Z) (l : list A) :
  fold_left (fun l idx => Gui.transpose (f idx) l) (rev xs)
    (fold_left (fun l idx => Gui.transpose (f idx) l) xs l) = l.
Proof.
  revert l. induction xs as [| x xs IH]; intros l; cbn [rev fold_left];
    [reflexivity |].
  rewrite fold_left_app, IH. cbn [fold_left]. apply transpose_involutive.
Qed.

Lemma fold_forth {A} (f : Z -> nat) (xs : list Z) (l : list A) :
  fold_left (fun l idx => Gui.transpose (f idx) l) xs
    (fold_left (fun l idx => Gui.transpose (f idx) l) (rev xs) l) = l.
Proof.
  pose proof (fold_back f (rev xs) l) as H. now rewrite rev_involutive in H.
Qed.

Lemma fold_map {A} (f : Z -> nat) (g : Z -> Z) (xs : list Z) (l : list A) :
  fold_left (fun l idx => Gui.transpose (f idx) l) (map g xs) l
  = fold_left (fun l idx => Gui.transpose (f (g idx)) l) xs l.
Proof.
  revert l. induction xs as [| x xs IH]; intros l; cbn; [reflexivity | apply IH].
Qed.

Lemma fold_same {A} (f g : Z -> nat) (xs : list Z) (l : list A) :
  (forall x, In x xs -> f x = g x) ->
  fold_left (fun l idx => Gui.transpose (f idx) l) xs l
  = fold_left (fun l idx => Gui.transpose (g idx) l) xs l.
Proof.
  revert l. induction xs as [| x xs IH]; intros l H; cbn; [reflexivity |].
  rewrite (H x (or_introl eq_refl)). apply IH. intros y Hy. apply H. now right.
Qed.

(** ** Appending what is new *)

Lemma contains_In (x : string) (xs : list string) :
  Py.contains x xs = true <-> In x xs.
Proof.
  unfold Py.contains. rewrite existsb_exists. split.
  - intros (y & Hy & E). apply String.eqb_eq in E. now subst.
  - intros H. exists x. split; [exact H | apply String.eqb_refl].
Qed.

Lemma appended (paths l : list string) :
  let l' := fold_left (fun l p => if Py.contains p l then l else (l ++ [p])%list)
              paths l in
  exists extra,
    l' = (l ++ extra)%list
    /\ NoDup extra
    /\ (forall p, In p extra <-> In p paths /\ ~ In p l)
    /\ (NoDup paths -> (forall p, In p paths -> ~ In p l) -> extra = paths).
Proof.
  revert l. induction paths as [| p paths IH]; intros l; cbn [fold_left].
  - exists []. rewrite app_nil_r. split; [reflexivity |].
    split; [constructor |].
    split; [intros p; cbn; tauto | intros _ _; reflexivity].
  - destruct (Py.contains p l) eqn:E.
    + apply contains_In in E. destruct (IH l) as (extra & E1 & E2 & E3 & E4).
      exists extra. split; [exact E1 |]. split; [exact E2 |]. split.
      * intros q. rewrite E3. cbn [In]. split.
        -- intros [Hq Hn]. split; [now right | exact Hn].
        -- intros [[<- | Hq] Hn]; [contradiction | split; assumption].
      * intros _ Hd. exfalso. apply (Hd p); [now left | exact E].
    + assert (Hn : ~ In p l).
      { intros C. apply contains_In in C. congruence. }
      destruct (IH (l ++ [p])%list) as (extra & E1 & E2 & E3 & E4).
      exists (p :: extra). rewrite E1, <- app_assoc. cbn [app].
      split; [reflexivity |]. split; [| split].
      * constructor; [| exact E2]. intros C. apply E3 in C.
        destruct C as [_ C]. apply C, in_or_app. right. now left.
      * intros q. split.
        -- intros [<- | Hq]; [split; [now left | exact Hn] |].
           apply E3 in Hq. destruct Hq as [Hq1 Hq2]. split; [now right |].
           intros C. apply Hq2, in_or_app. now left.
        -- intros [[<- | Hq] Hql]; [now left |].
           destruct (string_dec p q) as [<- | Hpq]; [now left |]. right.
           apply E3. split; [exact Hq |]. intros C.
           apply in_app_or in C. destruct C as [C | [C | []]]; tauto.
      * intros Hnd Hd. inversion Hnd as [| p' paths' Hp Hnd']; subst.
        f_equal. apply E4; [exact Hnd' |].
        intros q Hq C. apply in_app_or in C. destruct C as [C | [C | []]].
        -- apply (Hd q); [now right | exact C].
        -- subst. contradiction.
Qed.

Lemma nothing_new (paths l : list string) :
  (forall p, In p paths -> In p l) ->
  fold_left (fun l p => if Py.contains p l then l else (l ++ [p])%list) paths l = l.
Proof.
  induction paths as [| p paths IH]; intros H; cbn [fold_left]; [reflexivity |].
  destruct (Py.contains p l) eqn:E.
  - apply IH. intros q Hq. apply H. now right.
  - assert (In p l) by (apply H; now left).
    apply contains_In in H0. congruence.
Qed.

End OrderFacts.

(* ------------------------------------------------------------------ *)
(** * The handlers of the list, run *)

Module GuiFacts.
Import Gui ListFacts OrderFacts.
Local Open Scope gui_scope.

Lemma with_paths_same (w : Window) : with_paths (image_paths w) w = w.
Proof. destruct w as [[ps n s p d lg] lb]. reflexivity. Qed.

Lemma with_listbox_same (w : Window) :
  with_listbox
    (Tk.mkListbox (Tk.items (selected_images_listbox w))
                  (Tk.selection (selected_images_listbox w))) w = w.
Proof. destruct w as [a [it sel]]. reflexivity. Qed.

Lemma for_each_app {A} (xs ys : list A) (body : A -> M unit) (w : Window) :
  for_each (xs ++ ys) body w
  = match for_each xs body w with
    | (Ok _, w') => for_each ys body w'
    | (Raise e, w') => (Raise e, w')
    end.
Proof.
  revert w. induction xs as [| x xs IH]; intros w; [reflexivity |].
  rewrite <- app_comm_cons. cbn [for_each]. unfold bind.
  destruct (body x w) as [[[] | e] w1]; [apply IH | reflexivity].
Qed.

(** ** The selection *)

Lemma insert_sorted_last (x : Z) (s : list Z) :
  Forall (fun j => j < x) s -> Tk.insert_sorted x s = (s ++ [x])%list.
Proof.
  induction 1 as [| j s Hj _ IH]; cbn; [reflexivity |].
  destruct (Z.ltb_spec x j); [lia |].
  destruct (Z.eqb_spec x j); [lia |]. now rewrite IH.
Qed.

Lemma selection_set_all (xs : list Z) (w : Window) :
  StronglySorted Z.lt xs ->
  Forall (fun i => 0 <= i
            < Z.of_nat (List.length (Tk.items (selected_images_listbox w)))) xs ->
  Forall (fun j => Forall (Z.lt j) xs) (Tk.selection (selected_images_listbox w)) ->
  for_each xs (fun idx => on_listbox (Tk.selection_set idx)) w
  = (Ok tt,
     with_listbox
       (Tk.mkListbox (Tk.items (selected_images_listbox w))
                     (Tk.selection (selected_images_listbox w) ++ xs)) w).
Proof.
  revert w. induction xs as [| x xs IH]; intros w Hs Hr Hb.
  - cbn [for_each ret]. rewrite app_nil_r, with_listbox_same. reflexivity.
  - cbn [for_each]. unfold bind, on_listbox at 1.
    inversion Hs as [| x' xs' Hs' Hx]; subst.
    inversion Hr as [| x' xs' Hx0 Hr']; subst.
    assert (Hlt : Forall (fun j => j < x) (Tk.selection (selected_images_listbox w))).
    { revert Hb. apply Forall_impl. intros j Hj. now inversion Hj. }
    unfold Tk.selection_set.
    destruct (Z.leb_spec 0 x); [| lia].
    destruct (Z.ltb_spec x
      (Z.of_nat (List.length (Tk.items (selected_images_listbox w))))); [| lia].
    cbn [andb]. rewrite (insert_sorted_last _ _ Hlt).
    rewrite IH.
    + cbn [with_listbox selected_images_listbox Tk.items Tk.selection app].
      rewrite <- app_assoc. reflexivity.
    + exact Hs'.
    + exact Hr'.
    + cbn [with_listbox selected_images_listbox Tk.selection].
      apply Forall_app. split.
      * revert Hb. apply Forall_impl. intros j Hj. now inversion Hj.
      * constructor; [exact Hx | constructor].
Qed.

Lemma sorted_map (f : Z -> Z) (l : list Z) :
  (forall a b, a < b -> f a < f b) ->
  StronglySorted Z.lt l -> StronglySorted Z.lt (map f l).
Proof.
  intros Hf. induction 1 as [| a l Hl IH Ha]; cbn; constructor.
  - exact IH.
  - apply Forall_map. revert Ha. apply Forall_impl. intros b. apply Hf.
Qed.

Lemma sorted_last (a : Z) (l : list Z) :
  StronglySorted Z.lt (a :: l) -> a <= last (a :: l) 0 /\ In (last (a :: l) 0) (a :: l).
Proof.
  revert a. induction l as [| b l IH]; intros a Hs.
  - cbn. split; [lia | now left].
  - inversion Hs as [| a' l' Hs' Ha]; subst.
    destruct (IH b Hs') as [K1 K2].
    change (last (a :: b :: l) 0) with (last (b :: l) 0).
    inversion Ha; subst. split; [lia | now right].
Qed.

Section WithEnv.
Variable env : App.Env.

Local Abbreviation shows l :=
  (Tk.mkListbox (map (App.basename env) l) []).

(** ** The listbox refreshed *)

Lemma insert_all (l : list string) (w : Window) :
  for_each l
    (fun full_path => on_listbox (Tk.insert_end (App.basename env full_path))) w
  = (Ok tt,
     with_listbox
       (Tk.mkListbox
          (Tk.items (selected_images_listbox w) ++ map (App.basename env) l)
          (Tk.selection (selected_images_listbox w))) w).
Proof.
  revert w. induction l as [| p l IH]; intros w.
  - cbn [for_each ret map]. rewrite app_nil_r, with_listbox_same. reflexivity.
  - cbn [for_each]. unfold bind, on_listbox at 1. rewrite IH.
    cbn [with_listbox selected_images_listbox Tk.insert_end Tk.items
         Tk.selection map]. rewrite <- app_assoc. reflexivity.
Qed.

Lemma update_run (w : Window) :
  update_selected_images_listbox env w
  = (Ok tt, with_listbox (shows (image_paths w)) w).
Proof.
  unfold update_selected_images_listbox, bind, on_listbox at 1.
  rewrite insert_all. reflexivity.
Qed.

(** ** Each handler *)

Lemma select_images_run (p : string) (ps : list string) (w : Window) :
  select_images env (p :: ps) w
  = set_status
      ("Selected " ++ Py.str (Z.of_nat (List.length (p :: ps))) ++ " image(s).")
      (with_listbox (shows (p :: ps)) (with_paths (p :: ps) w)).
Proof.
  unfold select_images, bind. rewrite update_run. reflexivity.
Qed.

Lemma clear_list_run (w : Window) :
  clear_list env w
  = set_status "Cleared list." (with_listbox (shows []) (with_paths [] w)).
Proof. unfold clear_list, bind. rewrite update_run. reflexivity. Qed.

Local Abbreviation add_one :=
  (fun (l : list string) (p : string) =>
     if Py.contains p l then l else (l ++ [p])%list).

Lemma append_new (paths : list string) (w : Window) :
  for_each paths
    (fun p w =>
       if negb (Py.contains p (image_paths w))
       then (Ok tt, with_paths (image_paths w ++ [p])%list w)
       else (Ok tt, w)) w
  = (Ok tt, with_paths (fold_left add_one paths (image_paths w)) w).
Proof.
  revert w. induction paths as [| p paths IH]; intros w.
  - cbn [for_each ret fold_left]. now rewrite with_paths_same.
  - cbn [for_each fold_left]. unfold bind at 1.
    destruct (Py.contains p (image_paths w)); cbn [negb].
    + apply IH.
    + rewrite IH. reflexivity.
Qed.

Lemma add_images_run (p : string) (ps : list string) (w : Window) :
  let l := fold_left add_one (p :: ps) (image_paths w) in
  add_images env (p :: ps) w
  = set_status ("Selected " ++ Py.str (Z.of_nat (List.length l)) ++ " image(s).")
      (with_listbox (shows l) (with_paths l w)).
Proof.
  cbn zeta. unfold add_images, bind at 1. rewrite append_new.
  unfold bind. rewrite update_run. reflexivity.
Qed.

(** Deleting from the bottom up takes out the selected positions. *)
Lemma delete_selected (sel : list Z) (w : Window) :
  StronglySorted Z.lt sel ->
  Forall (fun i => 0 <= i < Z.of_nat (List.length (image_paths w))) sel ->
  for_each (rev sel) del_path w
  = (Ok tt, with_paths (unselected sel 0 (image_paths w)) w)
  /\ (List.length (unselected sel 0 (image_paths w)) + List.length sel
      = List.length (image_paths w))%nat.
Proof.
  induction sel as [| i rest IH]; intros Hs Hr.
  - cbn [rev for_each ret List.length].
    rewrite unselected_nil, with_paths_same. split; [reflexivity | lia].
  - inversion Hs as [| i' rest' Hs' Hi]; subst.
    inversion Hr as [| i' rest' Hi0 Hr']; subst.
    destruct (IH Hs' Hr') as [E L].
    cbn [rev]. rewrite for_each_app, E. cbn [for_each]. unfold bind, del_path.
    change (image_paths (with_paths ?l w)) with l.
    destruct (delete_below i rest 0 (image_paths w) Hi ltac:(lia)) as [K1 K2].
    cbn zeta in K1, K2. rewrite Z.sub_0_r in K1, K2.
    rewrite delitem_in by lia. rewrite K2. cbn [ret]. split; [reflexivity |].
    rewrite <- K2. pose proof (length_del _ _ K1). cbn [List.length]. lia.
Qed.

Lemma remove_selected_run (w : Window) (i : Z) (rest : list Z) :
  Tk.selection (selected_images_listbox w) = i :: rest ->
  StronglySorted Z.lt (i :: rest) ->
  Forall (fun i => 0 <= i < Z.of_nat (List.length (image_paths w))) (i :: rest) ->
  let l := unselected (i :: rest) 0 (image_paths w) in
  remove_selected env w
  = set_status ("Remaining " ++ Py.str (Z.of_nat (List.length l)) ++ " image(s).")
      (with_listbox (shows l) (with_paths l w)).
Proof.
  intros Hsel Hs Hr. cbn zeta. unfold remove_selected, Tk.curselection.
  rewrite Hsel. unfold bind at 1.
  destruct (delete_selected (i :: rest) w Hs Hr) as [E _]. rewrite E.
  unfold bind. rewrite update_run. reflexivity.
Qed.

Local Abbreviation lift_up :=
  (fun (l : list string) (idx : Z) => transpose (Z.to_nat (idx - 1)) l).
Local Abbreviation push_down :=
  (fun (l : list string) (idx : Z) => transpose (Z.to_nat idx) l).

Lemma swaps_up (xs : list Z) (w : Window) :
  Forall (fun i => 1 <= i < Z.of_nat (List.length (image_paths w))) xs ->
  for_each xs (fun idx => swap_paths (idx - 1) idx) w
  = (Ok tt, with_paths (fold_left lift_up xs (image_paths w)) w).
Proof.
  revert w. induction xs as [| x xs IH]; intros w Hr.
  - cbn [for_each ret fold_left]. now rewrite with_paths_same.
  - inversion Hr as [| x' xs' Hx Hr']; subst.
    cbn [for_each fold_left]. unfold bind, swap_paths at 1.
    rewrite swap_up by exact Hx. rewrite IH.
    + reflexivity.
    + change (image_paths (with_paths ?l w)) with l.
      rewrite transpose_length. exact Hr'.
Qed.

Lemma swaps_down (xs : list Z) (w : Window) :
  Forall (fun i => 0 <= i < Z.of_nat (List.length (image_paths w)) - 1) xs ->
  for_each xs (fun idx => swap_paths (idx + 1) idx) w
  = (Ok tt, with_paths (fold_left push_down xs (image_paths w)) w).
Proof.
  revert w. induction xs as [| x xs IH]; intros w Hr.
  - cbn [for_each ret fold_left]. now rewrite with_paths_same.
  - inversion Hr as [| x' xs' Hx Hr']; subst.
    cbn [for_each fold_left]. unfold bind, swap_paths at 1.
    rewrite swap_down by exact Hx. rewrite IH.
    + reflexivity.
    + change (image_paths (with_paths ?l w)) with l.
      rewrite transpose_length. exact Hr'.
Qed.

Lemma move_up_run (w : Window) (first : Z) (rest : list Z) :
  Tk.selection (selected_images_listbox w) = first :: rest ->
  StronglySorted Z.lt (first :: rest) ->
  Forall (fun i => 0 <= i < Z.of_nat (List.length (image_paths w))) (first :: rest) ->
  first <> 0 ->
  let l := fold_left lift_up (first :: rest) (image_paths w) in
  move_up env w
  = (Ok tt,
     with_listbox
       (Tk.mkListbox (map (App.basename env) l)
                     (map (fun i => i - 1) (first :: rest)))
       (with_paths l w)).
Proof.
  intros Hsel Hs Hr Hf. cbn zeta. unfold move_up, Tk.curselection.
  rewrite Hsel. destruct (Z.eqb_spec first 0); [contradiction |].
  assert (Hr1 : Forall (fun i => 1 <= i < Z.of_nat (List.length (image_paths w)))
                  (first :: rest)).
  { inversion Hs as [| a l' _ Ha]; subst. inversion Hr as [| a l' H0 Hr']; subst.
    constructor; [lia |].
    rewrite Forall_forall in *. intros x Hx.
    specialize (Ha x Hx). specialize (Hr' x Hx). lia. }
  unfold bind at 1. rewrite swaps_up by exact Hr1.
  unfold bind. rewrite update_run.
  rewrite selection_set_all.
  - reflexivity.
  - apply sorted_map; [intros; lia | exact Hs].
  - cbn [with_listbox selected_images_listbox Tk.items].
    rewrite length_map.
    change (image_paths (with_paths ?l w)) with l.
    rewrite fold_transpose_len.
    apply Forall_map. revert Hr1. apply Forall_impl. intros; lia.
  - constructor.
Qed.

Lemma move_down_run (w : Window) (first : Z) (rest : list Z) :
  Tk.selection (selected_images_listbox w) = first :: rest ->
  StronglySorted Z.lt (first :: rest) ->
  Forall (fun i => 0 <= i < Z.of_nat (List.length (image_paths w))) (first :: rest) ->
  last (first :: rest) 0 <> Z.of_nat (List.length (image_paths w)) - 1 ->
  let l := fold_left push_down (rev (first :: rest)) (image_paths w) in
  move_down env w
  = (Ok tt,
     with_listbox
       (Tk.mkListbox (map (App.basename env) l)
                     (map (fun i => i + 1) (first :: rest)))
       (with_paths l w)).
Proof.
  intros Hsel Hs Hr Hf. cbn zeta. unfold move_down, Tk.curselection.
  rewrite Hsel.
  destruct (Z.eqb_spec (last (first :: rest) 0)
              (Z.of_nat (List.length (image_paths w)) - 1)); [contradiction |].
  assert (Hr1 : Forall (fun i => 0 <= i < Z.of_nat (List.length (image_paths w)) - 1)
                  (first :: rest)).
  { assert (Hmax : forall x, In x (first :: rest) -> x <= last (first :: rest) 0).
    { clear - Hs. revert Hs. generalize first.
      induction rest as [| b l IH]; intros a Hs x Hx.
      - destruct Hx as [-> | []]. cbn. lia.
      - inversion Hs as [| a' l' Hs' Ha]; subst.
        change (last (a :: b :: l) 0) with (last (b :: l) 0).
        destruct Hx as [-> | Hx]; [| now apply IH].
        pose proof (IH b Hs' b (or_introl eq_refl)).
        inversion Ha; subst. lia. }
    destruct (sorted_last _ _ Hs) as [_ Hin].
    rewrite Forall_forall in *. intros x Hx.
    specialize (Hmax x Hx). pose proof (Hr _ Hin). specialize (Hr x Hx). lia. }
  unfold bind at 1. rewrite swaps_down by (apply Forall_rev; exact Hr1).
  unfold bind. rewrite update_run.
  rewrite selection_set_all.
  - reflexivity.
  - apply sorted_map; [intros; lia | exact Hs].
  - cbn [with_listbox selected_images_listbox Tk.items].
    rewrite length_map.
    change (image_paths (with_paths ?l w)) with l.
    rewrite fold_transpose_len.
    apply Forall_map. revert Hr1. apply Forall_impl. intros; lia.
  - constructor.
Qed.

End WithEnv.
End GuiFacts.

(* ------------------------------------------------------------------ *)
(** * More of the conversion *)

Module Runs.
Import App ImageFacts LoopFacts RunFacts Shown.

Section WithEnv.
Variable env : Env.

Lemma save_raise (st : State) (c : RL.Canvas) (e : exn) :
  pdf st = Some c ->
  save_error env (RL.filename c) = Some e ->
  save env st
  = (Raise e, with_log (log st ++ [save_call (RL.filename c)]) st).
Proof. intros Hp He. unfold save. now rewrite Hp, He. Qed.

(** A run in which every image renders and the destination cannot be
    written. *)
Lemma convert_body_unwritable (save_path : string) (imgs : list PIL.Image)
    (e : exn) (st : State) :
  Forall2 (renders env) (image_paths st) imgs ->
  save_error env save_path = Some e ->
  let r := convert_body env save_path st in
  fst r = Raise e
  /\ disk (snd r) = disk st
  /\ option_map RL.pages (pdf (snd r)) = Some (map page_for imgs)
  /\ log (snd r)
     = (log st
        ++ progress env (Z.of_nat (List.length (image_paths st))) 1 (image_paths st)
        ++ [save_call save_path])%list.
Proof.
  intros Hall Hsave. cbn zeta. unfold convert_body.
  set (s0 := with_pdf (Some (RL.new save_path)) st).
  change (image_paths s0) with (image_paths st).
  set (total := Z.of_nat (List.length (image_paths st))).
  destruct (process_images_ok env _ imgs Hall total 1 s0)
    as (P1 & _ & _ & P4 & P5 & P6).
  destruct (process_images env total 1 (image_paths st) s0) as [r1 st1] eqn:E.
  cbn [fst snd] in *. subst r1. cbn [s0 with_pdf pdf option_map log disk] in *.
  assert (Hf : RL.filename (emit_pages imgs (RL.new save_path)) = save_path)
    by (rewrite emit_pages_filename; reflexivity).
  rewrite (bind_ok _ _ _ _ _ E).
  assert (Hs : save_error env (RL.filename (emit_pages imgs (RL.new save_path)))
               = Some e) by (rewrite Hf; exact Hsave).
  rewrite (bind_raise _ _ _ _ _ (save_raise st1 _ e P5 Hs)).
  cbn [fst snd with_log image_paths output_pdf_name status_text pdf disk log].
  rewrite Hf, P4, P5, P6. cbn [option_map].
  rewrite emit_pages_pages by reflexivity. cbn [RL.new RL.pages app].
  rewrite <- !app_assoc. repeat split; reflexivity.
Qed.

Lemma convert_images_unwritable (imgs : list PIL.Image) (e : exn) (st : State) :
  image_paths st <> [] ->
  Forall2 (renders env) (image_paths st) imgs ->
  asksaveasfilename env (initialfile st) <> "" ->
  save_error env (asksaveasfilename env (initialfile st)) = Some e ->
  let save_path := asksaveasfilename env (initialfile st) in
  let r := convert_images_to_pdf env st in
  fst r = Ok tt
  /\ disk (snd r) = disk st
  /\ option_map RL.pages (pdf (snd r)) = Some (map page_for imgs)
  /\ status_text (snd r) = "Error."
  /\ log (snd r)
     = (log st
        ++ asksaveasfilename_call (initialfile st)
        :: progress env (Z.of_nat (List.length (image_paths st))) 1 (image_paths st)
        ++ [save_call save_path;
            status_set "Error.";
            showerror "Conversion failed"
              ("An error occurred:" ++ nl ++ exn_message e)])%list.
Proof.
  intros Hne Hall Hask Hsave. cbn zeta. rewrite (convert_run env st Hne Hask).
  set (s0 := with_log _ st).
  destruct (convert_body_unwritable (asksaveasfilename env (initialfile st))
              imgs e s0 Hall Hsave) as (B1 & B2 & B3 & B4).
  unfold try_except.
  destruct (convert_body env _ s0) as [r1 st1]. cbn [fst snd] in *. subst r1.
  cbn [convert_handler bind set_status emit fst snd with_log with_status
       image_paths output_pdf_name status_text pdf disk log].
  rewrite B2, B3, B4. cbn [s0 with_log log disk image_paths].
  rewrite <- !app_assoc. repeat split; reflexivity.
Qed.

Lemma convert_total (st : State) : fst (convert_images_to_pdf env st) = Ok tt.
Proof.
  unfold convert_images_to_pdf.
  destruct (image_paths st); [reflexivity |].
  destruct (asksaveasfilename env (initialfile st)); [reflexivity |].
  unfold try_except.
  destruct (convert_body env _ _) as [[[] | e] st1]; reflexivity.
Qed.

(** ** The status line *)

Lemma statuses_app (l1 l2 : list event) :
  statuses (l1 ++ l2) = (statuses l1 ++ statuses l2)%list.
Proof. apply flat_map_app. Qed.

Lemma statuses_progress (total : Z) (k : nat) (paths : list string) :
  statuses (progress env total (Z.of_nat k) paths)
  = map (processing env total)
        (combine (map Z.of_nat (seq k (List.length paths))) paths).
Proof.
  revert k. induction paths as [| p rest IH]; intros k; [reflexivity |].
  cbn [progress app statuses flat_map List.length seq map combine].
  replace (Z.of_nat k + 1) with (Z.of_nat (S k)) by lia.
  fold (statuses (progress env total (Z.of_nat (S k)) rest)).
  rewrite IH. reflexivity.
Qed.

End WithEnv.

(** ** The proposed file name *)

Lemma lstrip_blank (pre t : string) :
  blank pre -> Py.lstrip (pre ++ t) = Py.lstrip t.
Proof.
  unfold blank. induction pre as [| c pre IH]; cbn; intros H; [reflexivity |].
  inversion H as [| c' l' Hc Hl]; subst. rewrite Hc. now apply IH.
Qed.

Lemma rstrip_blank (post : string) : blank post -> Py.rstrip post = "".
Proof.
  unfold blank. induction post as [| c post IH]; cbn; intros H; [reflexivity |].
  inversion H as [| c' l' Hc Hl]; subst. now rewrite (IH Hl), Hc.
Qed.

Lemma rstrip_app_blank (core post : string) :
  blank post -> Py.rstrip (core ++ post) = Py.rstrip core.
Proof.
  intros H. induction core as [| c core IH]; cbn.
  - now apply rstrip_blank.
  - now rewrite IH.
Qed.

Lemma lstrip_length (s : string) :
  (String.length (Py.lstrip s) <= String.length s)%nat.
Proof.
  induction s as [| c s IH]; cbn; [lia |].
  destruct (Py.isspace c); cbn; lia.
Qed.

Lemma lstrip_fixed (core post : string) :
  Py.lstrip core = core -> core <> "" -> Py.lstrip (core ++ post) = (core ++ post).
Proof.
  destruct core as [| c core]; [contradiction |]. cbn. intros H _.
  destruct (Py.isspace c); [| reflexivity].
  pose proof (lstrip_length core) as L. rewrite H in L. cbn in L. lia.
Qed.

Lemma strip_surrounded (pre core post : string) :
  blank pre -> blank post ->
  Py.lstrip core = core -> Py.rstrip core = core ->
  Py.strip (pre ++ core ++ post) = core.
Proof.
  intros Hpre Hpost Hl Hr. unfold Py.strip. rewrite (lstrip_blank _ _ Hpre).
  destruct core as [| c core].
  - cbn [String.append]. clear Hl Hr.
    assert (E : forall s, blank s -> Py.rstrip (Py.lstrip s) = "").
    { unfold blank. induction s as [| c s IH]; cbn; intros H; [reflexivity |].
      inversion H as [| c' l' Hc Hl]; subst. rewrite Hc. now apply IH. }
    now apply E.
  - rewrite lstrip_fixed by (trivial; discriminate).
    rewrite rstrip_app_blank by exact Hpost. exact Hr.
Qed.

End Runs.

(* ------------------------------------------------------------------ *)
(** * Margins and proportions *)

Module MarginFacts.
Import Rounding PlacementFacts.

Lemma small_powers :
  (F64.bpow (-44) = 128 * F64.bpow (-51)
   /\ F64.bpow (-42) = 512 * F64.bpow (-51)
   /\ 0 < F64.bpow (-51))%R.
Proof.
  repeat split.
  - change (-44) with (7 + -51). rewrite bpow_add, (bpow_IZR 7) by lia. reflexivity.
  - change (-42) with (9 + -51). rewrite bpow_add, (bpow_IZR 9) by lia. reflexivity.
  - apply bpow_pos.
Qed.

(** The origin leaves the margin free on both sides, up to [2^-42]. *)
Lemma origin_margin (P : Z) (n : F64.float) :
  P = 612 \/ P = 792 ->
  F64.nice n ->
  (F64.bpow (-380) <= F64.to_R n <= (IZR P - 72) * (1 + F64.eps))%R ->
  let x := Py.div_float_int (Py.sub_int_float P n) 2 in
  F64.nice x
  /\ (36 - F64.bpow (-42) <= F64.to_R x)%R
  /\ (F64.to_R x + F64.to_R n <= IZR P - 36 + F64.bpow (-42))%R.
Proof.
  intros HP Nn [Hlo Hhi]. cbn zeta.
  assert (HPr : 612 <= P <= 792) by lia.
  assert (HPR : (612 <= IZR P <= 792)%R) by (split; apply IZR_le; lia).
  destruct (of_int_nice P ltac:(lia)) as [NP VP].
  pose proof (bpow_pos (-380)) as Hpos.
  destruct small_powers as (B44 & B42 & B51).
  assert (E51 : (F64.bpow (-51) < / 2048)%R).
  { destruct u_facts as (U0 & U1 & Ue). unfold F64.eps in Ue.
    assert (F64.bpow (-51) <= F64.bpow (-11))%R by (apply bpow_le; lia).
    assert (F64.bpow (-11) = / 2048)%R.
    { change (-11) with (- (11)). rewrite bpow_opp, bpow_IZR by lia. reflexivity. }
    assert (F64.bpow (-51) < F64.bpow (-11))%R by (apply bpow_lt; lia). lra. }
  unfold F64.eps in Hhi. set (e := F64.bpow (-51)) in *.
  assert (Hn : (F64.to_R n <= IZR P - 72 + 720 * e)%R) by nra.
  set (t := Py.sub_int_float P n).
  assert (Rt : F64.rounds (IZR P - F64.to_R n) t).
  { unfold t, Py.sub_int_float. rewrite <- VP. apply sub_rounds; try assumption. lra. }
  set (v := (IZR P - F64.to_R n)%R) in *.
  assert (B10 : F64.bpow 10 = 1024%R) by (rewrite bpow_IZR by lia; reflexivity).
  assert (Nt : F64.nice t).
  { apply (rounds_nice _ _ Rt).
    assert (F64.bpow (-390) <= F64.bpow 0)%R by (apply bpow_le; lia).
    assert (F64.bpow 10 <= F64.bpow 390)%R by (apply bpow_le; lia).
    rewrite bpow_0 in *. unfold v. lra. }
  assert (Et : (Rabs (F64.to_R t - v) <= F64.bpow (-44))%R).
  { apply (rounds_abs_error v t 10 Rt). unfold v. lra. }
  apply Rabs_bounds in Et.
  assert (B380 : (1024 <= F64.bpow 380)%R).
  { rewrite <- B10. apply bpow_le. lia. }
  assert (B380' : (F64.bpow (-380) <= 1)%R).
  { rewrite <- bpow_0. apply bpow_le. lia. }
  destruct (half_exact t Nt ltac:(unfold v in *; lra)) as [Nx Vx].
  split; [exact Nx |]. fold t. rewrite Vx. unfold v in *. split; lra.
Qed.

Section Proportion.
Variables w h A B : Z.
Hypothesis Hw : 0 < w < 2 ^ 53.
Hypothesis Hh : 0 < h < 2 ^ 53.
Hypothesis HA : 0 < A <= 720.
Hypothesis HB : 0 < B <= 720.

Local Abbreviation s :=
  (Py.min (F64.div (F64.of_int A) (F64.of_int w))
          (F64.div (F64.of_int B) (F64.of_int h))).

(** The scaled sides are in the proportion of the sides, up to two
    roundings. *)
Lemma proportion :
  (F64.to_R (Py.mul_int_float w s) * IZR h * (1 - F64.eps)
   <= F64.to_R (Py.mul_int_float h s) * IZR w
   <= F64.to_R (Py.mul_int_float w s) * IZR h * (1 + F64.eps))%R.
Proof.
  destruct (new_w_rounds w h A B Hw Hh HA HB) as [Rw _].
  destruct (new_h_rounds w h A B Hw Hh HA HB) as [Rh _].
  destruct (scale_nice w h A B Hw Hh HA HB) as (Ns & _).
  pose proof (rounds_bounds _ _ Rw) as [Lw Uw].
  pose proof (rounds_bounds _ _ Rh) as [Lh Uh].
  pose proof (nice_pos _ Ns) as Sp.
  destruct u_facts as (U0 & Us & Ue). rewrite Ue.
  set (u := F64.bpow (-53)) in *.
  assert (Pw : (0 < IZR w)%R) by (apply IZR_lt; lia).
  assert (Ph : (0 < IZR h)%R) by (apply IZR_lt; lia).
  set (nw := F64.to_R (Py.mul_int_float w s)) in *.
  set (nh := F64.to_R (Py.mul_int_float h s)) in *.
  set (k := (IZR w * IZR h * F64.to_R s)%R).
  assert (Pk : (0 < k)%R).
  { unfold k. apply Rmult_lt_0_compat; [apply Rmult_lt_0_compat |]; assumption. }
  assert (W1 : (k * (1 - u) <= nw * IZR h)%R).
  { replace (k * (1 - u))%R with (IZR w * F64.to_R s * (1 - u) * IZR h)%R
      by (unfold k; ring).
    apply Rmult_le_compat_r; lra. }
  assert (W2 : (nw * IZR h <= k * (1 + u))%R).
  { replace (k * (1 + u))%R with (IZR w * F64.to_R s * (1 + u) * IZR h)%R
      by (unfold k; ring).
    apply Rmult_le_compat_r; lra. }
  assert (H1 : (k * (1 - u) <= nh * IZR w)%R).
  { replace (k * (1 - u))%R with (IZR h * F64.to_R s * (1 - u) * IZR w)%R
      by (unfold k; ring).
    apply Rmult_le_compat_r; lra. }
  assert (H2 : (nh * IZR w <= k * (1 + u))%R).
  { replace (k * (1 + u))%R with (IZR h * F64.to_R s * (1 + u) * IZR w)%R
      by (unfold k; ring).
    apply Rmult_le_compat_r; lra. }
  assert (A1 : ((1 + u) * (1 - 4 * u) <= 1 - u)%R) by nra.
  assert (A2 : (1 + u <= (1 - u) * (1 + 4 * u))%R) by nra.
  split.
  - apply Rle_trans with (k * (1 + u) * (1 - 4 * u))%R.
    + apply Rmult_le_compat_r; lra.
    + apply Rle_trans with (k * (1 - u))%R; [| exact H1].
      rewrite Rmult_assoc. apply Rmult_le_compat_l; lra.
  - apply Rle_trans with (k * (1 - u) * (1 + 4 * u))%R.
    + apply Rle_trans with (k * (1 + u))%R; [exact H2 |].
      rewrite Rmult_assoc. apply Rmult_le_compat_l; lra.
    + apply Rmult_le_compat_r; lra.
Qed.

End Proportion.
End MarginFacts.

(* ------------------------------------------------------------------ *)
(** * Properties of the list and its buttons *)

Module Listing.
Import Gui ListFacts OrderFacts GuiFacts.

Lemma selection_in_range (env : App.Env) (w : Window) :
  in_step env w -> selection_ok w ->
  StronglySorted Z.lt (Tk.selection (selected_images_listbox w))
  /\ Forall (fun i => 0 <= i < Z.of_nat (List.length (image_paths w)))
            (Tk.selection (selected_images_listbox w)).
Proof.
  intros Hs [H1 H2]. unfold in_step in Hs. rewrite Hs, length_map in H2.
  split; assumption.
Qed.

Lemma shown_in_step (env : App.Env) (s : string) (l : list string) (w : Window) :
  let r := set_status s
             (with_listbox (Tk.mkListbox (map (App.basename env) l) [])
                (with_paths l w)) in
  fst r = Ok tt /\ in_step env (snd r) /\ selection_ok (snd r).
Proof.
  cbn. repeat split; constructor.
Qed.

Lemma getitem_eq {A} (l l' : list A) (i i' : Z) :
  0 <= i < Z.of_nat (List.length l) ->
  0 <= i' < Z.of_nat (List.length l') ->
  nth_error l' (Z.to_nat i') = nth_error l (Z.to_nat i) ->
  PyList.getitem l' i' = PyList.getitem l i.
Proof.
  intros Hi Hi' H. unfold PyList.getitem.
  rewrite !position_in by assumption. now rewrite H.
Qed.

Lemma paths_shown (env : App.Env) (w : Window) :
  in_step env w ->
  with_listbox
    (Tk.mkListbox (map (App.basename env) (image_paths w))
                  (Tk.selection (selected_images_listbox w)))
    (with_paths (image_paths w) w) = w.
Proof.
  intros H. rewrite with_paths_same, <- H. apply with_listbox_same.
Qed.

(** Every handler returns and leaves the listbox showing the list. *)
Lemma handlers_keep (env : App.Env) (w : Window) (paths : list string) :
  in_step env w -> selection_ok w ->
  let kept (c : M unit) :=
    fst (c w) = Ok tt /\ in_step env (snd (c w)) /\ selection_ok (snd (c w)) in
  kept (update_selected_images_listbox env)
  /\ kept (select_images env paths)
  /\ kept (add_images env paths)
  /\ kept (clear_list env)
  /\ kept (remove_selected env)
  /\ kept (move_up env)
  /\ kept (move_down env)
  /\ kept (convert_images_to_pdf env).
Proof.
  intros Hstep Hsel kept. subst kept. cbn beta.
  destruct (selection_in_range env w Hstep Hsel) as [Hs Hr].
  assert (Hsame : fst (@pair (Res unit) _ (Ok tt) w) = Ok tt
                  /\ in_step env w /\ selection_ok w)
    by (split; [reflexivity | split; assumption]).
  split; [| split; [| split; [| split; [| split; [| split; [| split]]]]]].
  - rewrite update_run. cbn. repeat split; constructor.
  - destruct paths as [| p ps]; [exact Hsame |].
    rewrite select_images_run. apply shown_in_step.
  - destruct paths as [| p ps]; [exact Hsame |].
    rewrite add_images_run. apply shown_in_step.
  - rewrite clear_list_run. apply shown_in_step.
  - destruct (Tk.selection (selected_images_listbox w)) as [| i rest] eqn:E.
    + unfold remove_selected, Tk.curselection. rewrite E. cbn.
      repeat split; try assumption; apply Hsel.
    + rewrite (remove_selected_run env w i rest E Hs Hr). apply shown_in_step.
  - destruct (Tk.selection (selected_images_listbox w)) as [| i rest] eqn:E.
    + unfold move_up, Tk.curselection. rewrite E. exact Hsame.
    + destruct (Z.eq_dec i 0) as [-> | Hne].
      * unfold move_up, Tk.curselection. rewrite E. exact Hsame.
      * rewrite (move_up_run env w i rest E Hs Hr Hne). cbn [fst snd].
        split; [reflexivity |]. split; [reflexivity |].
        unfold selection_ok. cbn [with_listbox selected_images_listbox
          Tk.items Tk.selection]. split.
        -- apply sorted_map; [intros; lia | exact Hs].
        -- rewrite length_map, fold_transpose_len.
           inversion Hs as [| a l' _ Ha]; subst.
           rewrite Forall_forall in *. intros x Hx.
           apply in_map_iff in Hx. destruct Hx as (y & <- & Hy).
           pose proof (Hr y Hy). pose proof (Hr i (or_introl eq_refl)).
           destruct Hy as [<- | Hy]; [lia |]. specialize (Ha y Hy). lia.
  - destruct (Tk.selection (selected_images_listbox w)) as [| i rest] eqn:E.
    + unfold move_down, Tk.curselection. rewrite E. exact Hsame.
    + destruct (Z.eq_dec (last (i :: rest) 0)
                  (Z.of_nat (List.length (image_paths w)) - 1)) as [Hl | Hne].
      * unfold move_down, Tk.curselection. rewrite E.
        destruct (Z.eqb_spec (last (i :: rest) 0)
                    (Z.of_nat (List.length (image_paths w)) - 1));
          [exact Hsame | contradiction].
      * rewrite (move_down_run env w i rest E Hs Hr Hne). cbn [fst snd].
        split; [reflexivity |]. split; [reflexivity |].
        unfold selection_ok. cbn [with_listbox selected_images_listbox
          Tk.items Tk.selection]. split.
        -- apply sorted_map; [intros; lia | exact Hs].
        -- rewrite length_map, fold_transpose_len.
           destruct (sorted_last _ _ Hs) as [_ Hin].
           assert (Hmax : forall x, In x (i :: rest) -> x <= last (i :: rest) 0).
           { clear - Hs. revert Hs. generalize i.
             induction rest as [| b l IH]; intros a Hs x Hx.
             - destruct Hx as [-> | []]. cbn. lia.
             - inversion Hs as [| a' l' Hs' Ha]; subst.
               change (last (a :: b :: l) 0) with (last (b :: l) 0).
               destruct Hx as [-> | Hx]; [| now apply IH].
               pose proof (IH b Hs' b (or_introl eq_refl)).
               inversion Ha; subst. lia. }
           rewrite Forall_forall in *. intros x Hx.
           apply in_map_iff in Hx. destruct Hx as (y & <- & Hy).
           pose proof (Hr y Hy). pose proof (Hr _ Hin).
           specialize (Hmax y Hy). lia.
  - unfold convert_images_to_pdf. cbn [fst snd].
    split; [apply Runs.convert_total |]. split.
    + unfold in_step in *. cbn [with_app selected_images_listbox].
      unfold image_paths. cbn [with_app app].
      destruct (RunFacts.keeps_convert_images_to_pdf env (app w)) as [K _].
      rewrite K. exact Hstep.
    + exact Hsel.
Qed.

(** X1.  The listbox follows the list: from a window whose listbox shows
    the file names of the stored paths, with a selection Tk can return,
    each of the buttons (and the refresh they share) returns without an
    exception and leaves the listbox showing the file names of the paths
    then stored, in order, with a selection within its lines. *)
Theorem listbox_stays_in_step (env : App.Env) (w : Window) (paths : list string) :
  in_step env w -> selection_ok w ->
  let kept (c : M unit) :=
    fst (c w) = Ok tt /\ in_step env (snd (c w)) /\ selection_ok (snd (c w)) in
  kept (update_selected_images_listbox env)
  /\ kept (select_images env paths)
  /\ kept (add_images env paths)
  /\ kept (clear_list env)
  /\ kept (remove_selected env)
  /\ kept (move_up env)
  /\ kept (move_down env)
  /\ kept (convert_images_to_pdf env).
Proof. exact (handlers_keep env w paths). Qed.

Lemma listbox_stays_in_step_witness :
  let w := Desk.window Desk.four [1; 3] in
  let kept (c : M unit) :=
    fst (c w) = Ok tt /\ in_step Desk.env (snd (c w)) /\ selection_ok (snd (c w)) in
  kept (update_selected_images_listbox Desk.env)
  /\ kept (select_images Desk.env ["/new/a.png"])
  /\ kept (add_images Desk.env ["/new/a.png"])
  /\ kept (clear_list Desk.env)
  /\ kept (remove_selected Desk.env)
  /\ kept (move_up Desk.env)
  /\ kept (move_down Desk.env)
  /\ kept (convert_images_to_pdf Desk.env).
Proof.
  apply (listbox_stays_in_step Desk.env (Desk.window Desk.four [1; 3])
           ["/new/a.png"]).
  - reflexivity.
  - split; repeat constructor; cbn; lia.
Defined.

(** X2.  "Add More" appends: the list keeps its old entries in place and
    receives, after them and once each, exactly the chosen paths it did
    not hold; chosen paths that are all new and distinct are appended in
    the order chosen, and a list without duplicates stays without.  The
    status line counts the entries. *)
Theorem add_images_appends_new_paths (env : App.Env) (w : Window)
    (paths : list string) :
  let l := image_paths w in
  let w' := snd (add_images env paths w) in
  exists extra,
    image_paths w' = (l ++ extra)%list
    /\ NoDup extra
    /\ (forall p, In p extra <-> In p paths /\ ~ In p l)
    /\ (NoDup paths -> (forall p, In p paths -> ~ In p l) -> extra = paths)
    /\ (NoDup l -> NoDup (image_paths w'))
    /\ (paths <> [] ->
        App.status_text (app w')
        = "Selected " ++ Py.str (Z.of_nat (List.length (l ++ extra)))
          ++ " image(s).").
Proof.
  cbn zeta. destruct (appended paths (image_paths w)) as (extra & E1 & E2 & E3 & E4).
  cbn zeta in E1. exists extra.
  assert (Hp : image_paths (snd (add_images env paths w))
               = (image_paths w ++ extra)%list).
  { destruct paths as [| p ps].
    - cbn [add_images ret snd]. exact E1.
    - rewrite add_images_run. cbn [snd set_status on_app]. exact E1. }
  split; [exact Hp |]. split; [exact E2 |]. split; [exact E3 |].
  split; [exact E4 |]. split.
  - intros Hnd. rewrite Hp. clear Hp E1 E4. revert Hnd.
    assert (Hd : forall p, In p extra -> ~ In p (image_paths w))
      by (intros p Hx; now apply E3 in Hx).
    clear E3. induction (image_paths w) as [| a l IH]; intros Hnd; [exact E2 |].
    inversion Hnd as [| a' l' Ha Hnd']; subst. cbn [app]. constructor.
    + intros C. apply in_app_or in C. destruct C as [C | C]; [contradiction |].
      apply (Hd a C). now left.
    + apply IH; [| exact Hnd']. intros p Hx C. apply (Hd p Hx). now right.
  - intros Hne. destruct paths as [| p ps]; [contradiction |].
    rewrite add_images_run. cbn [snd set_status on_app with_app app
      App.set_status App.emit App.with_log App.with_status App.status_text].
    now rewrite E1.
Qed.

(** X3.  Adding the same files a second time leaves the list as the
    first time left it. *)
Theorem add_images_twice (env : App.Env) (w : Window) (paths : list string) :
  let w1 := snd (add_images env paths w) in
  image_paths (snd (add_images env paths w1)) = image_paths w1.
Proof.
  cbn zeta. destruct paths as [| p ps]; [reflexivity |].
  rewrite !add_images_run. cbn [snd set_status on_app].
  change (image_paths (with_app ?a (with_listbox ?b (with_paths ?l ?v)))) with l.
  set (l1 := fold_left _ (p :: ps) (image_paths w)).
  apply nothing_new. intros q Hq.
  destruct (appended (p :: ps) (image_paths w)) as (extra & E1 & _ & E3 & _).
  cbn zeta in E1. fold l1 in E1. rewrite E1. apply in_or_app.
  destruct (in_dec string_dec q (image_paths w)) as [Hin | Hout];
    [now left | right; apply E3; split; assumption].
Qed.

(** X4.  "Remove Selected" with lines selected: the method returns, the
    list is the old list without the entries at the selected positions,
    the others keeping their order, so it is shorter by the number of
    selected lines; the listbox is refreshed with nothing selected and
    the status line counts what remains. *)
Theorem remove_selected_takes_out_selection (env : App.Env) (w : Window) :
  in_step env w -> selection_ok w ->
  Tk.selection (selected_images_listbox w) <> [] ->
  let sel := Tk.selection (selected_images_listbox w) in
  let w' := snd (remove_selected env w) in
  fst (remove_selected env w) = Ok tt
  /\ image_paths w' = unselected sel 0 (image_paths w)
  /\ (List.length (image_paths w') + List.length sel
      = List.length (image_paths w))%nat
  /\ selected_images_listbox w'
     = Tk.mkListbox (map (App.basename env) (image_paths w')) []
  /\ App.status_text (app w')
     = "Remaining " ++ Py.str (Z.of_nat (List.length (image_paths w')))
       ++ " image(s).".
Proof.
  intros Hstep Hsel Hne. cbn zeta.
  destruct (selection_in_range env w Hstep Hsel) as [Hs Hr].
  destruct (Tk.selection (selected_images_listbox w)) as [| i rest] eqn:E;
    [contradiction |].
  rewrite (remove_selected_run env w i rest E Hs Hr).
  destruct (delete_selected (i :: rest) w Hs Hr) as [_ L].
  cbn [fst snd set_status on_app].
  change (image_paths (with_app ?a (with_listbox ?b (with_paths ?l ?v)))) with l.
  repeat split; try reflexivity. exact L.
Qed.

Lemma remove_selected_takes_out_selection_witness :
  let w := Desk.window Desk.four [1; 3] in
  let sel := Tk.selection (selected_images_listbox w) in
  let w' := snd (remove_selected Desk.env w) in
  fst (remove_selected Desk.env w) = Ok tt
  /\ image_paths w' = unselected sel 0 (image_paths w)
  /\ (List.length (image_paths w') + List.length sel
      = List.length (image_paths w))%nat
  /\ selected_images_listbox w'
     = Tk.mkListbox (map (App.basename Desk.env) (image_paths w')) []
  /\ App.status_text (app w')
     = "Remaining " ++ Py.str (Z.of_nat (List.length (image_paths w')))
       ++ " image(s).".
Proof.
  apply (remove_selected_takes_out_selection Desk.env (Desk.window Desk.four [1; 3])).
  - reflexivity.
  - split; repeat constructor; cbn; lia.
  - discriminate.
Defined.

(** X5.  "Move Up" with lines selected, the top line not among them: the
    method returns; the list is a rearrangement of the old one in which
    every selected entry stands one position higher, and every entry that
    was neither selected nor just above a selected one keeps its
    position; the moved lines are selected again, and the status line
    and the trace are untouched. *)
Theorem move_up_lifts_selection (env : App.Env) (w : Window) :
  in_step env w -> selection_ok w ->
  Tk.selection (selected_images_listbox w) <> [] ->
  ~ In 0 (Tk.selection (selected_images_listbox w)) ->
  let sel := Tk.selection (selected_images_listbox w) in
  let l := image_paths w in
  let w' := snd (move_up env w) in
  fst (move_up env w) = Ok tt
  /\ Permutation l (image_paths w')
  /\ (forall idx, In idx sel ->
        PyList.getitem (image_paths w') (idx - 1) = PyList.getitem l idx)
  /\ (forall j, 0 <= j < Z.of_nat (List.length l) ->
        ~ In j sel -> ~ In (j + 1) sel ->
        PyList.getitem (image_paths w') j = PyList.getitem l j)
  /\ Tk.selection (selected_images_listbox w') = map (fun i => i - 1) sel
  /\ App.status_text (app w') = App.status_text (app w)
  /\ App.log (app w') = App.log (app w).
Proof.
  intros Hstep Hsel Hne H0. cbn zeta.
  destruct (selection_in_range env w Hstep Hsel) as [Hs Hr].
  destruct (Tk.selection (selected_images_listbox w)) as [| i rest] eqn:E;
    [contradiction |].
  assert (Hi : i <> 0) by (intros ->; apply H0; now left).
  rewrite (move_up_run env w i rest E Hs Hr Hi). cbn [fst snd].
  change (image_paths (with_listbox ?b (with_paths ?l ?v))) with l.
  assert (Hr1 : Forall (fun i => 1 <= i < Z.of_nat (List.length (image_paths w)))
                  (i :: rest)).
  { rewrite Forall_forall in *. intros x Hx. specialize (Hr x Hx).
    assert (x <> 0) by (intros ->; contradiction). lia. }
  destruct (lifted (i :: rest) (image_paths w) Hs Hr1) as [LA LB].
  cbn zeta in LA, LB.
  set (l' := fold_left _ (i :: rest) (image_paths w)) in *.
  assert (Hlen : List.length l' = List.length (image_paths w))
    by apply fold_transpose_len.
  split; [reflexivity |]. split; [apply fold_transpose_perm |].
  split; [| split; [| repeat split]].
  - intros idx Hin. rewrite Forall_forall in Hr1. specialize (Hr1 idx Hin).
    apply getitem_eq; [lia | lia | apply LA, Hin].
  - intros j Hj Hn1 Hn2. apply getitem_eq; [lia | lia | apply LB; trivial; lia].
Qed.

Lemma move_up_lifts_selection_witness :
  let w := Desk.window Desk.four [1; 3] in
  let sel := Tk.selection (selected_images_listbox w) in
  let l := image_paths w in
  let w' := snd (move_up Desk.env w) in
  fst (move_up Desk.env w) = Ok tt
  /\ Permutation l (image_paths w')
  /\ (forall idx, In idx sel ->
        PyList.getitem (image_paths w') (idx - 1) = PyList.getitem l idx)
  /\ (forall j, 0 <= j < Z.of_nat (List.length l) ->
        ~ In j sel -> ~ In (j + 1) sel ->
        PyList.getitem (image_paths w') j = PyList.getitem l j)
  /\ Tk.selection (selected_images_listbox w') = map (fun i => i - 1) sel
  /\ App.status_text (app w') = App.status_text (app w)
  /\ App.log (app w') = App.log (app w).
Proof.
  apply (move_up_lifts_selection Desk.env (Desk.window Desk.four [1; 3])).
  - reflexivity.
  - split; repeat constructor; cbn; lia.
  - discriminate.
  - cbn. lia.
Defined.

(** X6.  "Move Down" with lines selected, the bottom line not among them:
    the method returns; the list is a rearrangement of the old one in
    which every selected entry stands one position lower, and every entry
    that was neither selected nor just below a selected one keeps its
    position; the moved lines are selected again, and the status line
    and the trace are untouched. *)
Theorem move_down_lowers_selection (env : App.Env) (w : Window) :
  in_step env w -> selection_ok w ->
  Tk.selection (selected_images_listbox w) <> [] ->
  ~ In (Z.of_nat (List.length (image_paths w)) - 1)
       (Tk.selection (selected_images_listbox w)) ->
  let sel := Tk.selection (selected_images_listbox w) in
  let l := image_paths w in
  let w' := snd (move_down env w) in
  fst (move_down env w) = Ok tt
  /\ Permutation l (image_paths w')
  /\ (forall idx, In idx sel ->
        PyList.getitem (image_paths w') (idx + 1) = PyList.getitem l idx)
  /\ (forall j, 0 <= j < Z.of_nat (List.length l) ->
        ~ In j sel -> ~ In (j - 1) sel ->
        PyList.getitem (image_paths w') j = PyList.getitem l j)
  /\ Tk.selection (selected_images_listbox w') = map (fun i => i + 1) sel
  /\ App.status_text (app w') = App.status_text (app w)
  /\ App.log (app w') = App.log (app w).
Proof.
  intros Hstep Hsel Hne H0. cbn zeta.
  destruct (selection_in_range env w Hstep Hsel) as [Hs Hr].
  destruct (Tk.selection (selected_images_listbox w)) as [| i rest] eqn:E;
    [contradiction |].
  destruct (sorted_last _ _ Hs) as [_ Hin].
  assert (Hl : last (i :: rest) 0 <> Z.of_nat (List.length (image_paths w)) - 1)
    by (intros C; apply H0; rewrite <- C; exact Hin).
  rewrite (move_down_run env w i rest E Hs Hr Hl). cbn [fst snd].
  change (image_paths (with_listbox ?b (with_paths ?l ?v))) with l.
  assert (Hr1 : Forall (fun i => 0 <= i < Z.of_nat (List.length (image_paths w)) - 1)
                  (i :: rest)).
  { rewrite Forall_forall in *. intros x Hx. specialize (Hr x Hx).
    assert (x <> Z.of_nat (List.length (image_paths w)) - 1)
      by (intros ->; contradiction). lia. }
  destruct (pushed (i :: rest) (image_paths w) Hs Hr1) as [LA LB].
  cbn zeta in LA, LB.
  set (l' := fold_left _ (rev (i :: rest)) (image_paths w)) in *.
  assert (Hlen : List.length l' = List.length (image_paths w))
    by apply fold_transpose_len.
  split; [reflexivity |]. split; [apply fold_transpose_perm |].
  split; [| split; [| repeat split]].
  - intros idx Hx. rewrite Forall_forall in Hr1. specialize (Hr1 idx Hx).
    apply getitem_eq; [lia | lia | apply LA, Hx].
  - intros j Hj Hn1 Hn2. apply getitem_eq; [lia | lia | apply LB; trivial; lia].
Qed.

Lemma move_down_lowers_selection_witness :
  let w := Desk.window Desk.four [0; 2] in
  let sel := Tk.selection (selected_images_listbox w) in
  let l := image_paths w in
  let w' := snd (move_down Desk.env w) in
  fst (move_down Desk.env w) = Ok tt
  /\ Permutation l (image_paths w')
  /\ (forall idx, In idx sel ->
        PyList.getitem (image_paths w') (idx + 1) = PyList.getitem l idx)
  /\ (forall j, 0 <= j < Z.of_nat (List.length l) ->
        ~ In j sel -> ~ In (j - 1) sel ->
        PyList.getitem (image_paths w') j = PyList.getitem l j)
  /\ Tk.selection (selected_images_listbox w') = map (fun i => i + 1) sel
  /\ App.status_text (app w') = App.status_text (app w)
  /\ App.log (app w') = App.log (app w).
Proof.
  apply (move_down_lowers_selection Desk.env (Desk.window Desk.four [0; 2])).
  - reflexivity.
  - split; repeat constructor; cbn; lia.
  - discriminate.
  - cbn. lia.
Defined.

Lemma map_back (f g : Z -> Z) (l : list Z) :
  (forall x, g (f x) = x) -> map g (map f l) = l.
Proof.
  intros H. rewrite map_map. rewrite <- (map_id l) at 2.
  apply map_ext. exact H.
Qed.

(** X7.  "Move Up" followed by "Move Down" gives the window back: when
    the top line is not selected, the list, the listbox, its selection,
    the status line and the trace are what they were. *)
Theorem move_up_then_down_restores (env : App.Env) (w : Window) :
  in_step env w -> selection_ok w ->
  ~ In 0 (Tk.selection (selected_images_listbox w)) ->
  fst (move_up env w) = Ok tt
  /\ move_down env (snd (move_up env w)) = (Ok tt, w).
Proof.
  intros Hstep Hsel H0.
  destruct (selection_in_range env w Hstep Hsel) as [Hs Hr].
  destruct (Tk.selection (selected_images_listbox w)) as [| i rest] eqn:E.
  - unfold move_up, Tk.curselection. rewrite E. cbn [fst snd].
    unfold move_down, Tk.curselection. rewrite E. split; reflexivity.
  - assert (Hi : i <> 0) by (intros ->; apply H0; now left).
    rewrite (move_up_run env w i rest E Hs Hr Hi). cbn [fst snd].
    split; [reflexivity |].
    set (l1 := fold_left _ (i :: rest) (image_paths w)).
    assert (Hlen : List.length l1 = List.length (image_paths w))
      by apply fold_transpose_len.
    assert (Hr1 : Forall (fun i => 1 <= i < Z.of_nat (List.length (image_paths w)))
                    (i :: rest)).
    { rewrite Forall_forall in *. intros x Hx. specialize (Hr x Hx).
      assert (x <> 0) by (intros ->; contradiction). lia. }
    assert (Hs' : StronglySorted Z.lt (map (fun i => i - 1) (i :: rest)))
      by (apply sorted_map; [intros; lia | exact Hs]).
    assert (Hr' : Forall (fun i => 0 <= i < Z.of_nat (List.length l1) - 1)
                    (map (fun i => i - 1) (i :: rest))).
    { apply Forall_map. revert Hr1. apply Forall_impl. intros; lia. }
    rewrite (move_down_run env _ (i - 1) (map (fun i => i - 1) rest)).
    + change (image_paths (with_listbox ?b (with_paths ?l ?v))) with l.
      change ((i - 1) :: map (fun i => i - 1) rest)
        with (map (fun i => i - 1) (i :: rest)).
      rewrite <- map_rev, fold_map. unfold l1. rewrite fold_back.
      rewrite map_back by (intros; lia).
      cbn [with_listbox with_paths with_app app selected_images_listbox].
      f_equal. rewrite <- E. exact (paths_shown env w Hstep).
    + reflexivity.
    + exact Hs'.
    + change (image_paths (with_listbox ?b (with_paths ?l ?v))) with l.
      revert Hr'. apply Forall_impl. intros; lia.
    + change (image_paths (with_listbox ?b (with_paths ?l ?v))) with l.
      destruct (sorted_last (i - 1) (map (fun i => i - 1) rest) Hs') as [_ Hin].
      pose proof (proj1 (Forall_forall _ _) Hr' _ Hin) as Hb. cbn beta in Hb. lia.
Qed.

Lemma move_up_then_down_restores_witness :
  let w := Desk.window Desk.four [1; 3] in
  fst (move_up Desk.env w) = Ok tt
  /\ move_down Desk.env (snd (move_up Desk.env w)) = (Ok tt, w).
Proof.
  apply (move_up_then_down_restores Desk.env (Desk.window Desk.four [1; 3])).
  - reflexivity.
  - split; repeat constructor; cbn; lia.
  - cbn. lia.
Defined.

(** X8.  "Move Down" followed by "Move Up" gives the window back, when
    the bottom line is not selected. *)
Theorem move_down_then_up_restores (env : App.Env) (w : Window) :
  in_step env w -> selection_ok w ->
  ~ In (Z.of_nat (List.length (image_paths w)) - 1)
       (Tk.selection (selected_images_listbox w)) ->
  fst (move_down env w) = Ok tt
  /\ move_up env (snd (move_down env w)) = (Ok tt, w).
Proof.
  intros Hstep Hsel H0.
  destruct (selection_in_range env w Hstep Hsel) as [Hs Hr].
  destruct (Tk.selection (selected_images_listbox w)) as [| i rest] eqn:E.
  - unfold move_down, Tk.curselection. rewrite E. cbn [fst snd].
    unfold move_up, Tk.curselection. rewrite E. split; reflexivity.
  - destruct (sorted_last _ _ Hs) as [_ Hin].
    assert (Hl : last (i :: rest) 0 <> Z.of_nat (List.length (image_paths w)) - 1)
      by (intros C; apply H0; rewrite <- C; exact Hin).
    rewrite (move_down_run env w i rest E Hs Hr Hl). cbn [fst snd].
    split; [reflexivity |].
    set (l1 := fold_left _ (rev (i :: rest)) (image_paths w)).
    assert (Hlen : List.length l1 = List.length (image_paths w))
      by apply fold_transpose_len.
    assert (Hr1 : Forall (fun i => 0 <= i < Z.of_nat (List.length (image_paths w)) - 1)
                    (i :: rest)).
    { rewrite Forall_forall in *. intros x Hx. specialize (Hr x Hx).
      assert (x <> Z.of_nat (List.length (image_paths w)) - 1)
        by (intros ->; contradiction). lia. }
    rewrite (move_up_run env _ (i + 1) (map (fun i => i + 1) rest)).
    + change (image_paths (with_listbox ?b (with_paths ?l ?v))) with l.
      change ((i + 1) :: map (fun i => i + 1) rest)
        with (map (fun i => i + 1) (i :: rest)).
      rewrite fold_map.
      rewrite (fold_same (fun idx => Z.to_nat (idx + 1 - 1)) Z.to_nat)
        by (intros; f_equal; lia).
      unfold l1. rewrite fold_forth.
      rewrite map_back by (intros; lia).
      cbn [with_listbox with_paths with_app app selected_images_listbox].
      f_equal. rewrite <- E. exact (paths_shown env w Hstep).
    + reflexivity.
    + change ((i + 1) :: map (fun i => i + 1) rest)
        with (map (fun i => i + 1) (i :: rest)).
      apply sorted_map; [intros; lia | exact Hs].
    + change (image_paths (with_listbox ?b (with_paths ?l ?v))) with l.
      change ((i + 1) :: map (fun i => i + 1) rest)
        with (map (fun i => i + 1) (i :: rest)).
      apply Forall_map. revert Hr1. apply Forall_impl. intros; lia.
    + pose proof (Forall_inv Hr). cbn beta in *. lia.
Qed.

Lemma move_down_then_up_restores_witness :
  let w := Desk.window Desk.four [0; 2] in
  fst (move_down Desk.env w) = Ok tt
  /\ move_up Desk.env (snd (move_down Desk.env w)) = (Ok tt, w).
Proof.
  apply (move_down_then_up_restores Desk.env (Desk.window Desk.four [0; 2])).
  - reflexivity.
  - split; repeat constructor; cbn; lia.
  - cbn. lia.
Defined.

End Listing.

(* ------------------------------------------------------------------ *)
(** * Further properties of the conversion *)

Module ConversionMore.
Import App ImageFacts LoopFacts RunFacts Shown Runs.

(** X10.  A destination that cannot be written is found out last: when
    every image renders and [save] raises, every image has been opened
    and its page drawn, [save] has been called once, nothing is written,
    the status reads "Error." and the message of the exception is
    shown. *)
Theorem unwritable_destination_reports_error (env : Env) (st : State)
    (imgs : list PIL.Image) (e : exn) :
  image_paths st <> [] ->
  Forall2 (renders env) (image_paths st) imgs ->
  asksaveasfilename env (initialfile st) <> "" ->
  save_error env (asksaveasfilename env (initialfile st)) = Some e ->
  let save_path := asksaveasfilename env (initialfile st) in
  let st' := snd (convert_images_to_pdf env st) in
  fst (convert_images_to_pdf env st) = Ok tt
  /\ opened (log st') = (opened (log st) ++ image_paths st)%list
  /\ option_map RL.pages (pdf st') = Some (map page_for imgs)
  /\ saves (log st') = (saves (log st) ++ [save_path])%list
  /\ disk st' = disk st
  /\ status_text st' = "Error."
  /\ last (log st') update_idletasks
     = showerror "Conversion failed" ("An error occurred:" ++ nl ++ exn_message e).
Proof.
  intros Hne Hall Hask Hsave.
  destruct (convert_images_unwritable env imgs e st Hne Hall Hask Hsave)
    as (H1 & Hd & Hp & Hs & Hlog).
  cbn zeta in *. rewrite H1, Hd, Hp, Hs, Hlog. repeat split.
  - rewrite opened_app, opened_cons, opened_app, opened_progress. cbn.
    now rewrite app_nil_r.
  - rewrite saves_app, saves_cons, saves_app, saves_progress. reflexivity.
  - rewrite app_comm_cons, app_assoc.
    change [save_call (asksaveasfilename env (initialfile st));
            status_set "Error.";
            showerror "Conversion failed"
              ("An error occurred:" ++ nl ++ exn_message e)]
      with ([save_call (asksaveasfilename env (initialfile st))]
            ++ [status_set "Error.";
                showerror "Conversion failed"
                  ("An error occurred:" ++ nl ++ exn_message e)])%list.
    rewrite app_assoc. apply last_two.
Qed.

Lemma unwritable_destination_reports_error_witness :
  let env := Desk.env_readonly in
  let st := Sample.selected ["wide.png"; "tall.png"] in
  let imgs := [Sample.solid "RGB" [] 800 600 Sample.grey;
               Sample.solid "RGB" [] 600 800 Sample.grey] in
  let e := Exn "PermissionError" "[Errno 13] Permission denied: out.pdf" in
  let save_path := asksaveasfilename env (initialfile st) in
  let st' := snd (convert_images_to_pdf env st) in
  fst (convert_images_to_pdf env st) = Ok tt
  /\ opened (log st') = (opened (log st) ++ image_paths st)%list
  /\ option_map RL.pages (pdf st') = Some (map page_for imgs)
  /\ saves (log st') = (saves (log st) ++ [save_path])%list
  /\ disk st' = disk st
  /\ status_text st' = "Error."
  /\ last (log st') update_idletasks
     = showerror "Conversion failed" ("An error occurred:" ++ nl ++ exn_message e).
Proof.
  apply (unwritable_destination_reports_error Desk.env_readonly
           (Sample.selected ["wide.png"; "tall.png"])
           [Sample.solid "RGB" [] 800 600 Sample.grey;
            Sample.solid "RGB" [] 600 800 Sample.grey]
           (Exn "PermissionError" "[Errno 13] Permission denied: out.pdf")).
  - discriminate.
  - repeat constructor; cbn; lia.
  - discriminate.
  - reflexivity.
Defined.

(** X11.  For a name entry of ASCII characters, the name proposed in
    the Save As dialog is the entry without the white space around it,
    followed by ".pdf"; an entry that is empty or all white space
    proposes "output.pdf". *)
Theorem proposed_name_is_stripped_entry (st : State) (pre core post : string) :
  ascii_only (output_pdf_name st) ->
  output_pdf_name st = pre ++ core ++ post ->
  blank pre -> blank post ->
  Py.lstrip core = core -> Py.rstrip core = core ->
  (core = "" -> initialfile st = "output.pdf")
  /\ (core <> "" -> initialfile st = core ++ ".pdf").
Proof.
  intros _ Hn Hpre Hpost Hl Hr. unfold initialfile, default_name.
  rewrite Hn, (strip_surrounded pre core post Hpre Hpost Hl Hr).
  split; intros H.
  - subst core. reflexivity.
  - destruct core; [contradiction | reflexivity].
Qed.

Lemma proposed_name_is_stripped_entry_witness :
  let st := {| image_paths := ["wide.png"]; output_pdf_name := "  my album ";
               status_text := "Ready"; pdf := None; disk := []; log := [] |} in
  ("my album" = "" -> initialfile st = "output.pdf")
  /\ ("my album" <> "" -> initialfile st = "my album" ++ ".pdf").
Proof.
  apply (proposed_name_is_stripped_entry
           {| image_paths := ["wide.png"]; output_pdf_name := "  my album ";
              status_text := "Ready"; pdf := None; disk := []; log := [] |}
           "  " "my album" " ").
  - repeat constructor.
  - reflexivity.
  - repeat constructor.
  - repeat constructor.
  - reflexivity.
  - reflexivity.
Defined.

(** X12.  In a run that succeeds the status line reads, in turn,
    "Processing i/N: name" for i = 1, ..., N, N the length of the list
    and name the file name of the i-th path, and then "Done. Saved: "
    with the file name of the destination. *)
Theorem progress_counts_images (env : Env) (st : State) (imgs : list PIL.Image) :
  image_paths st <> [] ->
  Forall2 (renders env) (image_paths st) imgs ->
  asksaveasfilename env (initialfile st) <> "" ->
  save_error env (asksaveasfilename env (initialfile st)) = None ->
  let save_path := asksaveasfilename env (initialfile st) in
  let total := Z.of_nat (List.length (image_paths st)) in
  statuses (log (snd (convert_images_to_pdf env st)))
  = (statuses (log st)
     ++ map (processing env total) (enumerate1 (image_paths st))
     ++ [("Done. Saved: " ++ basename env save_path)%string])%list.
Proof.
  intros Hne Hall Hask Hsave.
  destruct (convert_images_ok env imgs st Hne Hall Hask Hsave)
    as (_ & _ & _ & Hlog).
  cbn zeta in *. rewrite Hlog.
  rewrite statuses_app. f_equal.
  change (asksaveasfilename_call (initialfile st) :: ?l)
    with ([asksaveasfilename_call (initialfile st)] ++ l)%list.
  rewrite statuses_app, statuses_app. cbn [statuses flat_map app].
  rewrite (statuses_progress env _ 1). reflexivity.
Qed.

Lemma progress_counts_images_witness :
  let env := Desk.env in
  let st := Sample.selected ["wide.png"; "tall.png"] in
  let save_path := asksaveasfilename env (initialfile st) in
  let total := Z.of_nat (List.length (image_paths st)) in
  statuses (log (snd (convert_images_to_pdf env st)))
  = (statuses (log st)
     ++ map (processing env total) (enumerate1 (image_paths st))
     ++ [("Done. Saved: " ++ basename env save_path)%string])%list.
Proof.
  apply (progress_counts_images Desk.env
           (Sample.selected ["wide.png"; "tall.png"])
           [Sample.solid "RGB" [] 800 600 Sample.grey;
            Sample.solid "RGB" [] 600 800 Sample.grey]).
  - discriminate.
  - repeat constructor; cbn; lia.
  - discriminate.
  - reflexivity.
Defined.

End ConversionMore.

(* ------------------------------------------------------------------ *)
(** * Where the image lands on the page *)

Module Layout.
Import App Rounding PlacementFacts MarginFacts.

Lemma sides (img : PIL.Image) :
  (page_w img = 612 /\ page_h img = 792)
  \/ (page_w img = 792 /\ page_h img = 612).
Proof.
  unfold page_w, page_h, page_size_for.
  destruct (PIL.height img >=? PIL.width img); [left | right]; split; reflexivity.
Qed.

(** X13.  For a path that loads to an image with positive sides, the
    method adds one page of size [pw] x [ph] holding the image once; the
    origin it is drawn at is a positive number and the image lies inside
    the margins up to rounding: on both axes the origin is at least
    36 - 2^-42, and the origin plus the drawn side is at most the page
    side less 36, plus 2^-42. *)
Theorem margins_are_kept (env : Env) (p : string) (img : PIL.Image)
    (st : State) (c : RL.Canvas) :
  load env p = Ok img ->
  0 < PIL.width img < 2 ^ 53 ->
  0 < PIL.height img < 2 ^ 53 ->
  pdf st = Some c -> RL.code c = [] ->
  exists (c' : RL.Canvas) (pw ph : Z) (d : RL.drawing),
    (fst (process_image env p st) = Ok tt
     /\ pdf (snd (process_image env p st)) = Some c'
     /\ RL.pages c' = (RL.pages c ++ [RL.mkPage (Some (pw, ph)) [d]])%list
     /\ RL.image d = img)
    /\ (F64.is_pos (RL.x d) = true /\ F64.is_pos (RL.y d) = true)
    /\ (36 - F64.bpow (-42) <= F64.to_R (RL.x d))%R
    /\ (F64.to_R (RL.x d) + F64.to_R (RL.draw_width d)
        <= IZR pw - 36 + F64.bpow (-42))%R
    /\ (36 - F64.bpow (-42) <= F64.to_R (RL.y d))%R
    /\ (F64.to_R (RL.y d) + F64.to_R (RL.draw_height d)
        <= IZR ph - 36 + F64.bpow (-42))%R.
Proof.
  intros Hl Hw Hh Hp Hc.
  assert (HA : 0 < available_w img <= 720)
    by (unfold available_w, margin;
        destruct (sides img) as [(-> & _) | (-> & _)]; lia).
  assert (HB : 0 < available_h img <= 720)
    by (unfold available_h, margin;
        destruct (sides img) as [(_ & ->) | (_ & ->)]; lia).
  destruct (ImageFacts.process_image_draws env p img st c Hl
              ltac:(lia) ltac:(lia) Hp Hc) as (D1 & D2 & D3).
  exists (emit_page img c), (page_w img), (page_h img),
    (RL.InlineImage img (x img) (y img) (new_w img) (new_h img)).
  cbn [RL.image RL.x RL.y RL.draw_width RL.draw_height].
  split; [repeat split; first [assumption | reflexivity] |].
  destruct (new_w_rounds _ _ _ _ Hw Hh HA HB) as [_ Nw].
  destruct (new_h_rounds _ _ _ _ Hw Hh HA HB) as [_ Nh].
  pose proof (new_w_range _ _ _ _ Hw Hh HA HB) as [Wl _].
  pose proof (new_h_range _ _ _ _ Hw Hh HA HB) as [Hl' _].
  pose proof (new_w_fits _ _ _ _ Hw Hh HA HB) as Wu.
  pose proof (new_h_fits _ _ _ _ Hw Hh HA HB) as Hu.
  fold (scale img) in Nw, Nh, Wl, Wu, Hl', Hu.
  fold (new_w img) in Nw, Wl, Wu. fold (new_h img) in Nh, Hl', Hu.
  assert (Pw : page_w img = 612 \/ page_w img = 792)
    by (destruct (sides img) as [(-> & _) | (-> & _)]; auto).
  assert (Ph : page_h img = 612 \/ page_h img = 792)
    by (destruct (sides img) as [(_ & ->) | (_ & ->)]; auto).
  assert (Aw : (IZR (available_w img) = IZR (page_w img) - 72)%R).
  { unfold available_w, margin. rewrite minus_IZR, mult_IZR. lra. }
  assert (Ah : (IZR (available_h img) = IZR (page_h img) - 72)%R).
  { unfold available_h, margin. rewrite minus_IZR, mult_IZR. lra. }
  rewrite Aw in Wu. rewrite Ah in Hu.
  destruct (origin_margin (page_w img) (new_w img) Pw Nw (conj Wl Wu))
    as (Nx & X1 & X2).
  destruct (origin_margin (page_h img) (new_h img) Ph Nh (conj Hl' Hu))
    as (Ny & Y1 & Y2).
  fold (x img) in Nx, X1, X2. fold (y img) in Ny, Y1, Y2.
  repeat split; try (apply nice_is_pos; assumption); assumption.
Qed.

(** The tolerance is needed: for the image of 1 x 169 the method draws
    at a lower margin of 35.99999999999994. *)
Lemma thin_image_margin_is_below_36 :
  exists d : RL.drawing,
    option_map RL.pages
      (pdf (snd (process_image Sample.env "thin.png" (Sample.running ["thin.png"]))))
    = Some [RL.mkPage (Some (612, 792)) [d]]
    /\ F64.ltb (RL.y d) (F64.of_int 36) = true.
Proof.
  exists (RL.InlineImage (Sample.solid "RGB" [] 1 169 Sample.grey)
            (x (Sample.solid "RGB" [] 1 169 Sample.grey))
            (y (Sample.solid "RGB" [] 1 169 Sample.grey))
            (new_w (Sample.solid "RGB" [] 1 169 Sample.grey))
            (new_h (Sample.solid "RGB" [] 1 169 Sample.grey))).
  vm_compute. split; reflexivity.
Qed.

Lemma margins_are_kept_witness :
  let env := Sample.env in
  let p := "thin.png" in
  let img := Sample.solid "RGB" [] 1 169 Sample.grey in
  let st := Sample.running ["thin.png"] in
  let c := RL.new "out.pdf" in
  exists (c' : RL.Canvas) (pw ph : Z) (d : RL.drawing),
    (fst (process_image env p st) = Ok tt
     /\ pdf (snd (process_image env p st)) = Some c'
     /\ RL.pages c' = (RL.pages c ++ [RL.mkPage (Some (pw, ph)) [d]])%list
     /\ RL.image d = img)
    /\ (F64.is_pos (RL.x d) = true /\ F64.is_pos (RL.y d) = true)
    /\ (36 - F64.bpow (-42) <= F64.to_R (RL.x d))%R
    /\ (F64.to_R (RL.x d) + F64.to_R (RL.draw_width d)
        <= IZR pw - 36 + F64.bpow (-42))%R
    /\ (36 - F64.bpow (-42) <= F64.to_R (RL.y d))%R
    /\ (F64.to_R (RL.y d) + F64.to_R (RL.draw_height d)
        <= IZR ph - 36 + F64.bpow (-42))%R.
Proof.
  apply (margins_are_kept Sample.env "thin.png"
           (Sample.solid "RGB" [] 1 169 Sample.grey)
           (Sample.running ["thin.png"]) (RL.new "out.pdf")).
  - reflexivity.
  - cbn. lia.
  - cbn. lia.
  - reflexivity.
  - reflexivity.
Defined.

(** X14.  Scaling keeps the proportions of the image up to rounding: for
    a path that loads to an image with positive sides, the method adds
    one page holding the image once, and the drawn height times the
    image width and the drawn width times the image height differ by a
    relative 2^-51 at most. *)
Theorem aspect_ratio_is_kept (env : Env) (p : string) (img : PIL.Image)
    (st : State) (c : RL.Canvas) :
  load env p = Ok img ->
  0 < PIL.width img < 2 ^ 53 ->
  0 < PIL.height img < 2 ^ 53 ->
  pdf st = Some c -> RL.code c = [] ->
  exists (c' : RL.Canvas) (pw ph : Z) (d : RL.drawing),
    (fst (process_image env p st) = Ok tt
     /\ pdf (snd (process_image env p st)) = Some c'
     /\ RL.pages c' = (RL.pages c ++ [RL.mkPage (Some (pw, ph)) [d]])%list
     /\ RL.image d = img)
    /\ (F64.to_R (RL.draw_width d) * IZR (PIL.height img) * (1 - F64.eps)
        <= F64.to_R (RL.draw_height d) * IZR (PIL.width img)
        <= F64.to_R (RL.draw_width d) * IZR (PIL.height img) * (1 + F64.eps))%R.
Proof.
  intros Hl Hw Hh Hp Hc.
  assert (HA : 0 < available_w img <= 720)
    by (unfold available_w, margin;
        destruct (sides img) as [(-> & _) | (-> & _)]; lia).
  assert (HB : 0 < available_h img <= 720)
    by (unfold available_h, margin;
        destruct (sides img) as [(_ & ->) | (_ & ->)]; lia).
  destruct (ImageFacts.process_image_draws env p img st c Hl
              ltac:(lia) ltac:(lia) Hp Hc) as (D1 & D2 & D3).
  exists (emit_page img c), (page_w img), (page_h img),
    (RL.InlineImage img (x img) (y img) (new_w img) (new_h img)).
  cbn [RL.image RL.x RL.y RL.draw_width RL.draw_height].
  split; [repeat split; first [assumption | reflexivity] |].
  exact (proportion _ _ _ _ Hw Hh HA HB).
Qed.

Lemma aspect_ratio_is_kept_witness :
  let env := Sample.env in
  let p := "thin.png" in
  let img := Sample.solid "RGB" [] 1 169 Sample.grey in
  let st := Sample.running ["thin.png"] in
  let c := RL.new "out.pdf" in
  exists (c' : RL.Canvas) (pw ph : Z) (d : RL.drawing),
    (fst (process_image env p st) = Ok tt
     /\ pdf (snd (process_image env p st)) = Some c'
     /\ RL.pages c' = (RL.pages c ++ [RL.mkPage (Some (pw, ph)) [d]])%list
     /\ RL.image d = img)
    /\ (F64.to_R (RL.draw_width d) * IZR (PIL.height img) * (1 - F64.eps)
        <= F64.to_R (RL.draw_height d) * IZR (PIL.width img)
        <= F64.to_R (RL.draw_width d) * IZR (PIL.height img) * (1 + F64.eps))%R.
Proof.
  apply (aspect_ratio_is_kept Sample.env "thin.png"
           (Sample.solid "RGB" [] 1 169 Sample.grey)
           (Sample.running ["thin.png"]) (RL.new "out.pdf")).
  - reflexivity.
  - cbn. lia.
  - cbn. lia.
  - reflexivity.
  - reflexivity.
Defined.

End Layout.

(* ------------------------------------------------------------------ *)
(** * Properties of sessions *)

Module Sessions.
Import Gui Session ListFacts OrderFacts GuiFacts.

Lemma press_keeps (env : App.Env) (b : button) (w : Window) :
  in_step env w -> selection_ok w ->
  fst (press env b w) = Ok tt
  /\ in_step env (snd (press env b w))
  /\ selection_ok (snd (press env b w)).
Proof.
  intros Hstep Hsel.
  destruct b as [answer | answer | | | | |]; cbn [press].
  - apply (Listing.handlers_keep env w answer Hstep Hsel).
  - apply (Listing.handlers_keep env w answer Hstep Hsel).
  - apply (Listing.handlers_keep env w [] Hstep Hsel).
  - apply (Listing.handlers_keep env w [] Hstep Hsel).
  - apply (Listing.handlers_keep env w [] Hstep Hsel).
  - apply (Listing.handlers_keep env w [] Hstep Hsel).
  - apply (Listing.handlers_keep env w [] Hstep Hsel).
Qed.

(** X15.  Every window of a session has its listbox in step with the
    list, and no button pressed on it raises: from the window the
    constructor builds, through any presses of the buttons, any answers
    to the file dialogs, any selections in the listbox and any typing in
    the name entry, the listbox shows the file names of the stored paths
    in order, its selection lies within its lines, and each button
    returns normally. *)
Theorem no_button_ever_raises (env : App.Env) (w : Window) :
  reachable env w ->
  in_step env w /\ selection_ok w
  /\ forall b : button, fst (press env b w) = Ok tt.
Proof.
  intros Hr.
  assert (H : in_step env w /\ selection_ok w).
  { induction Hr as [| b w _ [I1 I2] | sel w _ [I1 I2] Hs | name w _ [I1 I2]].
    - split; [reflexivity | split; constructor].
    - destruct (press_keeps env b w I1 I2) as (_ & K2 & K3). split; assumption.
    - split; [exact I1 | exact Hs].
    - split; [exact I1 | exact I2]. }
  destruct H as [I1 I2]. split; [exact I1 |]. split; [exact I2 |].
  intros b. apply (press_keeps env b w I1 I2).
Qed.

Lemma no_button_ever_raises_witness :
  let w := snd (press Desk.env MoveUp
             (with_selection [1; 2]
                (snd (press Desk.env (SelectImages Desk.four) init)))) in
  in_step Desk.env w /\ selection_ok w
  /\ forall b : button, fst (press Desk.env b w) = Ok tt.
Proof.
  apply (no_button_ever_raises Desk.env).
  apply reach_press. apply reach_select.
  - apply reach_press. apply reach_init.
  - split; repeat constructor; cbn; lia.
Defined.

Section WithEnv.
Variable env : App.Env.

Lemma shown_app (s : string) (l : list string) (w : Window) :
  let w1 := snd (set_status s
                   (with_listbox (Tk.mkListbox (map (App.basename env) l) [])
                      (with_paths l w))) in
  App.image_paths (app w1) = l
  /\ App.initialfile (app w1) = App.initialfile (app w)
  /\ App.disk (app w1) = App.disk (app w)
  /\ App.log (app w1) = (App.log (app w) ++ [App.status_set s])%list.
Proof. cbn. repeat split; reflexivity. Qed.

End WithEnv.

(** X16.  Selecting and converting: whatever the list held before, after
    "Select Images" has been answered with readable images and the Save
    As dialog with a writable destination, "Convert to PDF" writes one
    document whose pages are those of the chosen images, in the order
    chosen; the list then holds the chosen paths. *)
Theorem selected_images_are_converted (env : App.Env) (w : Window)
    (paths : list string) (imgs : list PIL.Image) :
  paths <> [] ->
  Forall2 (App.renders env) paths imgs ->
  App.asksaveasfilename env (App.initialfile (app w)) <> "" ->
  App.save_error env (App.asksaveasfilename env (App.initialfile (app w))) = None ->
  let save_path := App.asksaveasfilename env (App.initialfile (app w)) in
  let w1 := snd (press env (SelectImages paths) w) in
  let w2 := snd (press env ConvertToPDF w1) in
  fst (press env ConvertToPDF w1) = Ok tt
  /\ App.disk (app w2) = (save_path, map App.page_for imgs) :: App.disk (app w)
  /\ image_paths w2 = paths
  /\ App.status_text (app w2) = "Done. Saved: " ++ App.basename env save_path.
Proof.
  intros Hne Hall Hask Hsave. cbn zeta. cbn [press].
  destruct paths as [| p ps]; [contradiction |].
  rewrite select_images_run.
  destruct (shown_app env
              ("Selected " ++ Py.str (Z.of_nat (List.length (p :: ps))) ++ " image(s).")
              (p :: ps) w) as (S1 & S2 & S3 & S4).
  cbn zeta in S1, S2, S3, S4.
  set (w1 := snd (set_status _ _)) in *.
  unfold convert_images_to_pdf. cbn [fst snd with_app app].
  unfold image_paths. cbn [with_app app].
  destruct (RunFacts.convert_images_ok env imgs (app w1)) as (C1 & C2 & C3 & _).
  - rewrite S1. discriminate.
  - rewrite S1. exact Hall.
  - rewrite S2. exact Hask.
  - rewrite S2. exact Hsave.
  - cbn zeta in C1, C2, C3. rewrite S2, S3 in *.
    destruct (RunFacts.keeps_convert_images_to_pdf env (app w1)) as [K _].
    rewrite K, S1. repeat split; assumption.
Qed.

Lemma selected_images_are_converted_witness :
  let env := Sample.env in
  let w := Desk.window ["missing.png"] [] in
  let paths := ["wide.png"; "tall.png"] in
  let imgs := [Sample.solid "RGB" [] 800 600 Sample.grey;
               Sample.solid "RGB" [] 600 800 Sample.grey] in
  let save_path := App.asksaveasfilename env (App.initialfile (app w)) in
  let w1 := snd (press env (SelectImages paths) w) in
  let w2 := snd (press env ConvertToPDF w1) in
  fst (press env ConvertToPDF w1) = Ok tt
  /\ App.disk (app w2) = (save_path, map App.page_for imgs) :: App.disk (app w)
  /\ image_paths w2 = paths
  /\ App.status_text (app w2) = "Done. Saved: " ++ App.basename env save_path.
Proof.
  apply (selected_images_are_converted Sample.env (Desk.window ["missing.png"] [])
           ["wide.png"; "tall.png"]
           [Sample.solid "RGB" [] 800 600 Sample.grey;
            Sample.solid "RGB" [] 600 800 Sample.grey]).
  - discriminate.
  - repeat constructor; cbn; lia.
  - discriminate.
  - reflexivity.
Defined.

(** X17.  After "Clear", "Convert to PDF" only warns: the list is empty,
    the "No images" box follows the "Cleared list." status, no dialog is
    opened, no image is opened and nothing is written. *)
Theorem cleared_list_is_not_converted (env : App.Env) (w : Window) :
  let w1 := snd (press env Clear w) in
  let w2 := snd (press env ConvertToPDF w1) in
  image_paths w1 = []
  /\ selected_images_listbox w1 = Tk.mkListbox [] []
  /\ App.log (app w2)
     = (App.log (app w)
        ++ [App.status_set "Cleared list.";
            App.showwarning "No images" "Please select at least one image."])%list
  /\ App.disk (app w2) = App.disk (app w)
  /\ App.status_text (app w2) = "Cleared list.".
Proof.
  cbn zeta. cbn [press]. rewrite clear_list_run.
  destruct (shown_app env "Cleared list." [] w) as (S1 & S2 & S3 & S4).
  cbn zeta in S1, S2, S3, S4.
  set (w1 := snd (set_status _ _)) in *.
  unfold convert_images_to_pdf. cbn [fst snd with_app app].
  rewrite (RunFacts.convert_empty env (app w1) S1).
  cbn [snd App.with_log App.log App.disk App.status_text].
  rewrite S3, S4, <- app_assoc. repeat split; reflexivity.
Qed.

(** X18.  Removing and converting: after "Remove Selected" has taken the
    selected lines out, a run over the remaining images, all readable,
    with a writable destination, opens the remaining paths and no other
    and writes their pages; nothing is asked of the images that were
    removed. *)
Theorem removed_images_are_left_out (env : App.Env) (w : Window)
    (imgs : list PIL.Image) :
  in_step env w -> selection_ok w ->
  Tk.selection (selected_images_listbox w) <> [] ->
  let remaining :=
    unselected (Tk.selection (selected_images_listbox w)) 0 (image_paths w) in
  remaining <> [] ->
  Forall2 (App.renders env) remaining imgs ->
  App.asksaveasfilename env (App.initialfile (app w)) <> "" ->
  App.save_error env (App.asksaveasfilename env (App.initialfile (app w))) = None ->
  let save_path := App.asksaveasfilename env (App.initialfile (app w)) in
  let w1 := snd (press env RemoveSelected w) in
  let w2 := snd (press env ConvertToPDF w1) in
  fst (press env RemoveSelected w) = Ok tt
  /\ fst (press env ConvertToPDF w1) = Ok tt
  /\ App.opened (App.log (app w2))
     = (App.opened (App.log (app w)) ++ remaining)%list
  /\ App.disk (app w2) = (save_path, map App.page_for imgs) :: App.disk (app w).
Proof.
  intros Hstep Hsel Hne remaining Hrem Hall Hask Hsave. cbn zeta. cbn [press].
  destruct (Listing.selection_in_range env w Hstep Hsel) as [Hs Hr].
  destruct (Tk.selection (selected_images_listbox w)) as [| i rest] eqn:E;
    [contradiction |].
  rewrite (remove_selected_run env w i rest E Hs Hr). fold remaining.
  destruct (shown_app env
              ("Remaining " ++ Py.str (Z.of_nat (List.length remaining))
               ++ " image(s).") remaining w) as (S1 & S2 & S3 & S4).
  cbn zeta in S1, S2, S3, S4.
  set (w1 := snd (set_status _ _)) in *.
  split; [reflexivity |].
  unfold convert_images_to_pdf. cbn [fst snd with_app app].
  destruct (RunFacts.convert_images_ok env imgs (app w1)) as (C1 & C2 & _ & C4).
  - rewrite S1. exact Hrem.
  - rewrite S1. exact Hall.
  - rewrite S2. exact Hask.
  - rewrite S2. exact Hsave.
  - cbn zeta in C1, C2, C4. rewrite S1, S2, S3, S4 in *.
    split; [exact C1 |]. split; [| exact C2].
    rewrite C4, LoopFacts.opened_app, LoopFacts.opened_app.
    rewrite (LoopFacts.opened_cons (App.asksaveasfilename_call _)),
      LoopFacts.opened_app, LoopFacts.opened_progress.
    cbn. now rewrite !app_nil_r.
Qed.

Lemma removed_images_are_left_out_witness :
  let env := Sample.env in
  let w := Gui.mkWindow (Sample.selected ["wide.png"; "missing.png"; "tall.png"])
             (Tk.mkListbox ["wide.png"; "missing.png"; "tall.png"] [1]) in
  let imgs := [Sample.solid "RGB" [] 800 600 Sample.grey;
               Sample.solid "RGB" [] 600 800 Sample.grey] in
  let remaining :=
    unselected (Tk.selection (selected_images_listbox w)) 0 (image_paths w) in
  let save_path := App.asksaveasfilename env (App.initialfile (app w)) in
  let w1 := snd (press env RemoveSelected w) in
  let w2 := snd (press env ConvertToPDF w1) in
  fst (press env RemoveSelected w) = Ok tt
  /\ fst (press env ConvertToPDF w1) = Ok tt
  /\ App.opened (App.log (app w2))
     = (App.opened (App.log (app w)) ++ remaining)%list
  /\ App.disk (app w2) = (save_path, map App.page_for imgs) :: App.disk (app w).
Proof.
  apply (removed_images_are_left_out Sample.env
           (Gui.mkWindow (Sample.selected ["wide.png"; "missing.png"; "tall.png"])
              (Tk.mkListbox ["wide.png"; "missing.png"; "tall.png"] [1]))
           [Sample.solid "RGB" [] 800 600 Sample.grey;
            Sample.solid "RGB" [] 600 800 Sample.grey]).
  - reflexivity.
  - split; repeat constructor; cbn; lia.
  - discriminate.
  - discriminate.
  - repeat constructor; cbn; lia.
  - discriminate.
  - reflexivity.
Defined.

End Sessions.
